(** * FedEx invoice field recovery: a shallow embedding of
    [parse_fedex_invoice.py], with its command line, and of the reference
    list and the by-reference lookup of [app.py].

    Text is modelled as [list ascii], one [ascii] per character: the
    development covers text whose characters have code points below 256
    (ASCII and Latin-1), where a character class, [lower], [strip] and
    [splitlines] are given as Python has them; every statement about [str]
    is a statement about such text.  Beyond U+00FF [str.lower()] can change
    the length of a text and [re.I] lets a letter match characters that are
    not its two cases; the module [Wide] gives the two functions that cut
    the text at offsets of its lower case over an alphabet that has the
    character concerned.  Python dictionaries are finite maps with string
    keys; operations that can raise in Python ([l[i]], [d[k]],
    [None.strip()], [Decimal(s)], [abs] of a decimal, [max] of nothing)
    return in an error monad. *)

From Stdlib Require Import Ascii String List Sorted ZArith QArith Qabs Lia Bool.
From stdpp Require Import base option list gmap strings sorting.

Open Scope nat_scope.

(** ** Text *)

Abbreviation str := (list ascii).

Definition txt (s : string) : str := list_ascii_of_string s.

Definition code (a : ascii) : nat := nat_of_ascii a.

Definition chr_eqb (a b : ascii) : bool := Ascii.eqb a b.

Definition nl : ascii := ascii_of_nat 10.

Definition is_nl (a : ascii) : bool := chr_eqb a nl.

(** [\d]: below 256 the decimal digits are 0 to 9. *)
Definition is_digit (a : ascii) : bool :=
  (48 <=? code a) && (code a <=? 57).

(** [\s] and [str.isspace]: TAB, LF, VT, FF, CR, the separators 28..31,
    SPACE, NEL (133) and the no-break space (160). *)
Definition is_space (a : ascii) : bool :=
  ((9 <=? code a) && (code a <=? 13))
  || ((28 <=? code a) && (code a <=? 31))
  || (code a =? 32) || (code a =? 133) || (code a =? 160).

(** [str.lower()], character by character: A to Z and the Latin-1 capitals
    192..222 (but the multiplication sign 215) move up by 32.  Below U+0100
    the lower case of a character is one character, so that [lower] keeps
    lengths and offsets; the lower case of U+0130 is two characters (see
    [Wide.lower]). *)
Definition lower_chr (a : ascii) : ascii :=
  if ((65 <=? code a) && (code a <=? 90))
     || ((192 <=? code a) && (code a <=? 222) && negb (code a =? 215))
  then ascii_of_nat (code a + 32) else a.

Definition lower (s : str) : str := map lower_chr s.

(** [s[i:j]] for [0 <= i]; as in Python the slice is clipped to the text. *)
Definition slice (s : str) (i j : nat) : str := take (j - i) (drop i s).

Fixpoint starts_with (sub s : str) : bool :=
  match sub, s with
  | [], _ => true
  | a :: sub', b :: s' => chr_eqb a b && starts_with sub' s'
  | _ :: _, [] => false
  end.

(** [s.find(sub, start)]: the lowest index [>= start] where [sub] occurs,
    [None] for Python's [-1]. *)
Fixpoint find_at (sub s : str) (pos : nat) : option nat :=
  if starts_with sub s then Some pos
  else match s with
       | [] => None
       | _ :: s' => find_at sub s' (S pos)
       end.

Definition find (s sub : str) (start : nat) : option nat :=
  if start <=? length s then find_at sub (drop start s) start else None.

(** [sub in s]. *)
Definition contains (sub s : str) : bool :=
  match find s sub 0 with Some _ => true | None => false end.

(** [str.splitlines()]: LF, CR, CR LF, VT, FF, the separators 28..30 and NEL
    (133) end a line; no empty last line. *)
Definition is_linebreak (a : ascii) : bool :=
  ((10 <=? code a) && (code a <=? 13)) || ((28 <=? code a) && (code a <=? 30))
  || (code a =? 133).

Fixpoint splitlines_aux (cur : str) (s : str) : list str :=
  match s with
  | [] => match cur with [] => [] | _ => [rev cur] end
  | a :: s' =>
      if code a =? 13 then
        match s' with
        | b :: s'' => if is_nl b then rev cur :: splitlines_aux [] s''
                      else rev cur :: splitlines_aux [] s'
        | [] => rev cur :: splitlines_aux [] s'
        end
      else if is_linebreak a then rev cur :: splitlines_aux [] s'
      else splitlines_aux (a :: cur) s'
  end.

Definition splitlines (s : str) : list str := splitlines_aux [] s.

(** [str.strip()]: removes leading and trailing whitespace. *)
Fixpoint lstrip (s : str) : str :=
  match s with
  | a :: s' => if is_space a then lstrip s' else s
  | [] => []
  end.

Definition strip (s : str) : str := rev (lstrip (rev (lstrip s))).

(** ** Regular expressions

    The patterns of the program use literals, character classes, sequence,
    the optional group, greedy and lazy repetition of a character class,
    named and numbered groups and [^] under [re.M].  The matcher is a
    backtracking matcher in continuation-passing style: alternatives are
    tried in the order of Python's [re] (greedy: one more character first;
    lazy: the rest of the pattern first). *)

Inductive regex : Type :=
| Eps
| Bol
| Chr (p : ascii -> bool)
| Seq (r1 r2 : regex)
| Alt (r1 r2 : regex)
| Star (greedy : bool) (p : ascii -> bool)
| Group (name : string) (r : regex).

Abbreviation caps := (gmap string str).

Section Matcher.
Context {R : Type}.

Fixpoint star_loop (greedy : bool) (p : ascii -> bool)
    (k : bool -> str -> caps -> option R)
    (b : bool) (s : str) (c : caps) : option R :=
  match s with
  | a :: s' =>
      if p a then
        if greedy then
          match star_loop greedy p k (is_nl a) s' c with
          | Some x => Some x
          | None => k b s c
          end
        else
          match k b s c with
          | Some x => Some x
          | None => star_loop greedy p k (is_nl a) s' c
          end
      else k b s c
  | [] => k b s c
  end.

(** [b] tells whether the cursor is at the beginning of a line, [s] is the
    text from the cursor on, [c] the groups captured so far. *)
Fixpoint run (r : regex) (b : bool) (s : str) (c : caps)
    (k : bool -> str -> caps -> option R) : option R :=
  match r with
  | Eps => k b s c
  | Bol => if b then k b s c else None
  | Chr p =>
      match s with
      | a :: s' => if p a then k (is_nl a) s' c else None
      | [] => None
      end
  | Seq r1 r2 => run r1 b s c (fun b' s' c' => run r2 b' s' c' k)
  | Alt r1 r2 =>
      match run r1 b s c k with
      | Some x => Some x
      | None => run r2 b s c k
      end
  | Star greedy p => star_loop greedy p k b s c
  | Group name r1 =>
      run r1 b s c
        (fun b' s' c' => k b' s' (<[name := take (length s - length s') s]> c'))
  end.
End Matcher.

(** A match object: [m.start()], [m.end()], [m.group(0)] and the groups. *)
Record rmatch : Type := mkMatch {
  m_start : nat;
  m_end : nat;
  m_text : str;
  m_groups : caps
}.

(** [m.group(name)]: [None] for a group that took no part in the match. *)
Definition group (m : rmatch) (name : string) : option str := m_groups m !! name.

(** One attempt with the match starting at the cursor. *)
Definition match_here (r : regex) (b : bool) (pos : nat) (s : str) : option rmatch :=
  run r b s ∅
    (fun _ s' c =>
       let n := length s - length s' in
       Some (mkMatch pos (pos + n) (take n s) c)).

(** [re.match]: the match must start at offset 0. *)
Definition re_match (r : regex) (s : str) : option rmatch := match_here r true 0 s.

Fixpoint search_from (r : regex) (b : bool) (pos : nat) (s : str) : option rmatch :=
  match match_here r b pos s with
  | Some m => Some m
  | None =>
      match s with
      | a :: s' => search_from r (is_nl a) (S pos) s'
      | [] => None
      end
  end.

(** [re.search]: the leftmost match. *)
Definition re_search (r : regex) (s : str) : option rmatch := search_from r true 0 s.

(** [re.finditer]: the successive leftmost matches, each search starting
    where the previous match ended.  [skip] counts the characters of the
    last match still to be passed.  After an empty match the scan moves on by
    one character; no pattern of the program matches the empty text. *)
Fixpoint finditer_from (r : regex) (b : bool) (pos skip : nat) (s : str) : list rmatch :=
  match skip with
  | S skip' =>
      match s with
      | a :: s' => finditer_from r (is_nl a) (S pos) skip' s'
      | [] => []
      end
  | 0 =>
      match match_here r b pos s with
      | Some m =>
          m :: match s with
               | a :: s' => finditer_from r (is_nl a) (S pos) (m_end m - m_start m - 1) s'
               | [] => []
               end
      | None =>
          match s with
          | a :: s' => finditer_from r (is_nl a) (S pos) 0 s'
          | [] => []
          end
      end
  end.

Definition finditer (r : regex) (s : str) : list rmatch := finditer_from r true 0 0 s.

(** *** Pattern notation *)

Definition lit (a : ascii) : regex := Chr (chr_eqb a).
(** A literal under [re.I]: below 256 a character matches a letter of the
    patterns exactly when its lower case is that letter.  Beyond U+00FF
    [re.I] also lets [s] match U+017F, [k] match U+212A and [i] match U+0130
    and U+0131, characters that this alphabet does not have. *)
Definition liti (a : ascii) : regex := Chr (fun x => chr_eqb (lower_chr x) (lower_chr a)).

Fixpoint lits (s : str) : regex :=
  match s with
  | [] => Eps
  | [a] => lit a
  | a :: s' => Seq (lit a) (lits s')
  end.

Fixpoint litsi (s : str) : regex :=
  match s with
  | [] => Eps
  | [a] => liti a
  | a :: s' => Seq (liti a) (litsi s')
  end.

Definition Plus (greedy : bool) (p : ascii -> bool) : regex := Seq (Chr p) (Star greedy p).
Definition Opt (r : regex) : regex := Alt r Eps.
Fixpoint seqs (l : list regex) : regex :=
  match l with
  | [] => Eps
  | [r] => r
  | r :: l' => Seq r (seqs l')
  end.

Definition any_but_nl (a : ascii) : bool := negb (is_nl a).      (* [.]        *)
Definition any_chr (a : ascii) : bool := true.                   (* [.], re.S  *)
Definition non_space (a : ascii) : bool := negb (is_space a).    (* [\S]       *)
Definition digit_or_comma (a : ascii) : bool := is_digit a || chr_eqb a ",". (* [[\d,]] *)
Definition digit_or_dot (a : ascii) : bool := is_digit a || chr_eqb a ".".   (* [[\d\.]] *)
Definition not_digit_nl (a : ascii) : bool := negb (is_digit a || is_nl a).  (* [[^\d\n]] *)

Definition d1 : regex := Chr is_digit.
Definition ds : regex := Plus true is_digit.                     (* [\d+] *)
Definition ws : regex := Plus true is_space.                     (* [\s+] *)
Definition ws0 : regex := Star true is_space.                    (* [\s*] *)
(** [\d{2}/\d{2}/\d{4}] *)
Definition date_re : regex :=
  seqs [d1; d1; lit "/"; d1; d1; lit "/"; d1; d1; d1; d1].
(** [[\d,]+\.\d+] *)
Definition amount_re : regex := seqs [Plus true digit_or_comma; lit "."; ds].

Definition HEADER_RE : regex :=
  seqs [Bol; Group "shipment" ds; ws;
        Group "ship_date" date_re; ws;
        Group "service" (Plus false any_but_nl); ws;
        Group "pieces" ds; ws;
        Group "weight" (seqs [ds; Opt (Seq (lit ".") ds); ws0; lits (txt "kg")]); ws;
        Group "reference" (Plus true non_space); ws;
        Group "freight" amount_re; ws;
        Group "other_charges" amount_re; ws;
        Group "total" amount_re].

Definition DIMS_RE : regex :=
  seqs [lits (txt "Dims:"); ws0; Group "dims" (Plus false any_but_nl); ws;
        lits (txt "Billed Weight:"); ws0;
        Group "billed_weight" (seqs [Plus true digit_or_dot; ws0; lits (txt "kg")])].

(** [NUM_PATTERN = -?[\d,]+(?:\.\d+)?] *)
Definition NUM_PATTERN : regex :=
  seqs [Opt (lit "-"); Plus true digit_or_comma; Opt (Seq (lit ".") ds)].

(** [NUM_RE = -?[\d,]+\.\d+] *)
Definition NUM_RE : regex := seqs [Opt (lit "-"); Plus true digit_or_comma; lit "."; ds].

Definition after_re (label_pat : regex) : regex :=
  seqs [label_pat; Star true not_digit_nl; Group "1" NUM_PATTERN].
Definition before_re (label_pat : regex) : regex :=
  seqs [Group "1" NUM_PATTERN; Star true any_but_nl; label_pat].

Definition transport_pat : regex := seqs [litsi (txt "Transportation"); ws; litsi (txt "Charge")].
Definition discount_pat : regex := litsi (txt "Discount").
Definition fuel_pat : regex := seqs [litsi (txt "Fuel"); ws; litsi (txt "Surcharge")].

Definition TRANSPORT_AFTER_RE := after_re transport_pat.
Definition DISCOUNT_AFTER_RE := after_re discount_pat.
Definition FUEL_AFTER_RE := after_re fuel_pat.
Definition TRANSPORT_BEFORE_RE := before_re transport_pat.
Definition DISCOUNT_BEFORE_RE := before_re discount_pat.
Definition FUEL_BEFORE_RE := before_re fuel_pat.

Definition TENDER_SUBTOTAL_RE : regex :=
  seqs [lits (txt "Tendered Date:"); ws0; Group "tendered_date" date_re;
        Star false any_chr; lits (txt "Subtotal INR"); ws0;
        Group "subtotal" amount_re].

(** ** Exceptions *)

Inductive exn : Type :=
| IndexError | KeyError | AttributeError | ValueError | InvalidOperation | Overflow.

Inductive result (A : Type) : Type :=
| Ok (a : A)
| Raise (e : exn).
Arguments Ok {A} a.
Arguments Raise {A} e.

#[global] Instance result_ret : MRet result := fun A a => Ok a.
#[global] Instance result_bind : MBind result :=
  fun A B f x => match x with Ok a => f a | Raise e => Raise e end.

(** [l[k]] for a Python integer [k]: a negative index counts from the end. *)
Definition py_index {A} (l : list A) (k : Z) : result A :=
  let n := Z.of_nat (length l) in
  let k' := (if k <? 0 then n + k else k)%Z in
  if (k' <? 0)%Z then Raise IndexError
  else match l !! Z.to_nat k' with
       | Some x => Ok x
       | None => Raise IndexError
       end.

(** [d[k]] on a dictionary. *)
Definition py_getitem {V} (d : gmap string V) (k : string) : result V :=
  match d !! k with
  | Some v => Ok v
  | None => Raise KeyError
  end.

(** [x.strip()] where [x] is a string or [None]. *)
Definition py_strip (x : option str) : result str :=
  match x with
  | Some s => Ok (strip s)
  | None => Raise AttributeError
  end.

(** Truth value of a string or [None]. *)
Definition truthy (x : option str) : bool :=
  match x with
  | Some (_ :: _) => true
  | _ => false
  end.

(** ** Decimal numbers

    [Decimal(s)] for the syntax [sign? digits* (. digits* )?] with at least
    one digit; the constructor's other syntaxes (exponents, [Infinity],
    [NaN], underscores, surrounding blanks) are reported as errors here: no
    token of [NUM_RE] uses them.  A decimal is a sign, the digits of its
    coefficient without leading zeros (none for zero) and an exponent.  The
    constructor is exact; the precision and the exponent limits of the
    default context come in with [abs], see [dec_fix]. *)

Record decimal : Type := mkDec {
  d_neg : bool;
  d_digits : list nat;
  d_exp : Z
}.

Definition digit_val (a : ascii) : nat := code a - 48.

Fixpoint strip_zeros (l : list nat) : list nat :=
  match l with
  | 0 :: l' => strip_zeros l'
  | _ => l
  end.

Fixpoint span_digits (s : str) : list nat * str :=
  match s with
  | a :: s' =>
      if is_digit a then
        let '(ds, rest) := span_digits s' in (digit_val a :: ds, rest)
      else ([], s)
  | [] => ([], [])
  end.

Definition Decimal (s : str) : result decimal :=
  let '(neg, s1) :=
    match s with
    | a :: s' => if chr_eqb a "-" then (true, s')
                 else if chr_eqb a "+" then (false, s') else (false, s)
    | [] => (false, s)
    end in
  let '(ip, s2) := span_digits s1 in
  let '(fp, s3) :=
    match s2 with
    | a :: s' => if chr_eqb a "." then span_digits s' else ([], s2)
    | [] => ([], s2)
    end in
  match s3, ip ++ fp with
  | [], _ :: _ => Ok (mkDec neg (strip_zeros (ip ++ fp)) (- Z.of_nat (length fp)))
  | _, _ => Raise InvalidOperation
  end.

Definition digits_val (l : list nat) : Z :=
  fold_left (fun acc d => (10 * acc + Z.of_nat d)%Z) l 0%Z.

(** The numeric value of a decimal. *)
Definition dec_value (d : decimal) : Q :=
  let c := (if d_neg d then - digits_val (d_digits d) else digits_val (d_digits d))%Z in
  if (0 <=? d_exp d)%Z then inject_Z (c * 10 ^ d_exp d)
  else Qmake c (Z.to_pos (10 ^ (- d_exp d))).

(** Rounding of the coefficient to the 28 digits of the default context,
    [ROUND_HALF_EVEN]. *)
Definition prec : nat := 28.

Definition round_up (kept : list nat) (rest : list nat) : bool :=
  match rest with
  | [] => false
  | r :: rest' =>
      if 5 <? r then true
      else if r <? 5 then false
      else if forallb (Nat.eqb 0) rest' then Z.odd (digits_val kept)
      else true
  end.

(** The digits of a natural number, most significant first. *)
Fixpoint digits_of (fuel : nat) (n : Z) (acc : list nat) : list nat :=
  match fuel with
  | 0 => acc
  | S fuel' =>
      if (n <? 10)%Z then Z.to_nat n :: acc
      else digits_of fuel' (n / 10) (Z.to_nat (n mod 10) :: acc)
  end.

(** The exponent limits of the default context. *)
Definition Emax : Z := 999999.
Definition Emin : Z := -999999.
Definition Etiny : Z := Emin - Z.of_nat prec + 1.
Definition Etop : Z := Emax - Z.of_nat prec + 1.

(** [Decimal._fix] in the default context (precision 28, [ROUND_HALF_EVEN],
    no clamp, [Overflow] trapped, [Underflow], [Subnormal], [Inexact],
    [Rounded] and [Clamped] not trapped): a zero has its exponent brought
    between [Etiny] and [Emax]; a number whose adjusted exponent is above
    [Emax] raises [Overflow]; a coefficient of more than 28 digits, or an
    exponent below [Etiny], is rounded. *)
Definition dec_fix (d : decimal) : result decimal :=
  match d_digits d with
  | [] => mret (mkDec (d_neg d) [] (Z.min (Z.max (d_exp d) Etiny) Emax))
  | _ :: _ =>
      let n := Z.of_nat (length (d_digits d)) in
      let exp_min := (n + d_exp d - Z.of_nat prec)%Z in
      if (Etop <? exp_min)%Z then Raise Overflow
      else
        let exp_min := Z.max exp_min Etiny in
        if (d_exp d <? exp_min)%Z then
          let digits := (n + d_exp d - exp_min)%Z in
          let int := if (digits <? 0)%Z then [1] else d_digits d in
          let digits := Z.to_nat digits in
          let kept := take digits int in
          let rest := drop digits int in
          let coeff :=
            digits_of (S prec)
              (digits_val kept + (if round_up kept rest then 1 else 0))%Z [] in
          let '(coeff, exp_min) :=
            if prec <? length coeff then (removelast coeff, (exp_min + 1)%Z)
            else (coeff, exp_min) in
          if (Etop <? exp_min)%Z then Raise Overflow
          else mret (mkDec (d_neg d) coeff exp_min)
        else mret d
  end.

(** [abs(d)]: the sign is dropped and the result goes through [_fix]. *)
Definition dec_abs (d : decimal) : result decimal :=
  dec_fix (mkDec false (d_digits d) (d_exp d)).

Definition Qltb (x y : Q) : bool := negb (Qle_bool y x).

(** [max(l, key=key)]: the first element whose key is maximal. *)
Fixpoint max_from {A} (best : A * Q) (l : list (A * Q)) : A * Q :=
  match l with
  | [] => best
  | x :: l' => if Qltb (snd best) (snd x) then max_from x l' else max_from best l'
  end.

Definition py_max_by {A} (key : A -> result Q) (l : list A) : result A :=
  keyed ← mapM (fun x => k ← key x; mret (x, k)) l;
  match keyed with
  | [] => Raise ValueError
  | x :: l' => mret (fst (max_from x l'))
  end.

(** ** Numeric tokens and their context *)

(** [line[max(0, m.start() - 3): m.start()]]: subtraction on [nat] stops at 0. *)
Definition head3 (line : str) (m : rmatch) : str := slice line (m_start m - 3) (m_start m).
(** [line[m.end(): m.end() + 3]] *)
Definition tail3 (line : str) (m : rmatch) : str := slice line (m_end m) (m_end m + 3).

Definition pct : str := txt "%".
Definition kg : str := txt "kg".

(** The test that makes the scans [continue]: a percent sign or [kg] in the
    three characters before or after the token. *)
Definition excluded (line : str) (m : rmatch) : bool :=
  (contains pct (head3 line m) || contains pct (tail3 line m))
  || (contains kg (lower (head3 line m)) || contains kg (lower (tail3 line m))).

(** The matches of [NUM_RE] in [seg] that the scan keeps. *)
Definition tokens_in (seg : str) : list rmatch :=
  filter (fun m => excluded seg m = false) (finditer NUM_RE seg).

Definition _numbers_in_segment (seg : str) : list str := map m_text (tokens_in seg).

(** The first line that contains the label, with its index and the offset
    of the label in it:
    [for idx, line in enumerate(lines): if label_lower in line.lower()]
    followed by [low.find(label_lower)]; the membership test and [find] are
    the same substring search. *)
Fixpoint first_label_line (label_lower : str) (lines : list str) (idx : nat)
    : option (nat * str * nat) :=
  match lines with
  | [] => None
  | line :: lines' =>
      match find (lower line) label_lower 0 with
      | Some pos => Some (idx, line, pos)
      | None => first_label_line label_lower lines' (S idx)
      end
  end.

(** The lines [lines[k]] for [k = idx + j] with [k < len(lines)], resp.
    [k = idx - j] with [k >= 0], for [j] in [range(1, window + 1)]. *)
Definition line_if (guard : bool) (lines : list str) (k : Z) : result (option str) :=
  if guard then L ← py_index lines k; mret (Some L) else mret None.

Definition next_line (lines : list str) (idx j : nat) : result (option str) :=
  let k := (Z.of_nat idx + Z.of_nat j)%Z in
  line_if (k <? Z.of_nat (length lines))%Z lines k.

Definition prev_line (lines : list str) (idx j : nat) : result (option str) :=
  let k := (Z.of_nat idx - Z.of_nat j)%Z in
  line_if (0 <=? k)%Z lines k.

Definition to_decimal (s : str) : result decimal :=
  Decimal (filter (fun a => negb (chr_eqb a ",")) s).

Definition abs_key (s : str) : result Q :=
  d ← to_decimal s; a ← dec_abs d; mret (dec_value a).

Definition numbers_of (o : option str) : list str :=
  match o with
  | Some L => _numbers_in_segment L
  | None => []
  end.

(** The candidates of [_find_amount_near_label] around line [idx]: the
    numbers of the label's line, of the next lines, of the previous lines;
    the three scans of the source are the scan of [_numbers_in_segment]. *)
Definition near_candidates (lines : list str) (idx : nat) (line : str) (window : nat)
    : result (list str) :=
  nexts ← mapM (next_line lines idx) (seq 1 window);
  prevs ← mapM (prev_line lines idx) (seq 1 window);
  mret (_numbers_in_segment line
        ++ concat (map numbers_of nexts)
        ++ concat (map numbers_of prevs)).

Definition _find_amount_near_label (block_text label : str) (window : nat)
    : result (option str) :=
  let lines := splitlines block_text in
  match first_label_line (lower label) lines 0 with
  | None => mret None
  | Some (idx, line, _) =>
      candidates ← near_candidates lines idx line window;
      match candidates with
      | [] => mret None
      | _ => best ← py_max_by abs_key candidates; mret (Some best)
      end
  end.

Definition _line_starts_with_number (line : str) : option str :=
  match re_match (Seq ws0 (Group "1" NUM_RE)) line with
  | None => None
  | Some m =>
      if contains pct (tail3 line m) then None else group m "1"
  end.

(** [sorted(l, key=lambda p: p[0])]: a stable sort. *)
Fixpoint insert_by_key {A} (x : nat * A) (l : list (nat * A)) : list (nat * A) :=
  match l with
  | [] => [x]
  | y :: l' => if fst y <=? fst x then y :: insert_by_key x l' else x :: l
  end.

Definition sorted_by_key {A} (l : list (nat * A)) : list (nat * A) :=
  fold_left (fun acc x => insert_by_key x acc) l [].

(** The first line among [lines] (given in the order of the loop) that
    starts with a number. *)
Fixpoint first_starting_number (lines : list (option str)) : option str :=
  match lines with
  | [] => None
  | None :: lines' => first_starting_number lines'
  | Some L :: lines' =>
      if truthy (_line_starts_with_number L) then _line_starts_with_number L
      else first_starting_number lines'
  end.

(** The numbers of the label's line that start before the label and pass
    the exclusion test, with their offsets. *)
Definition same_line_before (line : str) (label_pos : nat) : list (nat * str) :=
  map (fun m => (m_start m, m_text m))
      (filter (fun m => (m_start m <? label_pos) && negb (excluded line m))
              (finditer NUM_RE line)).

Definition _find_amount_for_label (block_text label : str) (window : nat)
    : result (option str) :=
  let lines := splitlines block_text in
  match first_label_line (lower label) lines 0 with
  | None => mret None
  | Some (idx, line, label_pos) =>
      let candidates_same_line := same_line_before line label_pos in
      match candidates_same_line with
      | _ :: _ =>
          p ← py_index (sorted_by_key candidates_same_line) (-1);
          mret (Some (snd p))
      | [] =>
          prevs ← mapM (prev_line lines idx) (seq 1 window);
          match first_starting_number prevs with
          | Some tok => mret (Some tok)
          | None =>
              nexts ← mapM (next_line lines idx) (seq 1 window);
              mret (first_starting_number nexts)
          end
      end
  end.

(** [min(l) if l else None] *)
Definition min_or_none (l : list nat) : option nat :=
  match l with
  | [] => None
  | x :: l' => Some (fold_left Nat.min l' x)
  end.

Definition end_tokens : list str := [txt "signed"; txt "tendered date"; txt "subtotal inr"].

Definition _slice_charges_section (block_text : str) : str :=
  let lower_ := lower block_text in
  match find lower_ (txt "charges") 0 with
  | None => block_text
  | Some start_idx =>
      let end_candidates :=
        omap (fun token => find lower_ token (start_idx + 7)) end_tokens in
      match min_or_none end_candidates with
      | Some end_idx =>
          if start_idx <? end_idx then slice block_text start_idx end_idx
          else drop start_idx block_text
      | None => drop start_idx block_text
      end
  end.

Definition _amount_from_label_line (charges_text label : str) : result (option str) :=
  match first_label_line (lower label) (splitlines charges_text) 0 with
  | None => mret None
  | Some (_, line, pos) =>
      let before := take pos line in
      let after := drop (pos + length label) line in
      let nums_before := _numbers_in_segment before in
      match nums_before with
      | _ :: _ => x ← py_index nums_before (-1); mret (Some x)
      | [] =>
          let nums_after := _numbers_in_segment after in
          match nums_after with
          | _ :: _ => x ← py_index nums_after 0; mret (Some x)
          | [] => mret None
          end
      end
  end.

(** ** The resolver of [parse_blocks]

    The three stanzas of the source differ by the label and the two
    patterns only. *)

Inductive field : Type := Transportation | Discount | Fuel.

Definition label_of (f : field) : str :=
  match f with
  | Transportation => txt "Transportation Charge"
  | Discount => txt "Discount"
  | Fuel => txt "Fuel Surcharge"
  end.

Definition key_of (f : field) : string :=
  match f with
  | Transportation => "transportation_charge"
  | Discount => "discount"
  | Fuel => "fuel_surcharge"
  end.

Definition after_of (f : field) : regex :=
  match f with
  | Transportation => TRANSPORT_AFTER_RE
  | Discount => DISCOUNT_AFTER_RE
  | Fuel => FUEL_AFTER_RE
  end.

Definition before_of (f : field) : regex :=
  match f with
  | Transportation => TRANSPORT_BEFORE_RE
  | Discount => DISCOUNT_BEFORE_RE
  | Fuel => FUEL_BEFORE_RE
  end.

(** [X_AFTER_RE.search(text) or X_BEFORE_RE.search(text)] *)
Definition pattern_match (f : field) (charges_text : str) : option rmatch :=
  match re_search (after_of f) charges_text with
  | Some m => Some m
  | None => re_search (before_of f) charges_text
  end.

(** [if not val: m = ...; val = m.group(1) if m else _find_amount_for_label(...)] *)
Definition fall_back (f : field) (charges_text : str) (val : option str)
    : result (option str) :=
  if negb (truthy val) then
    match pattern_match f charges_text with
    | Some m => mret (group m "1")
    | None => _find_amount_for_label charges_text (label_of f) 3
    end
  else mret val.

(** The value of one field as the three steps leave it. *)
Definition resolve_field (f : field) (charges_text : str) : result (option str) :=
  val ← _amount_from_label_line charges_text (label_of f);
  fall_back f charges_text val.

(** ** Records *)

Inductive value : Type :=
| VNone
| VStr (s : str)
| VDict (d : gmap string str).

Abbreviation record := (gmap string value).

Definition of_group (x : option str) : value :=
  match x with
  | Some s => VStr s
  | None => VNone
  end.

(** [if val: charges[key] = val] *)
Definition set_if (key : string) (val : option str) (charges : gmap string str)
    : gmap string str :=
  match val with
  | Some (a :: s) => <[key := a :: s]> charges
  | _ => charges
  end.

(** [if key in charges: data[key] = charges[key]] *)
Definition expose (key : string) (charges : gmap string str) (data : record)
    : result record :=
  if bool_decide (is_Some (charges !! key)) then
    v ← py_getitem charges key; mret (<[key := VStr v]> data)
  else mret data.

(** The override of lines 283 to 287.  The value under [other_charges] is a
    group of the header match, a string or [None]: it is truthy when it is a
    string that is not empty.  [data['charges']], when present, is the
    dictionary put there before. *)
Definition enforce_fuel (data : record) : result record :=
  match data !! "other_charges" with
  | Some (VStr (a :: s)) =>
      oc ← py_getitem data "other_charges";
      let data := <["fuel_surcharge" := oc]> data in
      match data !! "charges" with
      | Some (VDict d) =>
          oc' ← py_getitem data "other_charges";
          match oc' with
          | VStr v => mret (<["charges" := VDict (<["fuel_surcharge" := v]> d)]> data)
          | _ => mret data
          end
      | _ => mret data
      end
  | _ => mret data
  end.

(** The dictionary literal of lines 234 to 244. *)
Definition header_data (m : rmatch) : result record :=
  service ← py_strip (group m "service");
  weight ← py_strip (group m "weight");
  mret (<["total" := of_group (group m "total")]>
       (<["other_charges" := of_group (group m "other_charges")]>
       (<["freight" := of_group (group m "freight")]>
       (<["reference" := of_group (group m "reference")]>
       (<["weight" := VStr weight]>
       (<["pieces" := of_group (group m "pieces")]>
       (<["service" := VStr service]>
       (<["ship_date" := of_group (group m "ship_date")]>
       (<["shipment" := of_group (group m "shipment")]> (∅ : record)))))))))).

(** Lines 245 to 248. *)
Definition add_dims (block_text : str) (data : record) : result record :=
  match re_search DIMS_RE block_text with
  | Some dims =>
      dv ← py_strip (group dims "dims");
      bw ← py_strip (group dims "billed_weight");
      mret (<["billed_weight" := VStr bw]> (<["dims" := VStr dv]> data))
  | None => mret data
  end.

(** Lines 250 to 272: the dictionary [charges]. *)
Definition charges_of (block_text : str) : result (gmap string str) :=
  let charges_text := _slice_charges_section block_text in
  tr_val ← _amount_from_label_line charges_text (label_of Transportation);
  ds_val ← _amount_from_label_line charges_text (label_of Discount);
  fu_val ← _amount_from_label_line charges_text (label_of Fuel);
  tr_val ← fall_back Transportation charges_text tr_val;
  ds_val ← fall_back Discount charges_text ds_val;
  fu_val ← fall_back Fuel charges_text fu_val;
  mret (set_if "fuel_surcharge" fu_val
         (set_if "discount" ds_val
           (set_if "transportation_charge" tr_val ∅))).

(** Lines 273 to 281. *)
Definition add_charges (charges : gmap string str) (data : record) : result record :=
  if bool_decide (charges = ∅) then mret data
  else
    let data := <["charges" := VDict charges]> data in
    data ← expose "transportation_charge" charges data;
    data ← expose "discount" charges data;
    expose "fuel_surcharge" charges data.

(** Lines 288 to 291. *)
Definition add_tender (block_text : str) (data : record) : record :=
  match re_search TENDER_SUBTOTAL_RE block_text with
  | Some tender =>
      <["subtotal_inr" := of_group (group tender "subtotal")]>
        (<["tendered_date" := of_group (group tender "tendered_date")]> data)
  | None => data
  end.

(** The body of the loop of [parse_blocks] for the header match [m] and its
    block. *)
Definition parse_block (m : rmatch) (block_text : str) : result record :=
  data ← header_data m;
  data ← add_dims block_text data;
  charges ← charges_of block_text;
  data ← add_charges charges data;
  data ← enforce_fuel data;
  mret (add_tender block_text data).

(** The loop of [parse_blocks] from the [i]-th match on. *)
Fixpoint blocks_from (pdf_text : str) (matches : list rmatch) (i : nat)
    (todo : list rmatch) : result (list record) :=
  match todo with
  | [] => mret []
  | m :: todo' =>
      let start := m_start m in
      end_ ← (if i + 1 <? length matches then
                nxt ← py_index matches (Z.of_nat (i + 1)); mret (m_start nxt)
              else mret (length pdf_text));
      data ← parse_block m (slice pdf_text start end_);
      rest ← blocks_from pdf_text matches (S i) todo';
      mret (data :: rest)
  end.

(** [list(parse_blocks(pdf_text))] *)
Definition parse_blocks (pdf_text : str) : result (list record) :=
  let matches := finditer HEADER_RE pdf_text in
  blocks_from pdf_text matches 0 matches.


(** What [if val: charges[key] = val] stores. *)
Definition stored (val : option str) : option str := if truthy val then val else None.

(** The value that reaches the record. *)
Definition resolved (f : field) (charges_text : str) : result (option str) :=
  val ← resolve_field f charges_text;
  mret (stored val).

(** [m.group(1)] of the pattern rules, when one of the two patterns matches. *)
Definition pattern_value (f : field) (charges_text : str) : option str :=
  match pattern_match f charges_text with
  | Some m => group m "1"
  | None => None
  end.

(** The first success of a chain of strategies. *)
Fixpoint first_some (l : list (option str)) : option str :=
  match l with
  | [] => None
  | Some v :: _ => Some v
  | None :: l' => first_some l'
  end.

(** The chain as the specification words it, with the windowed search for
    the largest absolute value as third step. *)
Definition resolve_as_specified (f : field) (charges_text : str) : result (option str) :=
  a ← _amount_from_label_line charges_text (label_of f);
  w ← _find_amount_near_label charges_text (label_of f) 3;
  mret (first_some [a; pattern_value f charges_text; w]).

(** ** Lookup by reference *)

(** [b.get('reference') == reference] *)
Definition has_reference (reference : str) (b : record) : bool :=
  match b !! "reference" with
  | Some (VStr s) => bool_decide (s = reference)
  | _ => false
  end.

(** What a lookup answers: the error object, one record, or a list. *)
Inductive answer : Type :=
| NotFound (reference : str)
| One (r : record)
| Many (l : list record).

(** [fedex_by_reference] of the HTTP service, on the text of the file. *)
Definition fedex_by_reference (reference text : str) : result answer :=
  blocks ← parse_blocks text;
  let match_ := filter (fun b => has_reference reference b = true) blocks in
  match match_ with
  | [] => mret (NotFound reference)
  | _ :: _ =>
      if length match_ =? 1 then x ← py_index match_ 0; mret (One x)
      else mret (Many match_)
  end.

(** The [--ref] branch of [main]: the value printed and the exit status. *)
Definition main_ref (reference text : str) : result (answer * nat) :=
  blocks ← parse_blocks text;
  let selection := filter (fun b => has_reference reference b = true) blocks in
  shown ← (if length selection =? 1 then x ← py_index selection 0; mret (One x)
           else mret (Many selection));
  mret (shown, 0).

(** ** Values of the finders

    The finders never raise (lemmas [amount_from_label_line_ok] and
    [find_amount_for_label_ok] below); these are the values they return. *)

Definition prev_of (lines : list str) (idx j : nat) : option str :=
  if j <=? idx then lines !! (idx - j) else None.

Definition next_of (lines : list str) (idx j : nat) : option str :=
  lines !! (idx + j).

(** The candidates of the windowed search around line [idx]. *)
Definition near_window (lines : list str) (idx : nat) (line : str) (window : nat)
    : list str :=
  _numbers_in_segment line
  ++ concat (map numbers_of (map (next_of lines idx) (seq 1 window)))
  ++ concat (map numbers_of (map (prev_of lines idx) (seq 1 window))).

Definition label_line_value (charges_text label : str) : option str :=
  match first_label_line (lower label) (splitlines charges_text) 0 with
  | None => None
  | Some (_, line, pos) =>
      match last (_numbers_in_segment (take pos line)) with
      | Some x => Some x
      | None => head (_numbers_in_segment (drop (pos + length label) line))
      end
  end.

Definition for_label_value (block_text label : str) (window : nat) : option str :=
  let lines := splitlines block_text in
  match first_label_line (lower label) lines 0 with
  | None => None
  | Some (idx, line, label_pos) =>
      match last (sorted_by_key (same_line_before line label_pos)) with
      | Some p => Some (snd p)
      | None =>
          match first_starting_number (map (prev_of lines idx) (seq 1 window)) with
          | Some tok => Some tok
          | None => first_starting_number (map (next_of lines idx) (seq 1 window))
          end
      end
  end.

(** The values of some keys of the records of a result. *)
Definition fields_of (keys : list string) (r : record) : list (option value) :=
  map (fun k => r !! k) keys.

Definition project (keys : list string) (x : result (list record))
    : result (list (list (option value))) :=
  match x with
  | Ok l => Ok (map (fields_of keys) l)
  | Raise e => Raise e
  end.

(** ** Sample texts *)

(** A header line alone: a block without charges table. *)
Definition header_only : str :=
  txt "1001 01/03/2024 Priority 2 5.50 kg REF123 17,853.00 210.00 18,063.00".

(** A block whose charges table prints the amounts under the label. *)
Definition column_invoice : str :=
  txt "1001 01/03/2024 Priority 2 5.50 kg REF123 17,853.00 210.00 18,063.00
Charges
Discount
50.00
-999.00
75.00
".


(** A block whose charges table prints another fuel surcharge than the
    header's other charges. *)
Definition sample_invoice : str :=
  txt "1001 01/03/2024 Priority 2 5.50 kg REF123 17,853.00 210.00 18,063.00
Dims: 30x20x10 cm Billed Weight: 6.00 kg
Charges
17,853.00 ... Transportation Charge
Discount ... -500.00
Fuel Surcharge ... 999.00
".

(** ** Declarative reading of the patterns

    [exec r b w c b' c']: pattern [r], started at a cursor whose
    beginning-of-line flag is [b] with groups [c], can consume exactly the
    word [w], leaving the flag [b'] and the groups [c']. *)

Inductive exec : regex -> bool -> str -> caps -> bool -> caps -> Prop :=
| exec_eps b c : exec Eps b [] c b c
| exec_bol c : exec Bol true [] c true c
| exec_chr p a b c : p a = true -> exec (Chr p) b [a] c (is_nl a) c
| exec_seq r1 r2 b w1 c b1 c1 w2 b2 c2 :
    exec r1 b w1 c b1 c1 -> exec r2 b1 w2 c1 b2 c2 ->
    exec (Seq r1 r2) b (w1 ++ w2) c b2 c2
| exec_alt_l r1 r2 b w c b' c' : exec r1 b w c b' c' -> exec (Alt r1 r2) b w c b' c'
| exec_alt_r r1 r2 b w c b' c' : exec r2 b w c b' c' -> exec (Alt r1 r2) b w c b' c'
| exec_star_nil g p b c : exec (Star g p) b [] c b c
| exec_star_cons g p a b w c b' c' :
    p a = true -> exec (Star g p) (is_nl a) w c b' c' ->
    exec (Star g p) b (a :: w) c b' c'
| exec_group n r b w c b' c' :
    exec r b w c b' c' -> exec (Group n r) b w c b' (<[n := w]> c').

(** Can the pattern match the empty word? *)
Fixpoint nullable (r : regex) : bool :=
  match r with
  | Eps | Bol | Star _ _ => true
  | Chr _ => false
  | Seq r1 r2 => nullable r1 && nullable r2
  | Alt r1 r2 => nullable r1 || nullable r2
  | Group _ r1 => nullable r1
  end.

Fixpoint groups_of (r : regex) : list string :=
  match r with
  | Eps | Bol | Chr _ | Star _ _ => []
  | Seq r1 r2 | Alt r1 r2 => groups_of r1 ++ groups_of r2
  | Group n r1 => n :: groups_of r1
  end.

Definition mentions (n : string) (r : regex) : bool :=
  existsb (String.eqb n) (groups_of r).

(** Does every match of the pattern leave group [n] set to a word that is
    not empty? *)
Fixpoint sets (n : string) (r : regex) : bool :=
  match r with
  | Eps | Bol | Chr _ | Star _ _ => false
  | Seq r1 r2 => (sets n r1 && negb (mentions n r2)) || sets n r2
  | Alt r1 r2 => sets n r1 && sets n r2
  | Group n' r1 =>
      if String.eqb n n' then negb (nullable r1) else sets n r1
  end.

(** [m] is a match of [r] in [s], whose first character has offset [base]. *)
Definition match_of (r : regex) (base : nat) (s : str) (m : rmatch) : Prop :=
  base <= m_start m
  /\ m_end m = m_start m + length (m_text m)
  /\ m_end m - base <= length s
  /\ m_text m = slice s (m_start m - base) (m_end m - base)
  /\ exists b b', exec r b (m_text m) ∅ b' (m_groups m).

(** ** Context of a token in a segment *)

(** A percent sign or [kg] in the three characters before or after the
    [n] characters at offset [i] of [seg]. *)
Definition dirty_at (seg : str) (i n : nat) : bool :=
  (contains pct (slice seg (i - 3) i) || contains pct (slice seg (i + n) (i + n + 3)))
  || (contains kg (lower (slice seg (i - 3) i))
      || contains kg (lower (slice seg (i + n) (i + n + 3)))).


(** [tok] stands at offset [i] of [seg], with no percent sign and no [kg]
    around it. *)
Definition clean_at (seg : str) (i : nat) (tok : str) : Prop :=
  slice seg i (i + length tok) = tok /\ dirty_at seg i (length tok) = false.

(** [tok] has, in some line of [text], an occurrence with no percent sign and
    no [kg] around it. *)
Definition clean_occurrence (text tok : str) : Prop :=
  exists line i, line ∈ splitlines text /\ clean_at line i tok.








(** [sub] occurs in [s] at offset [i]. *)
Definition occurs_at (sub s : str) (i : nat) : bool :=
  (i <=? length s) && starts_with sub (drop i s).

(** [i] is the first offset from [start] on at which [sub] occurs in [s]. *)
Definition first_occurrence (sub s : str) (start i : nat) : Prop :=
  start <= i /\ occurs_at sub s i = true
  /\ forall j, start <= j -> j < i -> occurs_at sub s j = false.

(** One of the end markers occurs at offset [i] of the lowered block. *)
Definition marker_at (low : str) (i : nat) : bool :=
  existsb (fun tok => occurs_at tok low i) end_tokens.

(** ** The blocks of a document *)

(** [matches[i + 1].start() if i + 1 < len(matches) else len(pdf_text)] *)
Definition block_end (pdf_text : str) (matches : list rmatch) (i : nat) : nat :=
  match matches !! (i + 1) with
  | Some nxt => m_start nxt
  | None => length pdf_text
  end.

(** The texts [pdf_text[start:end]] of the loop of [parse_blocks], from the
    [i]-th match on. *)
Fixpoint block_texts_from (pdf_text : str) (matches : list rmatch) (i : nat)
    (todo : list rmatch) : list str :=
  match todo with
  | [] => []
  | m :: todo' =>
      slice pdf_text (m_start m) (block_end pdf_text matches i)
      :: block_texts_from pdf_text matches (S i) todo'
  end.

Definition block_texts (pdf_text : str) : list str :=
  block_texts_from pdf_text (finditer HEADER_RE pdf_text) 0 (finditer HEADER_RE pdf_text).

(** ** Shapes of the header fields *)

(** The pattern whose match a group holds at the end of a match of [r]; for
    the patterns of the program no group stands under an alternative. *)
Fixpoint sub_of (n : string) (r : regex) : option regex :=
  match r with
  | Eps | Bol | Chr _ | Star _ _ | Alt _ _ => None
  | Seq r1 r2 =>
      match sub_of n r2 with
      | Some g => Some g
      | None => if mentions n r2 then None else sub_of n r1
      end
  | Group n' g => if String.eqb n n' then Some g else sub_of n g
  end.

Definition digits_shape (v : str) : Prop := v <> [] /\ forallb is_digit v = true.

Definition date_shape (v : str) : Prop :=
  exists d1 d2 m1 m2 y1 y2 y3 y4,
    v = [d1; d2; "/"%char; m1; m2; "/"%char; y1; y2; y3; y4]
    /\ forallb is_digit [d1; d2; m1; m2; y1; y2; y3; y4] = true.

Definition amount_shape (v : str) : Prop :=
  exists body frac,
    v = body ++ "."%char :: frac
    /\ body <> [] /\ forallb digit_or_comma body = true
    /\ frac <> [] /\ forallb is_digit frac = true.

Definition weight_shape (v : str) : Prop :=
  exists d num blanks,
    v = d :: num ++ blanks ++ txt "kg"
    /\ is_digit d = true /\ forallb digit_or_dot num = true
    /\ forallb is_space blanks = true.

(** No blank at either end. *)
Definition trimmed (v : str) : Prop :=
  (forall a, head v = Some a -> is_space a = false)
  /\ (forall a, last v = Some a -> is_space a = false).

(** The keys of the dictionary literal of [parse_blocks], and all the keys a
    record can have. *)
Definition header_keys : list string :=
  ["shipment"; "ship_date"; "service"; "pieces"; "weight"; "reference";
   "freight"; "other_charges"; "total"].

Definition record_keys : list string :=
  header_keys ++ ["dims"; "billed_weight"; "charges"; "transportation_charge";
                  "discount"; "fuel_surcharge"; "tendered_date"; "subtotal_inr"].

Ltac not_header_key :=
  unfold header_keys; repeat (apply not_elem_of_cons; split; [done|]);
  apply not_elem_of_nil.

Ltac field_shape Hfield g lem :=
  lazymatch goal with
  | |- exists _, _ !! ?k = _ /\ _ =>
      destruct (Hfield k g) as (? & ? & ? & ? & ? & ? & ?);
      [unfold header_keys; repeat constructor | done | reflexivity
      | eexists; split; [eassumption | eapply lem; eassumption]]
  end.

(** The header line of [header_only] with the unit in capitals. *)
Definition capital_unit_header : str :=
  txt "1001 01/03/2024 Priority 2 5.50 KG REF123 17,853.00 210.00 18,063.00".

(** The first word of the label of a field, in lower case. *)
Definition word_of (f : field) : str :=
  match f with
  | Transportation => txt "transportation"
  | Discount => txt "discount"
  | Fuel => txt "fuel"
  end.

(** ** The list of references

    [sorted({b.get('reference') for b in blocks if b.get('reference')})], of
    [list_fedex_references] in [app.py] and of the [--list] option of
    [main]. *)

(** Strings compare by code point, character by character. *)
Fixpoint str_ltb (s t : str) : bool :=
  match s, t with
  | _, [] => false
  | [], _ :: _ => true
  | a :: s', b :: t' => (code a <? code b) || ((code a =? code b) && str_ltb s' t')
  end.

Definition str_lt (s t : str) : Prop := str_ltb s t = true.
Definition str_le (s t : str) : Prop := str_ltb t s = false.

#[global] Instance str_le_dec : RelDecision str_le :=
  fun s t => decide (str_ltb t s = false).

(** What the comprehension does with the value under [reference]:
    [Some None] when it is falsy and skipped, [Some (Some s)] for a string
    that enters the set, [None] for a mapping that is not empty, which
    cannot be hashed ([TypeError]). *)
Definition reference_entry (b : record) : option (option str) :=
  match b !! "reference" with
  | Some (VStr (a :: s)) => Some (Some (a :: s))
  | Some (VDict d) => if bool_decide (d = ∅) then Some None else None
  | _ => Some None
  end.

(** The set, then its elements in increasing order. *)
Definition sorted_references (blocks : list record) : option (list str) :=
  entries ← mapM reference_entry blocks;
  let refs : gset str := list_to_set (omap id entries) in
  mret (merge_sort str_le (elements refs)).

(** [list_fedex_references], on the text of the file: the value under
    [references], or [None] for the [TypeError]. *)
Definition list_fedex_references (text : str) : result (option (list str)) :=
  blocks ← parse_blocks text;
  mret (sorted_references blocks).

(** ['\n'.join(refs)] *)
Fixpoint join_lines (l : list str) : str :=
  match l with
  | [] => []
  | [x] => x
  | x :: l' => x ++ nl :: join_lines l'
  end.

(** ** The command line *)




(** ** The finder of the first number after a label *)

(** The loop [for j in range(1, 4)] of [_find_amount_after_label], for the
    values [js] of [j] still to come. *)
Fixpoint after_label_scan (lines : list str) (idx : nat) (js : list nat)
    : result (option str) :=
  match js with
  | [] => mret None
  | j :: js' =>
      let k := idx + j in
      if length lines <=? k then mret None
      else
        L ← py_index lines (Z.of_nat k);
        match re_search NUM_RE L with
        | Some m2 => mret (Some (m_text m2))
        | None => after_label_scan lines idx js'
        end
  end.

Definition _find_amount_after_label (block_text label : str) : result (option str) :=
  let lines := splitlines block_text in
  match first_label_line (lower label) lines 0 with
  | None => mret None
  | Some (idx, line, _) =>
      match re_search NUM_RE line with
      | Some m => mret (Some (m_text m))
      | None => after_label_scan lines idx [1; 2; 3]
      end
  end.

(** Offset [pos] of [text] is the beginning of a line for [^] under [re.M]:
    the start of the text or the place after a newline character. *)
Definition at_line_start (text : str) (pos : nat) : Prop :=
  pos = 0 \/ text !! (pos - 1) = Some nl.

(** The characters of an amount: digits, comma, point and minus sign. *)
Definition numeric_chr (a : ascii) : bool :=
  is_digit a || chr_eqb a "," || chr_eqb a "." || chr_eqb a "-".

Definition numeric_text (v : str) : Prop :=
  v <> [] /\ forallb numeric_chr v = true.

(** ** Text beyond U+00FF

    [str.lower()] keeps the number of characters of a text whose characters
    are below U+0100.  One character of Unicode breaks this: the lower case
    of U+0130, LATIN CAPITAL LETTER I WITH DOT ABOVE, is the two characters
    [i] and U+0307, COMBINING DOT ABOVE.  [_amount_from_label_line] and
    [_slice_charges_section] search the lowered text and cut the original
    text at the offsets they find; they are given here again over an
    alphabet that adds these two characters, which are no digit, no white
    space and no line break. *)

Module Wide.

Inductive uchar : Type :=
| Latin (a : ascii)
| CapitalIDot      (* U+0130 *)
| CombiningDot.    (* U+0307 *)

Abbreviation ustr := (list uchar).

Definition utxt (s : string) : ustr := map Latin (txt s).

Definition uchr_eqb (a b : uchar) : bool :=
  match a, b with
  | Latin x, Latin y => chr_eqb x y
  | CapitalIDot, CapitalIDot => true
  | CombiningDot, CombiningDot => true
  | _, _ => false
  end.

(** A class of characters below U+0100, as a class of this alphabet. *)
Definition latin (p : ascii -> bool) (c : uchar) : bool :=
  match c with
  | Latin a => p a
  | _ => false
  end.

(** The lower case of one character. *)
Definition lower_of (c : uchar) : ustr :=
  match c with
  | Latin a => [Latin (lower_chr a)]
  | CapitalIDot => [Latin "i"; CombiningDot]
  | CombiningDot => [CombiningDot]
  end.

(** [str.lower()] *)
Definition lower (s : ustr) : ustr := concat (map lower_of s).

(** [s[i:j]] *)
Definition slice (s : ustr) (i j : nat) : ustr := take (j - i) (drop i s).

Fixpoint starts_with (sub s : ustr) : bool :=
  match sub, s with
  | [], _ => true
  | a :: sub', b :: s' => uchr_eqb a b && starts_with sub' s'
  | _ :: _, [] => false
  end.

Fixpoint find_at (sub s : ustr) (pos : nat) : option nat :=
  if starts_with sub s then Some pos
  else match s with
       | [] => None
       | _ :: s' => find_at sub s' (S pos)
       end.

(** [s.find(sub, start)] *)
Definition find (s sub : ustr) (start : nat) : option nat :=
  if start <=? length s then find_at sub (drop start s) start else None.

(** [sub in s] *)
Definition contains (sub s : ustr) : bool :=
  match find s sub 0 with Some _ => true | None => false end.

(** [str.splitlines()] *)
Fixpoint splitlines_aux (cur : ustr) (s : ustr) : list ustr :=
  match s with
  | [] => match cur with [] => [] | _ => [rev cur] end
  | a :: s' =>
      if latin (fun x => code x =? 13) a then
        match s' with
        | b :: s'' => if latin is_nl b then rev cur :: splitlines_aux [] s''
                      else rev cur :: splitlines_aux [] s'
        | [] => rev cur :: splitlines_aux [] s'
        end
      else if latin is_linebreak a then rev cur :: splitlines_aux [] s'
      else splitlines_aux (a :: cur) s'
  end.

Definition splitlines (s : ustr) : list ustr := splitlines_aux [] s.

(** The part of the pattern language that [NUM_RE] uses: literals, classes,
    sequence, the optional group and greedy repetition of a class. *)
Inductive regex : Type :=
| Eps
| Chr (p : uchar -> bool)
| Seq (r1 r2 : regex)
| Alt (r1 r2 : regex)
| Star (p : uchar -> bool).

Section Matcher.
Context {R : Type}.

Fixpoint star_loop (p : uchar -> bool) (k : ustr -> option R) (s : ustr) : option R :=
  match s with
  | a :: s' =>
      if p a then
        match star_loop p k s' with
        | Some x => Some x
        | None => k s
        end
      else k s
  | [] => k s
  end.

Fixpoint run (r : regex) (s : ustr) (k : ustr -> option R) : option R :=
  match r with
  | Eps => k s
  | Chr p =>
      match s with
      | a :: s' => if p a then k s' else None
      | [] => None
      end
  | Seq r1 r2 => run r1 s (fun s' => run r2 s' k)
  | Alt r1 r2 =>
      match run r1 s k with
      | Some x => Some x
      | None => run r2 s k
      end
  | Star p => star_loop p k s
  end.
End Matcher.

Record rmatch : Type := mkMatch {
  m_start : nat;
  m_end : nat;
  m_text : ustr
}.

Definition match_here (r : regex) (pos : nat) (s : ustr) : option rmatch :=
  run r s
    (fun s' =>
       let n := length s - length s' in
       Some (mkMatch pos (pos + n) (take n s))).

(** [re.finditer] *)
Fixpoint finditer_from (r : regex) (pos skip : nat) (s : ustr) : list rmatch :=
  match skip with
  | S skip' =>
      match s with
      | _ :: s' => finditer_from r (S pos) skip' s'
      | [] => []
      end
  | 0 =>
      match match_here r pos s with
      | Some m =>
          m :: match s with
               | _ :: s' => finditer_from r (S pos) (m_end m - m_start m - 1) s'
               | [] => []
               end
      | None =>
          match s with
          | _ :: s' => finditer_from r (S pos) 0 s'
          | [] => []
          end
      end
  end.

Definition finditer (r : regex) (s : ustr) : list rmatch := finditer_from r 0 0 s.

Definition lit (a : ascii) : regex := Chr (latin (chr_eqb a)).
Definition Plus (p : uchar -> bool) : regex := Seq (Chr p) (Star p).
Definition Opt (r : regex) : regex := Alt r Eps.

(** [NUM_RE = -?[\d,]+\.\d+] *)
Definition NUM_RE : regex :=
  Seq (Opt (lit "-"))
      (Seq (Plus (latin digit_or_comma)) (Seq (lit ".") (Plus (latin is_digit)))).

Definition head3 (line : ustr) (m : rmatch) : ustr := slice line (m_start m - 3) (m_start m).
Definition tail3 (line : ustr) (m : rmatch) : ustr := slice line (m_end m) (m_end m + 3).

Definition pct : ustr := utxt "%".
Definition kg : ustr := utxt "kg".

Definition excluded (line : ustr) (m : rmatch) : bool :=
  (contains pct (head3 line m) || contains pct (tail3 line m))
  || (contains kg (lower (head3 line m)) || contains kg (lower (tail3 line m))).

Definition _numbers_in_segment (seg : ustr) : list ustr :=
  map m_text (filter (fun m => excluded seg m = false) (finditer NUM_RE seg)).

Fixpoint first_label_line (label_lower : ustr) (lines : list ustr) (idx : nat)
    : option (nat * ustr * nat) :=
  match lines with
  | [] => None
  | line :: lines' =>
      match find (lower line) label_lower 0 with
      | Some pos => Some (idx, line, pos)
      | None => first_label_line label_lower lines' (S idx)
      end
  end.

(** [pos] is an offset of [low = line.lower()]; [before] and [after] are
    cut from [line]. *)
Definition _amount_from_label_line (charges_text label : ustr) : result (option ustr) :=
  match first_label_line (lower label) (splitlines charges_text) 0 with
  | None => mret None
  | Some (_, line, pos) =>
      let before := take pos line in
      let after := drop (pos + length label) line in
      let nums_before := _numbers_in_segment before in
      match nums_before with
      | _ :: _ => x ← py_index nums_before (-1); mret (Some x)
      | [] =>
          let nums_after := _numbers_in_segment after in
          match nums_after with
          | _ :: _ => x ← py_index nums_after 0; mret (Some x)
          | [] => mret None
          end
      end
  end.

Definition end_tokens : list ustr :=
  [utxt "signed"; utxt "tendered date"; utxt "subtotal inr"].

(** [start_idx] and [end_idx] are offsets of [lower = block_text.lower()];
    the result is cut from [block_text]. *)
Definition _slice_charges_section (block_text : ustr) : ustr :=
  let lower_ := lower block_text in
  match find lower_ (utxt "charges") 0 with
  | None => block_text
  | Some start_idx =>
      let end_candidates :=
        omap (fun token => find lower_ token (start_idx + 7)) end_tokens in
      match min_or_none end_candidates with
      | Some end_idx =>
          if start_idx <? end_idx then slice block_text start_idx end_idx
          else drop start_idx block_text
      | None => drop start_idx block_text
      end
  end.

(** Lines and a block that name the city of İzmir. *)
Definition izmir_discount : ustr :=
  [CapitalIDot] ++ utxt "ZM" ++ [CapitalIDot] ++ utxt "R Discount 12.00".

Definition izmir_percent : ustr :=
  [CapitalIDot] ++ utxt "ZM" ++ [CapitalIDot] ++ utxt "R Discount %12.00".

Definition izmir_block : ustr :=
  [CapitalIDot] ++ utxt "ZM" ++ [CapitalIDot] ++ utxt "R
Charges
Transportation Charge 100.00
Signed: X".

End Wide.

(** * Properties *)

(** ** The matcher is sound for the declarative reading *)

Lemma star_loop_sound {R} g p (k : bool -> str -> caps -> option R) s :
  forall b c x,
    star_loop g p k b s c = Some x ->
    exists w s' b', s = w ++ s' /\ exec (Star g p) b w c b' c /\ k b' s' c = Some x.
Proof.
  induction s as [|a s IH]; intros b c x H; simpl in H.
  - exists [], [], b. repeat split; [constructor | done].
  - destruct (p a) eqn:Hp.
    + assert (Hrec : forall y, star_loop g p k (is_nl a) s c = Some y ->
                exists w s' b', a :: s = w ++ s' /\ exec (Star g p) b w c b' c
                                /\ k b' s' c = Some y).
      { intros y Hy. destruct (IH _ _ _ Hy) as (w & s' & b' & -> & He & Hk).
        exists (a :: w), s', b'. repeat split; [by constructor | done]. }
      assert (Hstop : forall y, k b (a :: s) c = Some y ->
                exists w s' b', a :: s = w ++ s' /\ exec (Star g p) b w c b' c
                                /\ k b' s' c = Some y).
      { intros y Hy. exists [], (a :: s), b. repeat split; [constructor | done]. }
      destruct g.
      * destruct (star_loop true p k (is_nl a) s c) eqn:E.
        -- inversion H; subst. by apply Hrec.
        -- by apply Hstop.
      * destruct (k b (a :: s) c) eqn:E.
        -- inversion H; subst. by apply Hstop.
        -- by apply Hrec.
    + exists [], (a :: s), b. repeat split; [constructor | done].
Qed.

Lemma run_sound {R} r :
  forall b s c (k : bool -> str -> caps -> option R) x,
    run r b s c k = Some x ->
    exists w s' b' c', s = w ++ s' /\ exec r b w c b' c' /\ k b' s' c' = Some x.
Proof.
  induction r as [| |p|r1 IH1 r2 IH2|r1 IH1 r2 IH2|g p|n r IH];
    intros b s c k x H; simpl in H.
  - exists [], s, b, c. repeat split; [constructor | done].
  - destruct b; [|done]. exists [], s, true, c. repeat split; [constructor | done].
  - destruct s as [|a s]; [done|]. destruct (p a) eqn:Hp; [|done].
    exists [a], s, (is_nl a), c. repeat split; [by constructor | done].
  - apply IH1 in H as (w1 & s1 & b1 & c1 & -> & He1 & H).
    apply IH2 in H as (w2 & s2 & b2 & c2 & -> & He2 & H).
    exists (w1 ++ w2), s2, b2, c2. rewrite <- app_assoc.
    repeat split; [by econstructor | done].
  - destruct (run r1 b s c k) eqn:E.
    + inversion H; subst. apply IH1 in E as (w & s' & b' & c' & -> & He & Hk).
      exists w, s', b', c'. repeat split; [by apply exec_alt_l | done].
    + apply IH2 in H as (w & s' & b' & c' & -> & He & Hk).
      exists w, s', b', c'. repeat split; [by apply exec_alt_r | done].
  - apply star_loop_sound in H as (w & s' & b' & -> & He & Hk).
    by exists w, s', b', c.
  - apply IH in H as (w & s' & b' & c' & -> & He & Hk).
    rewrite length_app in Hk.
    replace (length w + length s' - length s') with (length w) in Hk by lia.
    rewrite take_app_length in Hk.
    exists w, s', b', (<[n := w]> c'). repeat split; [by constructor | done].
Qed.

Lemma exec_star_inv g p b w c b' c' :
  exec (Star g p) b w c b' c' -> forallb p w = true /\ c' = c.
Proof.
  remember (Star g p) as r eqn:Hr. induction 1; inversion Hr; subst; simpl.
  - done.
  - destruct (IHexec eq_refl) as [-> ->]. by rewrite H.
Qed.

Lemma exec_seq_inv r1 r2 b w c b' c' :
  exec (Seq r1 r2) b w c b' c' ->
  exists w1 w2 b1 c1, w = w1 ++ w2 /\ exec r1 b w1 c b1 c1 /\ exec r2 b1 w2 c1 b' c'.
Proof. inversion 1; subst. by eexists _, _, _, _. Qed.

Lemma exec_group_inv n r b w c b' c' :
  exec (Group n r) b w c b' c' -> exists c1, c' = <[n := w]> c1 /\ exec r b w c b' c1.
Proof. inversion 1; subst. by eexists. Qed.

Lemma exec_chr_inv p b w c b' c' :
  exec (Chr p) b w c b' c' -> exists a, w = [a] /\ p a = true /\ c' = c.
Proof. inversion 1; subst. by eexists. Qed.

Lemma exec_alt_inv r1 r2 b w c b' c' :
  exec (Alt r1 r2) b w c b' c' -> exec r1 b w c b' c' \/ exec r2 b w c b' c'.
Proof. inversion 1; subst; auto. Qed.

Lemma exec_eps_inv b w c b' c' : exec Eps b w c b' c' -> w = [] /\ c' = c.
Proof. by inversion 1. Qed.

Lemma exec_nonempty r b w c b' c' :
  exec r b w c b' c' -> nullable r = false -> w <> [].
Proof.
  induction 1; simpl; intros Hn; try done.
  - apply andb_false_iff in Hn as [Hn|Hn].
    + specialize (IHexec1 Hn). by destruct w1.
    + specialize (IHexec2 Hn). destruct w2; [done|]. by destruct w1.
  - apply orb_false_iff in Hn as [Hn _]. auto.
  - apply orb_false_iff in Hn as [_ Hn]. auto.
  - auto.
Qed.

Lemma mentions_app n r1 r2 :
  existsb (String.eqb n) (groups_of r1 ++ groups_of r2)
  = mentions n r1 || mentions n r2.
Proof. unfold mentions. by rewrite existsb_app. Qed.

(** A match leaves the groups it does not mention as they were. *)
Lemma exec_frame r b w c b' c' n :
  exec r b w c b' c' -> mentions n r = false -> c' !! n = c !! n.
Proof.
  induction 1; unfold mentions; simpl; intros Hn; try done.
  - rewrite mentions_app in Hn. apply orb_false_iff in Hn as [H1 H2].
    rewrite IHexec2, IHexec1; done.
  - rewrite mentions_app in Hn. apply orb_false_iff in Hn as [H1 H2]. auto.
  - rewrite mentions_app in Hn. apply orb_false_iff in Hn as [H1 H2]. auto.
  - auto.
  - apply orb_false_iff in Hn as [H1 H2].
    rewrite lookup_insert_ne; [by apply IHexec|].
    intros ->. by rewrite String.eqb_refl in H1.
Qed.

(** A group that [sets] finds is set, to a word that is not empty. *)
Lemma exec_sets r b w c b' c' n :
  exec r b w c b' c' -> sets n r = true ->
  exists v, c' !! n = Some v /\ v <> [].
Proof.
  induction 1; simpl; try done.
  - intros Hs. apply orb_true_iff in Hs as [Hs|Hs].
    + apply andb_true_iff in Hs as [Hs Hm]. apply negb_true_iff in Hm.
      destruct (IHexec1 Hs) as (v & Hv & Hne). exists v. split; [|done].
      by rewrite (exec_frame _ _ _ _ _ _ _ H0 Hm).
    + auto.
  - intros Hs. apply andb_true_iff in Hs as [Hs _]. auto.
  - intros Hs. apply andb_true_iff in Hs as [_ Hs]. auto.
  - destruct (String.eqb n n0) eqn:E; intros Hs.
    + apply String.eqb_eq in E as ->. exists w. rewrite lookup_insert_eq.
      split; [done|]. apply negb_true_iff in Hs. by eapply exec_nonempty.
    + apply String.eqb_neq in E. destruct (IHexec Hs) as (v & Hv & Hne).
      exists v. by rewrite lookup_insert_ne.
Qed.

(** ** Matches and their positions *)

Lemma slice_app_exact (pre w post : str) :
  slice (pre ++ w ++ post) (length pre) (length pre + length w) = w.
Proof.
  unfold slice. rewrite drop_app_length.
  replace (length pre + length w - length pre) with (length w) by lia.
  by rewrite take_app_length.
Qed.

Lemma match_here_sound r b pos s m :
  match_here r b pos s = Some m ->
  exists w s' b', s = w ++ s' /\ exec r b w ∅ b' (m_groups m)
    /\ m_start m = pos /\ m_end m = pos + length w /\ m_text m = w.
Proof.
  unfold match_here. intros H.
  apply run_sound in H as (w & s' & b' & c' & -> & He & Hk).
  rewrite length_app in Hk.
  replace (length w + length s' - length s') with (length w) in Hk by lia.
  rewrite take_app_length in Hk. inversion Hk; subst; simpl.
  by exists w, s', b'.
Qed.

Lemma match_here_match_of r b pos s m :
  match_here r b pos s = Some m -> match_of r pos s m /\ m_start m = pos.
Proof.
  intros H. apply match_here_sound in H as (w & s' & b' & -> & He & Hs & Hend & Ht).
  split; [|done]. unfold match_of. rewrite Hs, Hend, Ht.
  repeat split; try lia.
  - rewrite length_app. lia.
  - replace (pos - pos) with 0 by lia.
    replace (pos + length w - pos) with (length w) by lia.
    unfold slice. rewrite drop_0, Nat.sub_0_r. by rewrite take_app_length.
  - by exists b, b'.
Qed.

Lemma match_of_shift r pos a s m :
  match_of r (S pos) s m -> match_of r pos (a :: s) m.
Proof.
  unfold match_of. intros (H1 & H2 & H3 & H4 & H5).
  repeat split; try lia; [simpl; lia | | done].
  rewrite H4. unfold slice.
  replace (m_start m - pos) with (S (m_start m - S pos)) by lia.
  simpl. f_equal. lia.
Qed.

Lemma search_from_sound r s :
  forall b pos m, search_from r b pos s = Some m -> match_of r pos s m.
Proof.
  induction s as [|a s IH]; intros b pos m H; simpl in H.
  - destruct (match_here r b pos []) eqn:E; [|done].
    inversion H; subst. by apply match_here_match_of in E as [? _].
  - destruct (match_here r b pos (a :: s)) eqn:E.
    + inversion H; subst. by apply match_here_match_of in E as [? _].
    + apply match_of_shift. by eapply IH.
Qed.

Lemma re_search_sound r s m : re_search r s = Some m -> match_of r 0 s m.
Proof. apply search_from_sound. Qed.

(** The matches of [finditer] are matches, at increasing offsets. *)
Lemma finditer_from_sound r s :
  forall b pos skip,
    Forall (fun m => match_of r pos s m /\ pos + skip <= m_start m)
           (finditer_from r b pos skip s)
    /\ StronglySorted (fun m1 m2 => m_start m1 < m_start m2)
           (finditer_from r b pos skip s).
Proof.
  induction s as [|a s IH]; intros b pos skip.
  - destruct skip; simpl; [|by split; constructor].
    destruct (match_here r b pos []) eqn:E; [|by split; constructor].
    apply match_here_match_of in E as [E Hs].
    split.
    + constructor; [split; [done | lia] | constructor].
    + constructor; constructor.
  - assert (Hshift : forall b0 k,
      Forall (fun m => match_of r pos (a :: s) m /\ pos + S k <= m_start m)
             (finditer_from r b0 (S pos) k s)).
    { intros b0 k. destruct (IH b0 (S pos) k) as [HF _].
      eapply Forall_impl; [exact HF|]. simpl. intros m [Hm Hle].
      split; [by apply match_of_shift | lia]. }
    destruct skip; simpl.
    + destruct (match_here r b pos (a :: s)) eqn:E.
      * apply match_here_match_of in E as [E Hs]. split.
        -- constructor; [split; [done | lia]|].
           eapply Forall_impl; [apply Hshift|]. simpl. intros m [? ?]. split; [done | lia].
        -- constructor; [apply IH|].
           eapply Forall_impl; [apply Hshift|]. simpl. intros m [? ?]. lia.
      * split; [|apply IH].
        eapply Forall_impl; [apply Hshift|]. simpl. intros m [? ?]. split; [done | lia].
    + split; [|apply IH].
      eapply Forall_impl; [apply Hshift|]. simpl. intros m [? ?]. split; [done | lia].
Qed.

Lemma finditer_sound r s :
  Forall (match_of r 0 s) (finditer r s)
  /\ StronglySorted (fun m1 m2 => m_start m1 < m_start m2) (finditer r s).
Proof.
  destruct (finditer_from_sound r s true 0 0) as [HF HS]. split; [|done].
  eapply Forall_impl; [exact HF|]. by intros m [? _].
Qed.

(** ** The error monad and the guarded subscripts *)

Lemma bind_ok_inv {A B} (x : result A) (f : A -> result B) b :
  x ≫= f = Ok b -> exists a, x = Ok a /\ f a = Ok b.
Proof. destruct x as [a|e]; simpl; [by exists a | done]. Qed.

Lemma py_index_nat {A} (l : list A) i x :
  l !! i = Some x -> py_index l (Z.of_nat i) = Ok x.
Proof.
  intros H. unfold py_index.
  destruct (Z.ltb_spec (Z.of_nat i) 0); [lia|].
  destruct (Z.ltb_spec (Z.of_nat i) 0); [lia|].
  by rewrite Nat2Z.id, H.
Qed.

Lemma py_index_last {A} (l : list A) x :
  last l = Some x -> py_index l (-1) = Ok x.
Proof.
  intros H. unfold py_index. simpl.
  assert (0 < length l) by (destruct l; [done | simpl; lia]).
  destruct (Z.ltb_spec (Z.of_nat (length l) + -1) 0); [lia|].
  rewrite last_lookup in H.
  replace (Z.to_nat (Z.of_nat (length l) + -1)) with (pred (length l)) by lia.
  by rewrite H.
Qed.

Lemma mapM_ok {A B} (f : A -> result B) (g : A -> B) (l : list A) :
  (forall x, f x = Ok (g x)) -> mapM f l = Ok (map g l).
Proof.
  intros Hf. induction l as [|x l IH]; simpl; [done|].
  by rewrite Hf, IH.
Qed.

Lemma next_line_ok lines idx j : next_line lines idx j = Ok (next_of lines idx j).
Proof.
  unfold next_line, next_of, line_if.
  destruct (Z.ltb_spec (Z.of_nat idx + Z.of_nat j) (Z.of_nat (length lines))).
  - destruct (lookup_lt_is_Some_2 lines (idx + j)) as [L HL]; [lia|].
    rewrite <- Nat2Z.inj_add. rewrite (py_index_nat _ _ _ HL). by rewrite HL.
  - rewrite lookup_ge_None_2; [done | lia].
Qed.

Lemma prev_line_ok lines idx j :
  idx < length lines -> prev_line lines idx j = Ok (prev_of lines idx j).
Proof.
  intros Hidx. unfold prev_line, prev_of, line_if.
  destruct (j <=? idx) eqn:Hj.
  - apply Nat.leb_le in Hj.
    destruct (Z.leb_spec 0 (Z.of_nat idx - Z.of_nat j)); [|lia].
    replace (Z.of_nat idx - Z.of_nat j)%Z with (Z.of_nat (idx - j)) by lia.
    destruct (lookup_lt_is_Some_2 lines (idx - j)) as [L HL]; [lia|].
    rewrite (py_index_nat _ _ _ HL). by rewrite HL.
  - apply Nat.leb_gt in Hj.
    destruct (Z.leb_spec 0 (Z.of_nat idx - Z.of_nat j)); [lia | done].
Qed.

Lemma first_label_line_sound label_lower lines :
  forall base idx line pos,
    first_label_line label_lower lines base = Some (idx, line, pos) ->
    base <= idx /\ lines !! (idx - base) = Some line
    /\ find (lower line) label_lower 0 = Some pos
    /\ forall j L, j < idx - base -> lines !! j = Some L ->
                   find (lower L) label_lower 0 = None.
Proof.
  induction lines as [|l lines IH]; intros base idx line pos H; simpl in H; [done|].
  destruct (find (lower l) label_lower 0) as [p|] eqn:E.
  - inversion H; subst. rewrite Nat.sub_diag. repeat split; try done.
    intros j L Hj. lia.
  - apply IH in H as (Hle & Hl & Hf & Hfirst).
    replace (idx - base) with (S (idx - S base)) by lia.
    repeat split; try done; try lia.
    intros [|j] L Hj HL; simpl in HL.
    + by inversion HL; subst.
    + apply (Hfirst j); [lia | done].
Qed.

(** ** Lists: last, head, stable sort *)

Lemma last_map {A B} (f : A -> B) (l : list A) : last (map f l) = option_map f (last l).
Proof.
  induction l as [|x l IH]; [done|].
  destruct l as [|y l]; [done|]. exact IH.
Qed.

Lemma head_map {A B} (f : A -> B) (l : list A) : head (map f l) = option_map f (head l).
Proof. by destruct l. Qed.

Lemma last_elem_of {A} (l : list A) x : last l = Some x -> x ∈ l.
Proof.
  rewrite last_lookup. intros H. by eapply list_elem_of_lookup_2.
Qed.

Lemma head_elem_of {A} (l : list A) x : head l = Some x -> x ∈ l.
Proof. destruct l; [done|]. intros [= ->]. by left. Qed.

Lemma last_is_Some {A} (l : list A) : l <> [] -> exists x, last l = Some x.
Proof.
  induction l as [|x l IH]; [done|]. intros _.
  destruct l as [|y l]; [by exists x|]. by apply IH.
Qed.

Lemma StronglySorted_filter {A} (R : A -> A -> Prop) (P : A -> Prop)
    `{forall x, Decision (P x)} (l : list A) :
  StronglySorted R l -> StronglySorted R (filter P l).
Proof.
  induction 1 as [|x l Hs IH Hx]; [constructor|].
  rewrite filter_cons. destruct (decide (P x)); [|done].
  constructor; [done|]. apply Forall_forall. intros y Hy.
  apply list_elem_of_filter in Hy as [_ Hy].
  rewrite Forall_forall in Hx. auto.
Qed.

Lemma sorted_last_max {A} (f : A -> nat) (l : list A) x :
  StronglySorted (fun a b => f a < f b) l -> last l = Some x ->
  forall y, y ∈ l -> f y <= f x.
Proof.
  induction 1 as [|z l Hs IH Hz]; [done|]. intros Hl y Hy.
  destruct l as [|z' l].
  - simpl in Hl. inversion Hl; subst. apply list_elem_of_singleton in Hy. by subst.
  - assert (Hl' : last (z' :: l) = Some x) by exact Hl.
    apply elem_of_cons in Hy as [->|Hy]; [|by apply IH].
    rewrite Forall_forall in Hz. apply Nat.lt_le_incl, Hz.
    by apply last_elem_of.
Qed.

Lemma sorted_head_min {A} (f : A -> nat) (l : list A) x :
  StronglySorted (fun a b => f a < f b) l -> head l = Some x ->
  forall y, y ∈ l -> f x <= f y.
Proof.
  intros Hs Hh y Hy. destruct l as [|z l]; [done|]. simpl in Hh.
  inversion Hh; subst. inversion Hs; subst.
  apply elem_of_cons in Hy as [->|Hy]; [lia|].
  rewrite Forall_forall in H2. apply Nat.lt_le_incl. auto.
Qed.

Lemma insert_by_key_perm {A} (x : nat * A) l : insert_by_key x l ≡ₚ x :: l.
Proof.
  induction l as [|y l IH]; simpl; [done|].
  destruct (fst y <=? fst x); [|done].
  rewrite IH. apply Permutation_swap.
Qed.

Lemma sorted_by_key_perm {A} (l : list (nat * A)) : sorted_by_key l ≡ₚ l.
Proof.
  unfold sorted_by_key.
  assert (H : forall acc, fold_left (fun acc x => insert_by_key x acc) l acc ≡ₚ acc ++ l).
  { induction l as [|x l IH]; intros acc; simpl; [by rewrite app_nil_r|].
    rewrite IH, insert_by_key_perm. simpl. apply Permutation_middle. }
  apply (H []).
Qed.

(** ** Tokens *)

Lemma tokens_in_sound seg :
  Forall (fun m => match_of NUM_RE 0 seg m /\ excluded seg m = false) (tokens_in seg)
  /\ StronglySorted (fun m1 m2 => m_start m1 < m_start m2) (tokens_in seg).
Proof.
  unfold tokens_in. destruct (finditer_sound NUM_RE seg) as [HF HS]. split.
  - apply Forall_forall. intros m Hm. apply list_elem_of_filter in Hm as [He Hm].
    rewrite Forall_forall in HF. auto.
  - by apply StronglySorted_filter.
Qed.

Lemma match_of_nonempty r base s m :
  nullable r = false -> match_of r base s m -> m_text m <> [].
Proof.
  intros Hn (_ & _ & _ & _ & b & b' & He). by eapply exec_nonempty.
Qed.

Lemma numbers_nonempty seg x : x ∈ _numbers_in_segment seg -> x <> [].
Proof.
  unfold _numbers_in_segment. intros Hx.
  apply list_elem_of_In, in_map_iff in Hx as (m & <- & Hm).
  apply list_elem_of_In in Hm.
  destruct (tokens_in_sound seg) as [HF _]. rewrite Forall_forall in HF.
  destruct (HF m Hm) as [Hmo _].
  eapply match_of_nonempty; [|exact Hmo]. reflexivity.
Qed.

(** ** The finders never raise *)

Lemma amount_from_label_line_ok text label :
  _amount_from_label_line text label = Ok (label_line_value text label).
Proof.
  unfold _amount_from_label_line, label_line_value.
  destruct (first_label_line (lower label) (splitlines text) 0)
    as [[[idx line] pos]|]; [|done].
  destruct (_numbers_in_segment (take pos line)) as [|x l] eqn:Eb.
  - simpl. destruct (_numbers_in_segment (drop (pos + length label) line)) as [|y l'] eqn:Ea.
    + done.
    + done.
  - destruct (last_is_Some (x :: l)) as [z Hz]; [done|].
    rewrite (py_index_last _ _ Hz). simpl. by rewrite Hz.
Qed.

Lemma find_amount_for_label_ok text label window :
  _find_amount_for_label text label window = Ok (for_label_value text label window).
Proof.
  unfold _find_amount_for_label, for_label_value.
  destruct (first_label_line (lower label) (splitlines text) 0)
    as [[[idx line] pos]|] eqn:Ef; [|done].
  apply first_label_line_sound in Ef as (_ & Hline & _ & _).
  rewrite Nat.sub_0_r in Hline. apply lookup_lt_Some in Hline.
  cbv zeta.
  destruct (same_line_before line pos) as [|c cs] eqn:Ec.
  - simpl sorted_by_key. simpl last.
    rewrite (mapM_ok (prev_line (splitlines text) idx) (prev_of (splitlines text) idx))
      by (intros; by apply prev_line_ok).
    simpl. destruct (first_starting_number _); [done|].
    rewrite (mapM_ok (next_line (splitlines text) idx) (next_of (splitlines text) idx))
      by (intros; apply next_line_ok).
    done.
  - destruct (last_is_Some (sorted_by_key (c :: cs))) as [z Hz].
    { intros Hnil. pose proof (sorted_by_key_perm (c :: cs)) as Hp.
      rewrite Hnil in Hp. by apply Permutation_nil_cons in Hp. }
    rewrite (py_index_last _ _ Hz). simpl. by rewrite Hz.
Qed.

(** ** The same-line label-anchored strategy *)

Lemma excluded_dirty_at seg m :
  m_end m = m_start m + length (m_text m) ->
  excluded seg m = dirty_at seg (m_start m) (length (m_text m)).
Proof. intros H. unfold excluded, dirty_at, head3, tail3. by rewrite H. Qed.

Lemma token_clean_at seg m : m ∈ tokens_in seg -> clean_at seg (m_start m) (m_text m).
Proof.
  intros Hm. destruct (tokens_in_sound seg) as [HF _]. rewrite Forall_forall in HF.
  destruct (HF m Hm) as [(_ & Hend & _ & Htext & _) Hex].
  split.
  - rewrite <- Hend. by rewrite !Nat.sub_0_r in Htext.
  - by rewrite <- excluded_dirty_at.
Qed.

(** C5.  The same-line label-anchored strategy finds the label in the line
    in lower case and cuts the line itself at that offset.  On the line
    [İZMİR Discount 12.00] the label stands at offset 6 of the line and at
    offset 8 of its lower case, where each [İ] has become two characters:
    nothing numeric stands before the label, the one token after it is
    ["12.00"], and the strategy returns ["2.00"]. *)
Theorem amount_from_label_line_shifted :
  Wide._amount_from_label_line Wide.izmir_discount (Wide.utxt "Discount")
    = Ok (Some (Wide.utxt "2.00"))
  /\ Wide.find Wide.izmir_discount (Wide.utxt "Discount") 0 = Some 6
  /\ Wide.find (Wide.lower Wide.izmir_discount) (Wide.utxt "discount") 0 = Some 8
  /\ Wide._numbers_in_segment (take 6 Wide.izmir_discount) = []
  /\ Wide._numbers_in_segment (drop (6 + 8) Wide.izmir_discount)
      = [Wide.utxt "12.00"].
Proof. by vm_compute. Qed.

(** On [İZMİR Discount %12.00] the same shift drops the percent sign from
    the part of the line that is scanned, and the token behind it is
    returned. *)
Lemma amount_from_label_line_shifted_percent :
  Wide._amount_from_label_line Wide.izmir_percent (Wide.utxt "Discount")
    = Ok (Some (Wide.utxt "12.00"))
  /\ Wide.slice Wide.izmir_percent 15 21 = Wide.utxt "%12.00".
Proof. by vm_compute. Qed.


(** ** Exclusion of percentages and weights *)

Lemma label_line_value_clean text label tok :
  label_line_value text label = Some tok ->
  exists idx line pos seg i,
    first_label_line (lower label) (splitlines text) 0 = Some (idx, line, pos)
    /\ (seg = take pos line \/ seg = drop (pos + length label) line)
    /\ clean_at seg i tok.
Proof.
  unfold label_line_value, _numbers_in_segment.
  destruct (first_label_line (lower label) (splitlines text) 0)
    as [[[idx line] pos]|]; [|done].
  rewrite last_map, head_map. intros H.
  destruct (last (tokens_in (take pos line))) as [m|] eqn:El; simpl in H.
  - inversion H; subst. exists idx, line, pos, (take pos line), (m_start m).
    split; [done|]. split; [by left|]. by apply token_clean_at, last_elem_of.
  - destruct (head (tokens_in (drop (pos + length label) line))) as [m|] eqn:Eh;
      simpl in H; [|done].
    inversion H; subst.
    exists idx, line, pos, (drop (pos + length label) line), (m_start m).
    split; [done|]. split; [by right|]. by apply token_clean_at, head_elem_of.
Qed.

Lemma line_starts_with_number_sound line tok :
  _line_starts_with_number line = Some tok ->
  exists blanks rest,
    line = blanks ++ tok ++ rest
    /\ forallb is_space blanks = true
    /\ contains pct (take 3 rest) = false
    /\ tok <> [].
Proof.
  unfold _line_starts_with_number, re_match.
  destruct (match_here _ true 0 line) as [m|] eqn:E; [|done].
  apply match_here_sound in E as (w & s' & b' & -> & He & Hs & Hend & Ht).
  unfold tail3. rewrite Hend. simpl.
  unfold slice. rewrite drop_app_length.
  replace (length w + 3 - length w) with 3 by lia.
  destruct (contains pct (take 3 s')) eqn:Hp; [done|]. intros Hg.
  apply exec_seq_inv in He as (w1 & w2 & b1 & c1 & -> & H1 & H2).
  apply exec_star_inv in H1 as [Hsp ->].
  apply exec_group_inv in H2 as (c2 & Hc & H3).
  unfold group in Hg. rewrite Hc, lookup_insert_eq in Hg.
  inversion Hg; subst.
  exists w1, s'. rewrite <- app_assoc. repeat split; try done.
  eapply exec_nonempty; [exact H3 | reflexivity].
Qed.

(** ** The chain of the resolver *)

Lemma truthy_nonempty (x : str) : x <> [] -> truthy (Some x) = true.
Proof. by destruct x. Qed.

Lemma label_line_value_truthy text label tok :
  label_line_value text label = Some tok -> truthy (Some tok) = true.
Proof.
  intros H. apply truthy_nonempty. unfold label_line_value in H.
  destruct (first_label_line (lower label) (splitlines text) 0)
    as [[[idx line] pos]|]; [|done].
  destruct (last (_numbers_in_segment (take pos line))) as [x|] eqn:El.
  - inversion H; subst. by eapply numbers_nonempty, last_elem_of.
  - by eapply numbers_nonempty, head_elem_of.
Qed.

Lemma first_starting_number_truthy lines tok :
  first_starting_number lines = Some tok -> truthy (Some tok) = true.
Proof.
  induction lines as [|[L|] lines IH]; simpl; [done| |done].
  destruct (truthy (_line_starts_with_number L)) eqn:E; [|done].
  intros H. by rewrite H in E.
Qed.

Lemma for_label_value_truthy text label window tok :
  for_label_value text label window = Some tok -> truthy (Some tok) = true.
Proof.
  unfold for_label_value.
  destruct (first_label_line (lower label) (splitlines text) 0)
    as [[[idx line] pos]|]; [|done].
  destruct (last (sorted_by_key (same_line_before line pos))) as [p|] eqn:El.
  - intros [= <-]. apply truthy_nonempty.
    apply last_elem_of in El. rewrite sorted_by_key_perm in El.
    unfold same_line_before in El.
    apply list_elem_of_In, in_map_iff in El as (m & <- & Hm).
    apply list_elem_of_In, list_elem_of_filter in Hm as [_ Hm]. simpl.
    destruct (finditer_sound NUM_RE line) as [HF _]. rewrite Forall_forall in HF.
    eapply match_of_nonempty; [|by apply HF]. reflexivity.
  - destruct (first_starting_number (map (prev_of _ idx) _)) eqn:Ep.
    + intros [= <-]. by eapply first_starting_number_truthy.
    + apply first_starting_number_truthy.
Qed.

Lemma pattern_match_group f text m :
  pattern_match f text = Some m ->
  exists v, group m "1" = Some v /\ truthy (Some v) = true.
Proof.
  unfold pattern_match. intros H.
  assert (Hm : exists r, match_of r 0 text m /\ sets "1" r = true).
  { destruct (re_search (after_of f) text) eqn:Ea.
    - inversion H; subst. exists (after_of f).
      split; [by apply re_search_sound | by destruct f].
    - exists (before_of f). split; [by apply re_search_sound | by destruct f]. }
  destruct Hm as (r & (_ & _ & _ & _ & b & b' & He) & Hs).
  destruct (exec_sets _ _ _ _ _ _ _ He Hs) as (v & Hv & Hne).
  exists v. split; [done | by apply truthy_nonempty].
Qed.

(** C3, amended.  For each field the resolver tries, in this order and up to
    the first success: the same-line label-anchored extraction, the two
    single-line pattern rules, and the fallback [_find_amount_for_label] on
    the charges section (the nearest number before the label on its line, else
    the closest line above, else below, that starts with a number).  None of
    the three raises, and the resolved value is the first one found. *)
Theorem resolver_chain f charges_text :
  exists a w,
    _amount_from_label_line charges_text (label_of f) = Ok a
    /\ _find_amount_for_label charges_text (label_of f) 3 = Ok w
    /\ resolved f charges_text = Ok (first_some [a; pattern_value f charges_text; w]).
Proof.
  exists (label_line_value charges_text (label_of f)),
         (for_label_value charges_text (label_of f) 3).
  split; [apply amount_from_label_line_ok|].
  split; [apply find_amount_for_label_ok|].
  unfold resolved, resolve_field, pattern_value.
  rewrite amount_from_label_line_ok. simpl.
  destruct (label_line_value charges_text (label_of f)) as [tok|] eqn:Ea.
  - pose proof (label_line_value_truthy _ _ _ Ea) as Ht.
    by destruct tok.
  - unfold fall_back. simpl.
    destruct (pattern_match f charges_text) as [m|] eqn:Ep.
    + destruct (pattern_match_group _ _ _ Ep) as (v & Hv & Ht).
      rewrite Hv. by destruct v.
    + rewrite find_amount_for_label_ok. simpl.
      destruct (for_label_value charges_text (label_of f) 3) as [tok|] eqn:Ew; [|done].
      pose proof (for_label_value_truthy _ _ _ _ Ew) as Ht. by destruct tok.
Qed.

(** In a whole document too: with the amounts 50.00, -999.00 and 75.00 on the
    lines under the label, the record has the discount ["50.00"], the number
    the closest line below starts with. *)
Lemma third_step_in_record :
  project ["discount"] (parse_blocks column_invoice) = Ok [[Some (VStr (txt "50.00"))]].
Proof. by vm_compute. Qed.

(** C3 as stated fails: on the two lines ["10.00 999.00"], ["Discount"] the
    third step returns ["10.00"], the number the closest line above starts
    with, where the windowed search for the largest absolute value returns
    ["999.00"]. *)
Lemma third_step_is_not_windowed :
  ~ (forall f text, resolved f text = resolve_as_specified f text).
Proof.
  intros H.
  specialize (H Discount (txt "10.00 999.00
Discount")).
  vm_compute in H. discriminate H.
Qed.

(** ** [find] returns the first occurrence *)

Lemma find_at_Some sub s :
  forall pos r, find_at sub s pos = Some r ->
    exists k, r = pos + k /\ k <= length s /\ starts_with sub (drop k s) = true
              /\ forall j, j < k -> starts_with sub (drop j s) = false.
Proof.
  induction s as [|a s IH]; intros pos r H; simpl in H.
  - destruct (starts_with sub []) eqn:E; [|done]. inversion H; subst.
    exists 0. repeat split; [lia | done | done | lia].
  - destruct (starts_with sub (a :: s)) eqn:E.
    + inversion H; subst. exists 0. repeat split; [lia | simpl; lia | done | lia].
    + apply IH in H as (k & -> & Hk & Hs & Hfirst).
      exists (S k). repeat split; [lia | simpl; lia | done |].
      intros [|j] Hj; [done|]. apply Hfirst. lia.
Qed.

Lemma find_at_None sub s :
  forall pos, find_at sub s pos = None ->
    forall j, j <= length s -> starts_with sub (drop j s) = false.
Proof.
  induction s as [|a s IH]; intros pos H j Hj; simpl in H.
  - destruct (starts_with sub []) eqn:E; [done|].
    simpl in Hj. by replace j with 0 by lia.
  - destruct (starts_with sub (a :: s)) eqn:E; [done|].
    destruct j as [|j]; [done|]. simpl. eapply IH; [done | simpl in Hj; lia].
Qed.

Lemma find_Some s sub start i :
  find s sub start = Some i -> first_occurrence sub s start i.
Proof.
  unfold find, first_occurrence, occurs_at.
  destruct (Nat.leb_spec start (length s)) as [Hle|]; [|done]. intros H.
  apply find_at_Some in H as (k & -> & Hk & Hs & Hfirst).
  rewrite length_drop in Hk. rewrite drop_drop in Hs.
  split; [lia|]. split.
  - apply andb_true_iff. split; [apply Nat.leb_le; lia | done].
  - intros j Hj1 Hj2. apply andb_false_iff. right.
    specialize (Hfirst (j - start)). rewrite drop_drop in Hfirst.
    replace (start + (j - start)) with j in Hfirst by lia. apply Hfirst. lia.
Qed.

Lemma find_None s sub start j :
  find s sub start = None -> start <= j -> occurs_at sub s j = false.
Proof.
  unfold find, occurs_at. intros H Hj.
  destruct (Nat.leb_spec j (length s)) as [Hle|]; [|done]. simpl.
  destruct (Nat.leb_spec start (length s)) as [Hle'|]; [|lia].
  pose proof (find_at_None _ _ _ H (j - start)) as Hn.
  rewrite length_drop, drop_drop in Hn.
  replace (start + (j - start)) with j in Hn by lia. apply Hn. lia.
Qed.

Lemma first_occurrence_unique sub s start i j :
  first_occurrence sub s start i -> first_occurrence sub s start j -> i = j.
Proof.
  intros (Hi1 & Hi2 & Hi3) (Hj1 & Hj2 & Hj3).
  destruct (Nat.lt_trichotomy i j) as [Hlt|[->|Hlt]]; [|done|].
  - rewrite (Hj3 i Hi1 Hlt) in Hi2. done.
  - rewrite (Hi3 j Hj1 Hlt) in Hj2. done.
Qed.

Lemma find_first_occurrence s sub start i :
  first_occurrence sub s start i -> find s sub start = Some i.
Proof.
  intros Hi. destruct (find s sub start) as [j|] eqn:E.
  - apply find_Some in E. f_equal. by eapply first_occurrence_unique.
  - destruct Hi as (Hi1 & Hi2 & _). by rewrite (find_None _ _ _ _ E Hi1) in Hi2.
Qed.

Lemma min_or_none_Some l : l <> [] ->
  exists m, min_or_none l = Some m /\ m ∈ l /\ forall x, x ∈ l -> m <= x.
Proof.
  destruct l as [|x l]; [done|]. intros _. simpl.
  exists (fold_left Nat.min l x). split; [done|].
  revert x. induction l as [|y l IH]; intros x; simpl.
  - split; [by left|]. intros z Hz. apply list_elem_of_singleton in Hz. lia.
  - destruct (IH (Nat.min x y)) as [Hin Hmin]. split.
    + apply elem_of_cons in Hin as [Hin|Hin].
      * rewrite Hin. destruct (Nat.min_spec x y) as [[_ ->]|[_ ->]];
          [by left | by right; left].
      * by right; right.
    + intros z Hz. apply elem_of_cons in Hz as [->|Hz].
      * specialize (Hmin (Nat.min x y)). pose proof (Hmin ltac:(by left)). lia.
      * apply elem_of_cons in Hz as [->|Hz].
        -- specialize (Hmin (Nat.min x y)). pose proof (Hmin ltac:(by left)). lia.
        -- apply Hmin. by right.
Qed.

Lemma marker_at_true low i :
  marker_at low i = true <-> exists tok, tok ∈ end_tokens /\ occurs_at tok low i = true.
Proof.
  unfold marker_at. rewrite existsb_exists. split.
  - intros (tok & Hin & H). exists tok. by rewrite list_elem_of_In.
  - intros (tok & Hin & H). exists tok. by rewrite <- list_elem_of_In.
Qed.

Lemma slice_charges_absent block :
  (forall i, occurs_at (txt "charges") (lower block) i = false) ->
  _slice_charges_section block = block.
Proof.
  intros Hno. unfold _slice_charges_section.
  destruct (find (lower block) (txt "charges") 0) as [s|] eqn:E; [|done].
  apply find_Some in E as (_ & E & _). by rewrite Hno in E.
Qed.

Lemma slice_charges_no_marker block s :
  first_occurrence (txt "charges") (lower block) 0 s ->
  (forall j, s + 7 <= j -> marker_at (lower block) j = false) ->
  _slice_charges_section block = drop s block.
Proof.
  intros Hs Hno. unfold _slice_charges_section.
  rewrite (find_first_occurrence _ _ _ _ Hs).
  destruct (omap (fun token => find (lower block) token (s + 7)) end_tokens)
    as [|x l] eqn:E; [done|].
  assert (Hx : x ∈ omap (fun token => find (lower block) token (s + 7)) end_tokens)
    by (rewrite E; by left).
  apply list_elem_of_omap in Hx as (tok & Hin & Hf).
  apply find_Some in Hf as (Hle & Hocc & _).
  assert (marker_at (lower block) x = true) as Hm
    by (apply marker_at_true; by exists tok).
  by rewrite (Hno x Hle) in Hm.
Qed.

Lemma slice_charges_marker block s e :
  first_occurrence (txt "charges") (lower block) 0 s ->
  s + 7 <= e -> marker_at (lower block) e = true ->
  (forall j, s + 7 <= j -> j < e -> marker_at (lower block) j = false) ->
  _slice_charges_section block = slice block s e.
Proof.
  intros Hs Hle He Hfirst. unfold _slice_charges_section.
  rewrite (find_first_occurrence _ _ _ _ Hs).
  set (low := lower block) in *.
  apply marker_at_true in He as (tok & Hin & Hocc).
  destruct (find low tok (s + 7)) as [p|] eqn:Ep;
    [|by rewrite (find_None _ _ _ _ Ep Hle) in Hocc].
  assert (Hp : p ∈ omap (fun token => find low token (s + 7)) end_tokens)
    by (apply list_elem_of_omap; by exists tok).
  apply find_Some in Ep as (Hp1 & Hp2 & Hp3).
  assert (Hpe : p <= e).
  { destruct (Nat.le_gt_cases p e) as [|Hlt]; [done|].
    by rewrite (Hp3 e Hle Hlt) in Hocc. }
  destruct (min_or_none_Some (omap (fun token => find low token (s + 7)) end_tokens))
    as (m & -> & Hm & Hmin).
  { intros Hnil. rewrite Hnil in Hp. by apply elem_of_nil in Hp. }
  apply list_elem_of_omap in Hm as (tok' & Hin' & Hf').
  apply find_Some in Hf' as (Hm1 & Hm2 & _).
  assert (Hme : e <= m).
  { destruct (Nat.le_gt_cases e m) as [|Hlt]; [done|].
    assert (marker_at low m = true) as Hmk by (apply marker_at_true; by exists tok').
    by rewrite (Hfirst m Hm1 Hlt) in Hmk. }
  specialize (Hmin p Hp).
  assert (m = e) as -> by lia.
  destruct (Nat.ltb_spec s e); [done | lia].
Qed.

(** C7.  The charges-section isolator finds ["charges"] and the end markers
    in the block in lower case and cuts the block itself at those offsets.
    In the block [İZMİR / Charges / Transportation Charge 100.00 /
    Signed: X] the word stands at offset 6 and the first end marker at
    offset 43, so that the section from the word up to the marker is
    [Charges / Transportation Charge 100.00 /]; in the lower case of the
    block each [İ] has become two characters, and the isolator returns the
    block from offset 8 up to offset 45, which begins with ["arges"] and
    ends with ["Si"]. *)
Theorem slice_charges_section_shifted :
  Wide._slice_charges_section Wide.izmir_block
    = Wide.utxt "arges
Transportation Charge 100.00
Si"
  /\ Wide.find Wide.izmir_block (Wide.utxt "Charges") 0 = Some 6
  /\ omap (fun token => Wide.find (Wide.lower Wide.izmir_block) token (8 + 7))
          Wide.end_tokens = [45]
  /\ Wide.find Wide.izmir_block (Wide.utxt "Signed") (6 + 7) = Some 43
  /\ Wide.slice Wide.izmir_block 6 43
      = Wide.utxt "Charges
Transportation Charge 100.00
".
Proof. by vm_compute. Qed.

(** X24.  On a block of characters below U+0100, with [low] the block in
    lower case: when ["charges"] does not occur in [low] the isolator
    returns the block unchanged; when its first occurrence is at [s] and
    none of the end markers ["signed"], ["tendered date"], ["subtotal inr"]
    occurs from [s + 7] on, it returns the block from [s] to its end; when
    the earliest occurrence of a marker from [s + 7] on is at [e], it
    returns the block from [s] up to [e]. *)
Theorem slice_charges_section_spec block :
  let low := lower block in
  ((forall i, occurs_at (txt "charges") low i = false) ->
     _slice_charges_section block = block)
  /\ (forall s,
        first_occurrence (txt "charges") low 0 s ->
        (forall j, s + 7 <= j -> marker_at low j = false) ->
        _slice_charges_section block = drop s block)
  /\ (forall s e,
        first_occurrence (txt "charges") low 0 s ->
        s + 7 <= e -> marker_at low e = true ->
        (forall j, s + 7 <= j -> j < e -> marker_at low j = false) ->
        _slice_charges_section block = slice block s e).
Proof.
  split; [apply slice_charges_absent|].
  split; [apply slice_charges_no_marker | apply slice_charges_marker].
Qed.

Lemma slice_charges_section_witness :
  _slice_charges_section (txt "Invoice Charges
Transportation Charge 100.00
Signed: X")
  = slice (txt "Invoice Charges
Transportation Charge 100.00
Signed: X") 8 45.
Proof.
  apply (proj2 (proj2 (slice_charges_section_spec (txt "Invoice Charges
Transportation Charge 100.00
Signed: X"))) 8 45).
  - split; [lia|]. split; [by vm_compute|].
    intros j _ Hj. do 8 (destruct j as [|j]; [by vm_compute|]). lia.
  - lia.
  - by vm_compute.
  - intros j Hj1 Hj2.
    do 45 (destruct j as [|j]; [first [lia | by vm_compute]|]). lia.
Defined.

(** ** The groups of the header, dimension and tender patterns *)

Lemma match_of_group r base s m n :
  match_of r base s m -> sets n r = true ->
  exists v, group m n = Some v /\ v <> [].
Proof.
  intros (_ & _ & _ & _ & b & b' & He) Hs. by eapply exec_sets.
Qed.

Lemma header_group text m n :
  m ∈ finditer HEADER_RE text -> sets n HEADER_RE = true ->
  exists v, group m n = Some v /\ v <> [].
Proof.
  intros Hm Hs. destruct (finditer_sound HEADER_RE text) as [HF _].
  rewrite Forall_forall in HF. by eapply match_of_group; [apply HF|].
Qed.

(** ** The stages of [parse_block] *)

Lemma header_data_spec m sv wv :
  group m "service" = Some sv -> group m "weight" = Some wv ->
  exists data, header_data m = Ok data
    /\ data !! "shipment" = Some (of_group (group m "shipment"))
    /\ data !! "reference" = Some (of_group (group m "reference"))
    /\ data !! "other_charges" = Some (of_group (group m "other_charges"))
    /\ data !! "fuel_surcharge" = None /\ data !! "charges" = None
    /\ data !! "transportation_charge" = None /\ data !! "discount" = None
    /\ data !! "dims" = None /\ data !! "billed_weight" = None
    /\ data !! "tendered_date" = None /\ data !! "subtotal_inr" = None.
Proof.
  intros Hs Hw. unfold header_data. rewrite Hs, Hw. simpl.
  eexists. split; [reflexivity|]. by repeat split.
Qed.

Lemma add_dims_spec block data :
  exists data', add_dims block data = Ok data'
    /\ (forall k, k <> "dims" -> k <> "billed_weight" -> data' !! k = data !! k)
    /\ (re_search DIMS_RE block = None -> data' = data).
Proof.
  unfold add_dims. destruct (re_search DIMS_RE block) as [d|] eqn:E.
  - apply re_search_sound in E.
    destruct (match_of_group _ _ _ _ "dims" E eq_refl) as (dv & -> & _).
    destruct (match_of_group _ _ _ _ "billed_weight" E eq_refl) as (bw & -> & _).
    simpl. eexists. split; [reflexivity|]. split; [|done].
    intros k H1 H2. by rewrite !lookup_insert_ne.
  - by exists data.
Qed.

Lemma fall_back_ok f text val : exists v, fall_back f text val = Ok v.
Proof.
  unfold fall_back. destruct (negb (truthy val)); [|by eexists].
  destruct (pattern_match f text); [by eexists|].
  rewrite find_amount_for_label_ok. by eexists.
Qed.

Lemma resolve_field_ok f text : exists v, resolve_field f text = Ok v.
Proof.
  unfold resolve_field. rewrite amount_from_label_line_ok. simpl.
  apply fall_back_ok.
Qed.

Lemma set_if_lookup key val (charges : gmap string str) k :
  set_if key val charges !! k
  = if decide (key = k) then
      match stored val with Some v => Some v | None => charges !! k end
    else charges !! k.
Proof.
  unfold set_if, stored. destruct val as [[|a s]|]; simpl.
  - by destruct (decide (key = k)).
  - by rewrite lookup_insert.
  - by destruct (decide (key = k)).
Qed.

Lemma charges_of_spec block :
  exists tr ds fu,
    resolve_field Transportation (_slice_charges_section block) = Ok tr
    /\ resolve_field Discount (_slice_charges_section block) = Ok ds
    /\ resolve_field Fuel (_slice_charges_section block) = Ok fu
    /\ charges_of block
       = Ok (set_if "fuel_surcharge" fu
              (set_if "discount" ds (set_if "transportation_charge" tr ∅))).
Proof.
  unfold charges_of, resolve_field. cbv zeta.
  rewrite !amount_from_label_line_ok. cbn [mbind result_bind].
  destruct (fall_back_ok Transportation (_slice_charges_section block)
              (label_line_value (_slice_charges_section block) (label_of Transportation)))
    as [tr Htr].
  destruct (fall_back_ok Discount (_slice_charges_section block)
              (label_line_value (_slice_charges_section block) (label_of Discount)))
    as [ds Hds].
  destruct (fall_back_ok Fuel (_slice_charges_section block)
              (label_line_value (_slice_charges_section block) (label_of Fuel)))
    as [fu Hfu].
  exists tr, ds, fu. rewrite Htr, Hds, Hfu. cbn [mbind result_bind]. by repeat split.
Qed.

Lemma expose_spec key charges data :
  exists data', expose key charges data = Ok data'
    /\ data' !! key = match charges !! key with
                      | Some v => Some (VStr v)
                      | None => data !! key
                      end
    /\ forall k, k <> key -> data' !! k = data !! k.
Proof.
  unfold expose, py_getitem. destruct (charges !! key) as [v|] eqn:E.
  - rewrite bool_decide_eq_true_2 by by eexists. simpl.
    eexists. split; [reflexivity|]. split; [by rewrite lookup_insert_eq|].
    intros k Hk. by rewrite lookup_insert_ne.
  - rewrite bool_decide_eq_false_2 by (by intros [? ?]).
    by exists data.
Qed.

Lemma add_charges_spec charges data :
  exists data', add_charges charges data = Ok data'
    /\ (forall f, data' !! key_of f
                  = match charges !! key_of f with
                    | Some v => Some (VStr v)
                    | None => data !! key_of f
                    end)
    /\ (forall k, k <> "charges" -> (forall f, k <> key_of f) -> data' !! k = data !! k)
    /\ (data !! "charges" = None -> forall d, data' !! "charges" = Some (VDict d) -> d = charges).
Proof.
  unfold add_charges. destruct (bool_decide (charges = ∅)) eqn:E.
  - apply bool_decide_eq_true in E as ->. exists data.
    split; [done|]. split; [|split; [done|]].
    + intros f. by rewrite lookup_empty.
    + intros Hn d Hd. by rewrite Hn in Hd.
  - clear E.
    destruct (expose_spec "transportation_charge" charges (<["charges" := VDict charges]> data))
      as (d1 & -> & H1 & H1'). simpl.
    destruct (expose_spec "discount" charges d1) as (d2 & -> & H2 & H2'). simpl.
    destruct (expose_spec "fuel_surcharge" charges d2) as (d3 & -> & H3 & H3').
    exists d3. split; [done|]. split; [|split].
    + intros [].
      * simpl. rewrite H3', H2', H1 by done.
        destruct (charges !! "transportation_charge"); [done|]. by rewrite lookup_insert_ne.
      * simpl. rewrite H3', H2 by done.
        destruct (charges !! "discount"); [done|]. rewrite H1' by done.
        by rewrite lookup_insert_ne.
      * simpl. rewrite H3.
        destruct (charges !! "fuel_surcharge"); [done|]. rewrite H2', H1' by done.
        by rewrite lookup_insert_ne.
    + intros k Hk Hf. rewrite H3', H2', H1'.
      * by rewrite lookup_insert_ne.
      * apply (Hf Transportation).
      * apply (Hf Discount).
      * apply (Hf Fuel).
    + intros _ d. rewrite H3', H2', H1' by done. rewrite lookup_insert_eq.
      by intros [= <-].
Qed.

Lemma enforce_fuel_spec data :
  exists data', enforce_fuel data = Ok data'
    /\ (forall k, k <> "fuel_surcharge" -> k <> "charges" -> data' !! k = data !! k)
    /\ (forall oc, data !! "other_charges" = Some (VStr oc) -> oc <> [] ->
          data' !! "fuel_surcharge" = Some (VStr oc)
          /\ forall d, data' !! "charges" = Some (VDict d) ->
                       d !! "fuel_surcharge" = Some oc)
    /\ (forall v, data' !! "charges" = Some v -> exists v', data !! "charges" = Some v').
Proof.
  unfold enforce_fuel, py_getitem.
  destruct (data !! "other_charges") as [[|[|a s]|]|] eqn:E;
    try (exists data; split; [done|]; split; [done|]; split;
         [by intros oc [= <-] Hne | by eauto]).
  cbn [mbind result_bind]. rewrite lookup_insert_ne by done.
  destruct (data !! "charges") as [[| |d]|] eqn:Ec.
  - eexists. split; [reflexivity|]. split; [|split].
    + intros k H1 H2. by rewrite lookup_insert_ne.
    + intros oc [= <-] _. rewrite lookup_insert_eq. split; [done|].
      intros d. rewrite lookup_insert_ne by done. by rewrite Ec.
    + intros v. rewrite lookup_insert_ne by done. eauto.
  - eexists. split; [reflexivity|]. split; [|split].
    + intros k H1 H2. by rewrite lookup_insert_ne.
    + intros oc [= <-] _. rewrite lookup_insert_eq. split; [done|].
      intros d. rewrite lookup_insert_ne by done. by rewrite Ec.
    + intros v. rewrite lookup_insert_ne by done. eauto.
  - rewrite lookup_insert_ne by done. rewrite E.
    eexists. split; [reflexivity|]. split; [|split].
    + intros k H1 H2. by rewrite !lookup_insert_ne.
    + intros oc [= <-] _. rewrite lookup_insert_ne by done.
      rewrite lookup_insert_eq. split; [done|].
      intros d'. rewrite lookup_insert_eq. intros [= <-].
      by rewrite lookup_insert_eq.
    + intros v _. eauto.
  - eexists. split; [reflexivity|]. split; [|split].
    + intros k H1 H2. by rewrite lookup_insert_ne.
    + intros oc [= <-] _. rewrite lookup_insert_eq. split; [done|].
      intros d. rewrite lookup_insert_ne by done. by rewrite Ec.
    + intros v. rewrite lookup_insert_ne by done. by rewrite Ec.
Qed.

Lemma add_tender_spec block data :
  (forall k, k <> "tendered_date" -> k <> "subtotal_inr" ->
             add_tender block data !! k = data !! k)
  /\ (re_search TENDER_SUBTOTAL_RE block = None -> add_tender block data = data).
Proof.
  unfold add_tender. destruct (re_search TENDER_SUBTOTAL_RE block); [|done].
  split; [|done]. intros k H1 H2. by rewrite !lookup_insert_ne.
Qed.

Lemma resolved_stored f text tr :
  resolve_field f text = Ok tr -> resolved f text = Ok (stored tr).
Proof. unfold resolved. by intros ->. Qed.

Lemma parse_block_spec m block sv wv :
  group m "service" = Some sv -> group m "weight" = Some wv ->
  exists r, parse_block m block = Ok r
    /\ r !! "shipment" = Some (of_group (group m "shipment"))
    /\ r !! "reference" = Some (of_group (group m "reference"))
    /\ r !! "other_charges" = Some (of_group (group m "other_charges"))
    /\ (forall oc, group m "other_charges" = Some oc -> oc <> [] ->
          r !! "fuel_surcharge" = Some (VStr oc)
          /\ forall d, r !! "charges" = Some (VDict d) -> d !! "fuel_surcharge" = Some oc)
    /\ (re_search TENDER_SUBTOTAL_RE block = None ->
          r !! "tendered_date" = None /\ r !! "subtotal_inr" = None)
    /\ (re_search DIMS_RE block = None ->
          r !! "dims" = None /\ r !! "billed_weight" = None)
    /\ (forall f, f <> Fuel ->
          exists v, resolved f (_slice_charges_section block) = Ok v
                    /\ r !! key_of f = VStr <$> v).
Proof.
  intros Hsv Hwv. unfold parse_block.
  destruct (header_data_spec m sv wv Hsv Hwv)
    as (d0 & -> & Hship & Href & Hoc & Hfu0 & Hch0 & Htr0 & Hds0 & Hdm0 & Hbw0 & Htd0 & Hst0).
  cbn [mbind result_bind].
  destruct (add_dims_spec block d0) as (d1 & -> & Hd1 & Hd1').
  cbn [mbind result_bind].
  destruct (charges_of_spec block) as (tr & ds & fu & Rtr & Rds & Rfu & ->).
  cbn [mbind result_bind].
  set (charges := set_if "fuel_surcharge" fu
                    (set_if "discount" ds (set_if "transportation_charge" tr ∅))).
  destruct (add_charges_spec charges d1) as (d2 & -> & Hk2 & Hd2 & Hc2).
  cbn [mbind result_bind].
  destruct (enforce_fuel_spec d2) as (d3 & -> & Hd3 & Hf3 & Hc3).
  cbn [mbind result_bind].
  destruct (add_tender_spec block d3) as [Ht Ht'].
  exists (add_tender block d3). split; [done|].
  assert (Hother : forall k, k <> "dims" -> k <> "billed_weight" -> k <> "charges" ->
                     (forall f, k <> key_of f) -> k <> "tendered_date" ->
                     k <> "subtotal_inr" -> add_tender block d3 !! k = d0 !! k).
  { intros k ? ? ? Hf ? ?. rewrite Ht, Hd3, Hd2, Hd1; try done. apply (Hf Fuel). }
  split; [rewrite Hother; [done|done..| |done|done]; by intros []|].
  split; [rewrite Hother; [done|done..| |done|done]; by intros []|].
  assert (Hoc3 : d2 !! "other_charges" = Some (of_group (group m "other_charges"))).
  { rewrite Hd2, Hd1; try done. by intros []. }
  split; [rewrite Hother; [done|done..| |done|done]; by intros []|].
  split; [|split; [|split]].
  - intros oc Hg Hne. rewrite Hg in Hoc3. simpl in Hoc3.
    destruct (Hf3 oc Hoc3 Hne) as [H1 H2]. rewrite !Ht by done. by split.
  - intros Hn. rewrite (Ht' Hn).
    assert (Hk : forall k, k = "tendered_date" \/ k = "subtotal_inr" -> d3 !! k = None).
    { intros k Hk. rewrite Hd3, Hd2, Hd1.
      - by destruct Hk as [-> | ->].
      - by destruct Hk as [-> | ->].
      - by destruct Hk as [-> | ->].
      - by destruct Hk as [-> | ->].
      - destruct Hk as [-> | ->]; by intros [].
      - by destruct Hk as [-> | ->].
      - by destruct Hk as [-> | ->]. }
    split; apply Hk; auto.
  - intros Hn. rewrite (Hd1' Hn) in *.
    assert (Hk : forall k, k = "dims" \/ k = "billed_weight" ->
                           add_tender block d3 !! k = None).
    { intros k Hk. rewrite Ht, Hd3, Hd2.
      - by destruct Hk as [-> | ->].
      - by destruct Hk as [-> | ->].
      - destruct Hk as [-> | ->]; by intros [].
      - by destruct Hk as [-> | ->].
      - by destruct Hk as [-> | ->].
      - by destruct Hk as [-> | ->].
      - by destruct Hk as [-> | ->]. }
    split; apply Hk; auto.
  - intros f Hf.
    assert (Hres : exists x, resolve_field f (_slice_charges_section block) = Ok x
                             /\ charges !! key_of f = stored x
                             /\ d1 !! key_of f = None).
    { destruct f; [exists tr | exists ds | done].
      - split; [done|]. split.
        + unfold charges. rewrite !set_if_lookup. simpl.
          repeat (destruct (decide _); try done). by destruct (stored tr).
        + simpl. by rewrite Hd1.
      - split; [done|]. split.
        + unfold charges. rewrite !set_if_lookup. simpl.
          repeat (destruct (decide _); try done).
          destruct (stored ds); [done|]. by destruct (stored tr).
        + simpl. by rewrite Hd1. }
    destruct Hres as (x & Hx & Hcx & Hdx).
    exists (stored x). split; [by apply resolved_stored|].
    rewrite Ht, Hd3, Hk2, Hcx, Hdx; by destruct f.
Qed.

Lemma blocks_from_spec text matches todo :
  forall i,
    (forall m, m ∈ todo ->
       exists sv wv, group m "service" = Some sv /\ group m "weight" = Some wv) ->
    exists recs, blocks_from text matches i todo = Ok recs
      /\ Forall2 (fun m r => exists e, parse_block m (slice text (m_start m) e) = Ok r)
           todo recs.
Proof.
  induction todo as [|m todo IH]; intros i Hg; simpl.
  - exists []. by split.
  - assert (Hend : exists e,
      (if i + 1 <? length matches
       then nxt ← py_index matches (Z.of_nat (i + 1)); mret (m_start nxt)
       else mret (length text)) = Ok e).
    { destruct (Nat.ltb_spec (i + 1) (length matches)) as [Hlt|]; [|by eexists].
      destruct (lookup_lt_is_Some_2 matches (i + 1) Hlt) as [nxt Hn].
      rewrite (py_index_nat _ _ _ Hn). by eexists. }
    destruct Hend as [e ->]. cbn [mbind result_bind].
    destruct (Hg m) as (sv & wv & Hsv & Hwv); [by left|].
    destruct (parse_block_spec m (slice text (m_start m) e) sv wv Hsv Hwv) as (r & Hr & _).
    rewrite Hr. cbn [mbind result_bind].
    destruct (IH (S i)) as (recs & -> & HF).
    { intros m' Hm'. apply Hg. by right. }
    exists (r :: recs). split; [done|]. constructor; [by exists e | done].
Qed.

Lemma header_match_groups text m :
  m ∈ finditer HEADER_RE text ->
  exists sv wv, group m "service" = Some sv /\ group m "weight" = Some wv.
Proof.
  intros Hm.
  destruct (header_group text m "service" Hm eq_refl) as (sv & Hsv & _).
  destruct (header_group text m "weight" Hm eq_refl) as (wv & Hwv & _).
  by exists sv, wv.
Qed.

(** The engine never raises, and its records are those of the blocks of the
    header matches, in order. *)
Lemma parse_blocks_spec text :
  exists recs, parse_blocks text = Ok recs
    /\ Forall2 (fun m r => exists e, parse_block m (slice text (m_start m) e) = Ok r)
         (finditer HEADER_RE text) recs.
Proof. apply blocks_from_spec, header_match_groups. Qed.

Lemma Forall2_impl_elem {A B} (P Q : A -> B -> Prop) (l : list A) (k : list B) :
  Forall2 P l k -> (forall x y, x ∈ l -> P x y -> Q x y) -> Forall2 Q l k.
Proof.
  induction 1 as [|x y l k HP HF IH]; intros HPQ; constructor.
  - apply HPQ; [by left | done].
  - apply IH. intros x' y' Hx'. apply HPQ. by right.
Qed.

(** C1.  The engine returns one record per header match, in the order of
    the matches, which is the order of their offsets in the document, and the
    [shipment] of each record is the shipment id its header match captured;
    with no header match it returns no record. *)
Theorem one_record_per_header text :
  exists recs, parse_blocks text = Ok recs
    /\ length recs = length (finditer HEADER_RE text)
    /\ StronglySorted (fun m1 m2 => m_start m1 < m_start m2) (finditer HEADER_RE text)
    /\ Forall2 (fun m r => exists id, group m "shipment" = Some id
                                      /\ r !! "shipment" = Some (VStr id))
         (finditer HEADER_RE text) recs
    /\ (finditer HEADER_RE text = [] -> recs = []).
Proof.
  destruct (parse_blocks_spec text) as (recs & Hrecs & HF).
  exists recs. split; [done|]. split; [symmetry; by eapply Forall2_length|].
  split; [apply finditer_sound|].
  split.
  - eapply Forall2_impl_elem; [exact HF|]. intros m r Hm [e Hr]. simpl in Hr.
    destruct (header_match_groups text m Hm) as (sv & wv & Hsv & Hwv).
    destruct (parse_block_spec m (slice text (m_start m) e) sv wv Hsv Hwv)
      as (r' & Hr' & Hship & _).
    rewrite Hr in Hr'. inversion Hr'; subst r'.
    destruct (header_group text m "shipment" Hm eq_refl) as (id & Hid & _).
    exists id. split; [done|]. by rewrite Hship, Hid.
  - intros Hnil. rewrite Hnil in HF. by inversion HF.
Qed.

Lemma parse_blocks_record text recs r :
  parse_blocks text = Ok recs -> r ∈ recs ->
  exists m e, m ∈ finditer HEADER_RE text
              /\ parse_block m (slice text (m_start m) e) = Ok r.
Proof.
  intros Hrecs Hr. destruct (parse_blocks_spec text) as (recs' & Hrecs' & HF).
  rewrite Hrecs in Hrecs'. inversion Hrecs'; subst recs'.
  apply list_elem_of_lookup in Hr as [i Hi].
  destruct (Forall2_lookup_r _ _ _ _ _ HF Hi) as (m & Hm & e & He).
  exists m, e. split; [by eapply list_elem_of_lookup_2 | done].
Qed.

(** C2.  In every record of the engine, when [other_charges] is present (a
    string that is not empty), [fuel_surcharge] is that same string, and so is
    the [fuel_surcharge] entry of the nested [charges] mapping when the record
    has one, whatever the charges table printed. *)
Theorem fuel_surcharge_override text recs r oc :
  parse_blocks text = Ok recs -> r ∈ recs ->
  r !! "other_charges" = Some (VStr oc) -> oc <> [] ->
  r !! "fuel_surcharge" = Some (VStr oc)
  /\ forall d, r !! "charges" = Some (VDict d) -> d !! "fuel_surcharge" = Some oc.
Proof.
  intros Hrecs Hr Hoc Hne.
  destruct (parse_blocks_record _ _ _ Hrecs Hr) as (m & e & Hm & He).
  destruct (header_match_groups text m Hm) as (sv & wv & Hsv & Hwv).
  destruct (parse_block_spec m (slice text (m_start m) e) sv wv Hsv Hwv)
    as (r' & Hr' & _ & _ & Hoc' & Hfuel & _).
  rewrite He in Hr'. inversion Hr'; subst r'.
  rewrite Hoc in Hoc'. destruct (group m "other_charges") as [oc'|] eqn:Eg; [|done].
  inversion Hoc'; subst oc'. by apply Hfuel.
Qed.

Lemma sample_invoice_other_charges :
  project ["other_charges"] (parse_blocks sample_invoice)
  = Ok [[Some (VStr (txt "210.00"))]].
Proof. by vm_compute. Qed.

Lemma fuel_surcharge_override_witness :
  exists recs r,
    parse_blocks sample_invoice = Ok recs /\ r ∈ recs
    /\ r !! "fuel_surcharge" = Some (VStr (txt "210.00"))
    /\ forall d, r !! "charges" = Some (VDict d) ->
                 d !! "fuel_surcharge" = Some (txt "210.00").
Proof.
  pose proof sample_invoice_other_charges as H.
  destruct (parse_blocks sample_invoice) as [[|r [|r' l]]|] eqn:E; try discriminate H.
  simpl in H. injection H as H.
  exists [r], r. split; [reflexivity|]. split; [by left|].
  apply (fuel_surcharge_override sample_invoice [r] r (txt "210.00") E);
    [by left | exact H | discriminate].
Defined.

(** C10.  Every record of the engine has the key [fuel_surcharge], equal to
    the [other_charges] its header match captured, which is never empty; so
    does the record of a block without charges table, which has neither
    [transportation_charge] nor [discount]. *)
Theorem fuel_surcharge_always_present :
  (forall text,
     exists recs, parse_blocks text = Ok recs
       /\ Forall2 (fun m r => exists oc,
                     group m "other_charges" = Some oc /\ oc <> []
                     /\ r !! "other_charges" = Some (VStr oc)
                     /\ r !! "fuel_surcharge" = Some (VStr oc))
            (finditer HEADER_RE text) recs)
  /\ project ["fuel_surcharge"; "transportation_charge"; "discount"]
       (parse_blocks header_only)
     = Ok [[Some (VStr (txt "210.00")); None; None]].
Proof.
  split.
  - intros text. destruct (parse_blocks_spec text) as (recs & Hrecs & HF).
    exists recs. split; [done|].
    eapply Forall2_impl_elem; [exact HF|]. intros m r Hm [e Hr]. simpl in Hr.
    destruct (header_match_groups text m Hm) as (sv & wv & Hsv & Hwv).
    destruct (parse_block_spec m (slice text (m_start m) e) sv wv Hsv Hwv)
      as (r' & Hr' & _ & _ & Hoc & Hfuel & _).
    rewrite Hr in Hr'. inversion Hr'; subst r'.
    destruct (header_group text m "other_charges" Hm eq_refl) as (oc & Hg & Hne).
    exists oc. rewrite Hoc, Hg. repeat split; try done. by apply Hfuel.
  - by vm_compute.
Qed.

(** C8.  On every text the engine returns a list of records and raises
    nothing.  With no header match the list is empty.  For the block of each
    header match: without tender pattern the record has neither
    [tendered_date] nor [subtotal_inr]; without dimensions line it has neither
    [dims] nor [billed_weight]; a charge for which no strategy finds a value
    is absent from the record; and a charges section without end marker runs
    to the end of the block. *)
Theorem parse_blocks_never_raises text :
  exists recs, parse_blocks text = Ok recs
    /\ (finditer HEADER_RE text = [] -> recs = [])
    /\ Forall2 (fun m r => exists e,
         let block := slice text (m_start m) e in
         (re_search TENDER_SUBTOTAL_RE block = None ->
            r !! "tendered_date" = None /\ r !! "subtotal_inr" = None)
         /\ (re_search DIMS_RE block = None ->
            r !! "dims" = None /\ r !! "billed_weight" = None)
         /\ (forall f, f <> Fuel ->
               resolved f (_slice_charges_section block) = Ok None ->
               r !! key_of f = None)
         /\ (forall s, first_occurrence (txt "charges") (lower block) 0 s ->
               (forall j, s + 7 <= j -> marker_at (lower block) j = false) ->
               _slice_charges_section block = drop s block))
         (finditer HEADER_RE text) recs.
Proof.
  destruct (parse_blocks_spec text) as (recs & Hrecs & HF).
  exists recs. split; [done|]. split.
  { intros Hnil. rewrite Hnil in HF. by inversion HF. }
  eapply Forall2_impl_elem; [exact HF|]. intros m r Hm [e Hr]. simpl in Hr.
  destruct (header_match_groups text m Hm) as (sv & wv & Hsv & Hwv).
  destruct (parse_block_spec m (slice text (m_start m) e) sv wv Hsv Hwv)
    as (r' & Hr' & _ & _ & _ & _ & Htender & Hdims & Hres).
  rewrite Hr in Hr'. inversion Hr'; subst r'.
  exists e. cbv zeta. split; [done|]. split; [done|]. split.
  - intros f Hf Hnone. destruct (Hres f Hf) as (v & Hv & Hkey).
    rewrite Hnone in Hv. inversion Hv; subst v. by rewrite Hkey.
  - intros s. apply slice_charges_no_marker.
Qed.

(** ** Decimal values of the tokens *)

Lemma digit_not_punct a :
  is_digit a = true ->
  chr_eqb a "-" = false /\ chr_eqb a "+" = false
  /\ chr_eqb a "," = false /\ chr_eqb a "." = false.
Proof.
  destruct a as [[] [] [] [] [] [] [] []]; vm_compute; intros H; try discriminate H;
    by repeat split.
Qed.

Lemma span_digits_all ds rest :
  forallb is_digit ds = true ->
  match rest with [] => True | a :: _ => is_digit a = false end ->
  span_digits (ds ++ rest) = (map digit_val ds, rest).
Proof.
  intros Hds Hrest. induction ds as [|d ds IH]; simpl.
  - destruct rest as [|a rest]; [done|]. simpl. by rewrite Hrest.
  - simpl in Hds. apply andb_true_iff in Hds as [Hd Hds].
    rewrite Hd, (IH Hds). done.
Qed.

Lemma Decimal_value sign body frac :
  sign = [] \/ sign = txt "-" ->
  forallb is_digit body = true -> forallb is_digit frac = true -> frac <> [] ->
  Decimal (sign ++ body ++ "."%char :: frac)
  = Ok (mkDec (bool_decide (sign = txt "-"))
              (strip_zeros (map digit_val body ++ map digit_val frac))
              (- Z.of_nat (length frac))).
Proof.
  intros Hsign Hbody Hfrac Hne.
  assert (Hspan : span_digits (body ++ "."%char :: frac)
                  = (map digit_val body, "."%char :: frac))
    by (by apply span_digits_all).
  assert (Hspan' : span_digits frac = (map digit_val frac, [])).
  { rewrite <- (app_nil_r frac) at 1. by apply span_digits_all. }
  assert (Hrest : forall neg,
      (let '(ip, s2) := span_digits (body ++ "."%char :: frac) in
       let '(fp, s3) :=
         match s2 with
         | a :: s' => if chr_eqb a "." then span_digits s' else ([], s2)
         | [] => ([], s2)
         end in
       match s3, ip ++ fp with
       | [], _ :: _ => Ok (mkDec neg (strip_zeros (ip ++ fp)) (- Z.of_nat (length fp)))
       | _, _ => Raise InvalidOperation
       end)
      = Ok (mkDec neg (strip_zeros (map digit_val body ++ map digit_val frac))
                  (- Z.of_nat (length frac)))).
  { intros neg. rewrite Hspan. simpl. rewrite Hspan'.
    destruct frac as [|f frac]; [done|].
    destruct (map digit_val body ++ map digit_val (f :: frac)) eqn:E.
    - apply app_eq_nil in E as [_ E]. done.
    - by rewrite length_map. }
  unfold Decimal. destruct Hsign as [-> | ->].
  - simpl app. destruct body as [|a body].
    + simpl app in *. apply (Hrest false).
    + simpl in Hbody. apply andb_true_iff in Hbody as [Ha _].
      destruct (digit_not_punct a Ha) as (H1 & H2 & _).
      simpl app in *. cbv beta iota. rewrite H1, H2. apply (Hrest false).
  - apply (Hrest true).
Qed.

Lemma Decimal_ok sign body frac :
  sign = [] \/ sign = txt "-" ->
  forallb is_digit body = true -> forallb is_digit frac = true -> frac <> [] ->
  exists d, Decimal (sign ++ body ++ "."%char :: frac) = Ok d.
Proof. intros. eexists. by apply Decimal_value. Qed.

Lemma num_token_shape b w c b' c' :
  exec NUM_RE b w c b' c' ->
  exists sign body frac,
    w = sign ++ body ++ "."%char :: frac
    /\ (sign = [] \/ sign = txt "-")
    /\ forallb digit_or_comma body = true
    /\ forallb is_digit frac = true /\ frac <> [].
Proof.
  unfold NUM_RE, Opt, Plus, ds, lit. simpl seqs. intros H.
  apply exec_seq_inv in H as (w1 & w2 & b1 & c1 & -> & H1 & H).
  apply exec_seq_inv in H as (w3 & w4 & b2 & c2 & -> & H2 & H).
  apply exec_seq_inv in H as (w5 & w6 & b3 & c3 & -> & H3 & H4).
  apply exec_seq_inv in H2 as (x1 & x2 & ? & ? & -> & Hx1 & Hx2).
  apply exec_chr_inv in Hx1 as (a & -> & Ha & _).
  apply exec_star_inv in Hx2 as [Hx2 _].
  apply exec_chr_inv in H3 as (dot & -> & Hdot & _).
  apply Ascii.eqb_eq in Hdot as <-.
  apply exec_seq_inv in H4 as (y1 & y2 & ? & ? & -> & Hy1 & Hy2).
  apply exec_chr_inv in Hy1 as (d & -> & Hd & _).
  apply exec_star_inv in Hy2 as [Hy2 _].
  exists w1, (a :: x2), (d :: y2). split; [done|]. split.
  - apply exec_alt_inv in H1 as [H1|H1].
    + apply exec_chr_inv in H1 as (m & -> & Hm & _).
      apply Ascii.eqb_eq in Hm as <-. by right.
    + apply exec_eps_inv in H1 as [-> _]. by left.
  - simpl. by rewrite Ha, Hx2, Hd, Hy2.
Qed.

Lemma filter_commas_digits body :
  forallb digit_or_comma body = true ->
  forallb is_digit (filter (fun a => negb (chr_eqb a ",")) body) = true.
Proof.
  induction body as [|a body IH]; [done|]. simpl. intros H.
  apply andb_true_iff in H as [Ha H]. rewrite filter_cons.
  destruct (decide (negb (chr_eqb a ","))) as [Hc|Hc]; [|by apply IH].
  simpl. rewrite (IH H). unfold digit_or_comma in Ha.
  destruct (chr_eqb a ","); [done|]. by rewrite orb_false_r in Ha; rewrite Ha.
Qed.

Lemma filter_commas_id frac :
  forallb is_digit frac = true ->
  filter (fun a => negb (chr_eqb a ",")) frac = frac.
Proof.
  induction frac as [|a frac IH]; [done|]. simpl. intros H.
  apply andb_true_iff in H as [Ha H]. rewrite filter_cons.
  destruct (digit_not_punct a Ha) as (_ & _ & Hc & _).
  rewrite decide_True by (by rewrite Hc). by rewrite (IH H).
Qed.

Lemma to_decimal_ok b w c b' c' :
  exec NUM_RE b w c b' c' -> exists d, to_decimal w = Ok d.
Proof.
  intros H. apply num_token_shape in H
    as (sign & body & frac & -> & Hsign & Hbody & Hfrac & Hne).
  unfold to_decimal. rewrite !filter_app, filter_cons.
  rewrite decide_True by done. rewrite (filter_commas_id frac Hfrac).
  assert (Hs : filter (fun a => negb (chr_eqb a ",")) sign = sign)
    by (by destruct Hsign as [-> | ->]).
  rewrite Hs. apply Decimal_ok; try done. by apply filter_commas_digits.
Qed.

Lemma strip_zeros_length l : length (strip_zeros l) <= length l.
Proof.
  induction l as [|[|d] l IH]; simpl; [done| |done]. lia.
Qed.

(** The decimal of a token: no more digits than the token has characters. *)
Lemma to_decimal_size b w c b' c' :
  exec NUM_RE b w c b' c' ->
  exists d, to_decimal w = Ok d
    /\ length (d_digits d) <= length w
    /\ (- Z.of_nat (length w) <= d_exp d <= 0)%Z.
Proof.
  intros H. apply num_token_shape in H
    as (sign & body & frac & -> & Hsign & Hbody & Hfrac & Hne).
  unfold to_decimal. rewrite !filter_app, filter_cons.
  rewrite decide_True by done. rewrite (filter_commas_id frac Hfrac).
  assert (Hs : filter (fun a => negb (chr_eqb a ",")) sign = sign)
    by (by destruct Hsign as [-> | ->]).
  rewrite Hs.
  rewrite (Decimal_value sign _ frac Hsign (filter_commas_digits body Hbody) Hfrac Hne).
  eexists. split; [done|]. simpl.
  pose proof (length_filter (fun a => negb (chr_eqb a ",")) body) as Hf.
  pose proof (strip_zeros_length
                (map digit_val (filter (fun a => negb (chr_eqb a ",")) body)
                 ++ map digit_val frac)) as Hz.
  rewrite length_app, !length_map in Hz.
  rewrite !length_app. simpl. lia.
Qed.

Lemma digits_val_nonneg l : (0 <= digits_val l)%Z.
Proof.
  unfold digits_val.
  assert (H : forall acc, (0 <= acc)%Z ->
            (0 <= fold_left (fun acc d => 10 * acc + Z.of_nat d) l acc)%Z).
  { induction l as [|d l IH]; intros acc Hacc; simpl; [done|]. apply IH. lia. }
  by apply H.
Qed.

(** With at most 28 digits and an exponent within the limits [abs] neither
    rounds nor raises. *)
Lemma dec_abs_exact d :
  length (d_digits d) <= prec -> (Etiny <= d_exp d <= 0)%Z ->
  exists a, dec_abs d = Ok a /\ dec_value a = Qabs (dec_value d).
Proof.
  intros Hlen Hexp. exists (mkDec false (d_digits d) (d_exp d)). split.
  - unfold dec_abs, dec_fix. cbn [d_digits d_exp d_neg].
    assert (HE : (Etiny = -1000026 /\ Etop = 999972 /\ Emax = 999999)%Z) by done.
    destruct HE as (HEtiny & HEtop & HEmax).
    assert (Hp : Z.of_nat prec = 28%Z) by done.
    assert (Hn : (Z.of_nat (length (d_digits d)) <= 28)%Z) by (unfold prec in Hlen; lia).
    destruct (d_digits d) as [|x l] eqn:E.
    + cbn [mret result_ret]. do 2 f_equal. lia.
    + cbv zeta. rewrite Hp.
      destruct (Z.ltb_spec Etop (Z.of_nat (length (x :: l)) + d_exp d - 28))
        as [Hov|_]; [lia|].
      destruct (Z.ltb_spec (d_exp d)
                  (Z.max (Z.of_nat (length (x :: l)) + d_exp d - 28) Etiny))
        as [Hr|_]; [lia|done].
  - unfold dec_value. simpl. pose proof (digits_val_nonneg (d_digits d)) as Hnn.
    destruct (0 <=? d_exp d)%Z eqn:Ee.
    + apply Z.leb_le in Ee. unfold inject_Z, Qabs. f_equal.
      assert (0 <= 10 ^ d_exp d)%Z by (apply Z.pow_nonneg; lia).
      destruct (d_neg d); lia.
    + unfold Qabs. f_equal. destruct (d_neg d); lia.
Qed.

(** The key of a token of at most 28 characters is its absolute value. *)
Lemma abs_key_short b w c b' c' :
  exec NUM_RE b w c b' c' -> length w <= prec ->
  exists d, to_decimal w = Ok d /\ abs_key w = Ok (Qabs (dec_value d)).
Proof.
  intros He Hlen.
  destruct (to_decimal_size _ _ _ _ _ He) as (d & Hd & Hn & Hexp).
  assert (HE : Etiny = (-1000026)%Z) by done.
  assert (Hp : prec = 28) by done.
  destruct (dec_abs_exact d) as (a & Ha & Hv); [lia|lia|].
  exists d. split; [done|]. unfold abs_key.
  rewrite Hd. cbn [mbind result_bind]. rewrite Ha. cbn [mbind result_bind].
  by rewrite <- Hv.
Qed.

(** ** The windowed search *)

Lemma Qltb_true x y : Qltb x y = true -> (x <= y)%Q.
Proof.
  unfold Qltb. intros H. apply negb_true_iff in H.
  apply Qlt_le_weak, Qnot_le_lt. intros Hle.
  apply Qle_bool_iff in Hle. congruence.
Qed.

Lemma Qltb_false x y : Qltb x y = false -> (y <= x)%Q.
Proof.
  unfold Qltb. intros H. apply negb_false_iff in H. by apply Qle_bool_iff.
Qed.

Lemma max_from_spec {A} (l : list (A * Q)) :
  forall best,
    max_from best l ∈ best :: l
    /\ forall x, x ∈ best :: l -> (snd x <= snd (max_from best l))%Q.
Proof.
  induction l as [|y l IH]; intros best; simpl.
  - split; [by left|]. intros x Hx. apply list_elem_of_singleton in Hx as ->.
    apply Qle_refl.
  - destruct (Qltb (snd best) (snd y)) eqn:E.
    + destruct (IH y) as [Hin Hmax]. split; [by right|].
      intros x Hx. apply elem_of_cons in Hx as [->|Hx]; [|by apply Hmax].
      eapply Qle_trans; [by apply Qltb_true|]. apply Hmax. by left.
    + destruct (IH best) as [Hin Hmax]. split.
      * apply elem_of_cons in Hin as [->|Hin]; [by left | by right; right].
      * intros x Hx. apply elem_of_cons in Hx as [->|Hx]; [apply Hmax; by left|].
        apply elem_of_cons in Hx as [->|Hx]; [|apply Hmax; by right].
        eapply Qle_trans; [by apply Qltb_false|]. apply Hmax. by left.
Qed.

Lemma keyed_ok {A} (key : A -> result Q) (l : list A) :
  (forall x, x ∈ l -> exists q, key x = Ok q) ->
  exists keyed,
    mapM (fun x => k ← key x; mret (x, k)) l = Ok keyed
    /\ map fst keyed = l
    /\ forall p, p ∈ keyed -> key (fst p) = Ok (snd p).
Proof.
  induction l as [|x l IH]; intros Hkey; simpl.
  - exists []. repeat split. intros p Hp. by apply elem_of_nil in Hp.
  - destruct (Hkey x) as [q Hq]; [by left|]. rewrite Hq. cbn [mbind result_bind].
    destruct IH as (keyed & -> & Hfst & Hk).
    { intros y Hy. apply Hkey. by right. }
    exists ((x, q) :: keyed). split; [done|]. split; [simpl; by rewrite Hfst|].
    intros p Hp. apply elem_of_cons in Hp as [->|Hp]; [done | by apply Hk].
Qed.

Lemma py_max_by_spec {A} (key : A -> result Q) (l : list A) :
  l <> [] -> (forall x, x ∈ l -> exists q, key x = Ok q) ->
  exists best qb,
    py_max_by key l = Ok best /\ best ∈ l /\ key best = Ok qb
    /\ forall x, x ∈ l -> exists q, key x = Ok q /\ (q <= qb)%Q.
Proof.
  intros Hne Hkey. unfold py_max_by.
  destruct (keyed_ok key l Hkey) as (keyed & -> & Hfst & Hk).
  cbn [mbind result_bind].
  destruct keyed as [|p ps]; [by subst l|].
  destruct (max_from_spec ps p) as [Hin Hmax].
  exists (fst (max_from p ps)), (snd (max_from p ps)).
  split; [done|]. split; [|split].
  - rewrite <- Hfst. apply list_elem_of_In, in_map. by apply list_elem_of_In.
  - by apply Hk.
  - intros x Hx. rewrite <- Hfst in Hx.
    apply list_elem_of_In, in_map_iff in Hx as (p' & <- & Hp').
    apply list_elem_of_In in Hp'. exists (snd p'). split; [by apply Hk | by apply Hmax].
Qed.

Lemma near_candidates_ok lines idx line window :
  idx < length lines ->
  near_candidates lines idx line window = Ok (near_window lines idx line window).
Proof.
  intros Hidx. unfold near_candidates, near_window.
  rewrite (mapM_ok (next_line lines idx) (next_of lines idx)) by apply next_line_ok.
  cbn [mbind result_bind].
  rewrite (mapM_ok (prev_line lines idx) (prev_of lines idx))
    by (intros; by apply prev_line_ok).
  done.
Qed.

(** The candidates, read line by line. *)
Lemma numbers_in_segment_iff L x :
  x ∈ _numbers_in_segment L <->
  exists m, m ∈ finditer NUM_RE L
    /\ dirty_at L (m_start m) (length (m_text m)) = false /\ x = m_text m.
Proof.
  unfold _numbers_in_segment, tokens_in.
  destruct (finditer_sound NUM_RE L) as [HF _]. rewrite Forall_forall in HF.
  rewrite list_elem_of_fmap. split.
  - intros (m & -> & Hm). apply list_elem_of_filter in Hm as [Hex Hm].
    destruct (HF m Hm) as (_ & Hend & _).
    exists m. by rewrite <- excluded_dirty_at.
  - intros (m & Hm & Hd & ->). exists m. split; [done|].
    apply list_elem_of_filter. split; [|done].
    destruct (HF m Hm) as (_ & Hend & _). by rewrite excluded_dirty_at.
Qed.

Lemma concat_numbers_iff (g : nat -> option str) js x :
  x ∈ concat (map numbers_of (map g js)) <->
  exists j L, j ∈ js /\ g j = Some L /\ x ∈ _numbers_in_segment L.
Proof.
  rewrite list_elem_of_In, in_concat. split.
  - intros (l & Hl & Hx). apply in_map_iff in Hl as (o & <- & Ho).
    apply in_map_iff in Ho as (j & <- & Hj).
    destruct (g j) as [L|] eqn:E; [|done].
    exists j, L. by rewrite !list_elem_of_In.
  - intros (j & L & Hj & Hg & Hx). exists (_numbers_in_segment L). split.
    + apply in_map_iff. exists (Some L). split; [done|].
      apply in_map_iff. exists j. by rewrite <- list_elem_of_In.
    + by apply list_elem_of_In.
Qed.

Lemma near_window_iff lines idx line window x :
  lines !! idx = Some line ->
  x ∈ near_window lines idx line window <->
  exists j L,
    j <= window
    /\ (lines !! (idx + j) = Some L \/ (j <= idx /\ lines !! (idx - j) = Some L))
    /\ x ∈ _numbers_in_segment L.
Proof.
  intros Hline. unfold near_window.
  rewrite !elem_of_app, !concat_numbers_iff. split.
  - intros [H|[(j & L & Hj & Hg & Hx)|(j & L & Hj & Hg & Hx)]].
    + exists 0, line. rewrite Nat.add_0_r. split_and!; [lia|by left|done].
    + apply elem_of_seq in Hj. exists j, L. split_and!; [lia|by left|done].
    + apply elem_of_seq in Hj. unfold prev_of in Hg.
      destruct (Nat.leb_spec j idx); [|done].
      exists j, L. split_and!; [lia|by right|done].
  - intros (j & L & Hj & HL & Hx).
    destruct (decide (j = 0)) as [->|Hne].
    + left. rewrite Nat.add_0_r, Nat.sub_0_r in HL.
      assert (L = line) as -> by (destruct HL as [HL|[_ HL]]; congruence). done.
    + right. destruct HL as [HL|[Hle HL]].
      * left. exists j, L. split_and!; [apply elem_of_seq; lia|done|done].
      * right. exists j, L. split_and!; [apply elem_of_seq; lia| |done].
        unfold prev_of. by destruct (Nat.leb_spec j idx); [|lia].
Qed.

Lemma near_window_token lines idx line window x :
  x ∈ near_window lines idx line window ->
  exists b b' c', exec NUM_RE b x ∅ b' c'.
Proof.
  unfold near_window. rewrite !elem_of_app, !concat_numbers_iff.
  intros H.
  assert (HL : exists L, x ∈ _numbers_in_segment L).
  { destruct H as [H|[(j & L & _ & _ & H)|(j & L & _ & _ & H)]]; by eexists. }
  destruct HL as [L Hx]. apply numbers_in_segment_iff in Hx as (m & Hm & _ & ->).
  destruct (finditer_sound NUM_RE L) as [HF _]. rewrite Forall_forall in HF.
  destruct (HF m Hm) as (_ & _ & _ & _ & b & b' & He). by exists b, b', (m_groups m).
Qed.

Lemma near_window_short_key lines idx line window :
  Forall (fun c => length c <= prec) (near_window lines idx line window) ->
  forall x, x ∈ near_window lines idx line window ->
    exists d, to_decimal x = Ok d /\ abs_key x = Ok (Qabs (dec_value d)).
Proof.
  intros Hshort x Hx. rewrite Forall_forall in Hshort.
  destruct (near_window_token _ _ _ _ _ Hx) as (b & b' & c' & He).
  eapply abs_key_short; [exact He | by apply Hshort].
Qed.

(** C6, amended.  On text of characters below U+0100, the windowed search
    [_find_amount_near_label], which the engine does not call, takes as
    candidates the matches of [NUM_RE], with no percent sign and no [kg] in
    the three characters before or after them, in the label's line and in
    up to [window] lines after and before it.  Without a line that holds the label, or without a candidate, it
    returns nothing.  When every candidate has at most 28 characters it
    returns a candidate whose absolute value is the largest of all
    candidates.  With 50.00, -999.00 and 75.00 on the lines below the
    label it returns ["-999.00"]. *)
Theorem windowed_largest_absolute_value :
  (forall text label window,
     match first_label_line (lower label) (splitlines text) 0 with
     | None => _find_amount_near_label text label window = Ok None
     | Some (idx, line, _) =>
         let lines := splitlines text in
         let candidate c :=
           exists j L m,
             j <= window
             /\ (lines !! (idx + j) = Some L \/ (j <= idx /\ lines !! (idx - j) = Some L))
             /\ m ∈ finditer NUM_RE L
             /\ dirty_at L (m_start m) (length (m_text m)) = false
             /\ c = m_text m in
         ((forall c, ~ candidate c) ->
            _find_amount_near_label text label window = Ok None)
         /\ (forall c0, candidate c0 ->
               (forall c, candidate c -> length c <= prec) ->
               exists best db,
                 _find_amount_near_label text label window = Ok (Some best)
                 /\ candidate best /\ to_decimal best = Ok db
                 /\ forall c, candidate c ->
                      exists dc, to_decimal c = Ok dc
                        /\ (Qabs (dec_value dc) <= Qabs (dec_value db))%Q)
     end)
  /\ _find_amount_near_label (txt "Discount
50.00
-999.00
75.00") (txt "Discount") 3 = Ok (Some (txt "-999.00")).
Proof.
  split; [|by vm_compute].
  intros text label window. unfold _find_amount_near_label.
  destruct (first_label_line (lower label) (splitlines text) 0)
    as [[[idx line] pos]|] eqn:Ef; [|done].
  apply first_label_line_sound in Ef as (_ & Hline & _ & _).
  rewrite Nat.sub_0_r in Hline. pose proof (lookup_lt_Some _ _ _ Hline) as Hidx.
  rewrite (near_candidates_ok _ _ _ _ Hidx). cbn [mbind result_bind]. cbv zeta.
  set (cands := near_window (splitlines text) idx line window).
  assert (Hc : forall c, c ∈ cands <->
            exists j L m,
              j <= window
              /\ (splitlines text !! (idx + j) = Some L
                  \/ (j <= idx /\ splitlines text !! (idx - j) = Some L))
              /\ m ∈ finditer NUM_RE L
              /\ dirty_at L (m_start m) (length (m_text m)) = false
              /\ c = m_text m).
  { intros c. unfold cands. rewrite (near_window_iff _ _ _ _ _ Hline). split.
    - intros (j & L & Hj & HL & Hx).
      apply numbers_in_segment_iff in Hx as (m & Hm & Hd & ->). by exists j, L, m.
    - intros (j & L & m & Hj & HL & Hm & Hd & ->). exists j, L.
      split_and!; [done|done|]. apply numbers_in_segment_iff. by exists m. }
  split.
  - intros Hno. destruct cands as [|c l] eqn:E; [done|].
    destruct (Hno c). apply Hc. by left.
  - intros c0 Hc0 Hshort.
    assert (Hne : cands <> []).
    { apply Hc in Hc0. intros E. rewrite E in Hc0. by apply elem_of_nil in Hc0. }
    assert (Hall : Forall (fun c => length c <= prec) cands).
    { apply Forall_forall. intros c Hin. by apply Hshort, Hc. }
    assert (Hkey : forall x, x ∈ cands ->
              exists d, to_decimal x = Ok d /\ abs_key x = Ok (Qabs (dec_value d)))
      by apply (near_window_short_key _ _ _ _ Hall).
    destruct (py_max_by_spec abs_key cands Hne) as (best & kb & Hbest & Hin & Hkb & Hmax).
    { intros x Hx. destruct (Hkey x Hx) as (d & _ & Hd). by eexists. }
    destruct (Hkey best Hin) as (db & Hdb & Hkb').
    rewrite Hkb in Hkb'. injection Hkb' as ->.
    exists best, db. destruct cands as [|c l] eqn:E; [done|].
    rewrite Hbest. cbn [mbind result_bind]. split_and!; [done|by apply Hc|done|].
    intros c1 Hc1. apply Hc in Hc1.
    destruct (Hkey c1 Hc1) as (dc & Hdc & Hkc).
    destruct (Hmax c1 Hc1) as (q & Hq & Hle).
    rewrite Hkc in Hq. injection Hq as <-. by exists dc.
Qed.

(** C6 as stated fails in the engine: with the amounts 50.00, -999.00 and
    75.00 on the lines under the label and no number on the label's line,
    the resolver gives ["50.00"], the number that the nearest line starts
    with, and so does the record of a whole document; ["-999.00"] is what
    the windowed search would give. *)
Lemma engine_resolves_the_nearest_line :
  resolved Discount (txt "Discount
50.00
-999.00
75.00") = Ok (Some (txt "50.00"))
  /\ project ["discount"] (parse_blocks column_invoice)
     = Ok [[Some (VStr (txt "50.00"))]]
  /\ _find_amount_near_label (txt "Discount
50.00
-999.00
75.00") (txt "Discount") 3 = Ok (Some (txt "-999.00")).
Proof. by vm_compute. Qed.

(** ** Lookup by reference *)

Lemma lookup_answers reference text :
  exists recs, parse_blocks text = Ok recs /\
    let hits := filter (fun b => has_reference reference b = true) recs in
    (hits = [] ->
       fedex_by_reference reference text = Ok (NotFound reference)
       /\ main_ref reference text = Ok (Many [], 0))
    /\ (forall r, hits = [r] ->
       fedex_by_reference reference text = Ok (One r)
       /\ main_ref reference text = Ok (One r, 0))
    /\ (2 <= length hits ->
       fedex_by_reference reference text = Ok (Many hits)
       /\ main_ref reference text = Ok (Many hits, 0)).
Proof.
  destruct (parse_blocks_spec text) as (recs & Hrecs & _).
  exists recs. split; [done|]. cbv zeta.
  unfold fedex_by_reference, main_ref. rewrite Hrecs. cbn [mbind result_bind].
  split; [|split].
  - by intros ->.
  - by intros r ->.
  - intros Hlen.
    destruct (filter (fun b => has_reference reference b = true) recs)
      as [|x [|y l]] eqn:E; simpl in Hlen; [lia | lia | done].
Qed.

(** C9.  Asked for a reference that no record of the sample invoice carries,
    the [--ref] branch of [main] prints the empty list and exits with status
    0, where the HTTP lookup answers with the not-found error. *)
Theorem cli_lookup_not_found :
  main_ref (txt "NOPE") sample_invoice = Ok (Many [], 0)
  /\ fedex_by_reference (txt "NOPE") sample_invoice = Ok (NotFound (txt "NOPE")).
Proof. by vm_compute. Qed.

(** ** Context of a token in its whole line *)

Lemma starts_with_iff sub s :
  starts_with sub s = true <-> exists post, s = sub ++ post.
Proof.
  revert s. induction sub as [|a sub IH]; intros s; simpl.
  - split; [by exists s | done].
  - destruct s as [|b s]; [split; [done | by intros [? ?]]|].
    rewrite andb_true_iff, IH. unfold chr_eqb. rewrite Ascii.eqb_eq. split.
    + intros [-> [post ->]]. by exists post.
    + intros [post [= -> ->]]. split; [done | by exists post].
Qed.

Lemma contains_iff sub s :
  contains sub s = true <-> exists pre post, s = pre ++ sub ++ post.
Proof.
  unfold contains. split.
  - destruct (find s sub 0) as [i|] eqn:E; [|done]. intros _.
    apply find_Some in E as (_ & E & _). unfold occurs_at in E.
    apply andb_true_iff in E as [_ E]. apply starts_with_iff in E as [post E].
    exists (take i s), post. by rewrite <- E, take_drop.
  - intros (pre & post & ->).
    destruct (find (pre ++ sub ++ post) sub 0) as [i|] eqn:E; [done|].
    pose proof (find_None _ _ _ (length pre) E ltac:(lia)) as Hn.
    unfold occurs_at in Hn. rewrite drop_app_length in Hn.
    assert (Hs : starts_with sub (sub ++ post) = true)
      by (apply starts_with_iff; by exists post).
    rewrite Hs, andb_true_r in Hn. apply Nat.leb_gt in Hn.
    rewrite length_app in Hn. lia.
Qed.







Lemma lower_app X Y : lower (X ++ Y) = lower X ++ lower Y.
Proof. apply map_app. Qed.

Lemma lower_take k s : lower (take k s) = take k (lower s).
Proof. unfold lower. symmetry. apply firstn_map. Qed.

Lemma lower_drop k s : lower (drop k s) = drop k (lower s).
Proof. unfold lower. symmetry. apply skipn_map. Qed.























Lemma slice_short (s : str) i n tok :
  length s <= i -> tok <> [] -> slice s i (i + n) <> tok.
Proof.
  intros Hi Hne. unfold slice. rewrite drop_ge by done.
  rewrite take_nil. by destruct tok.
Qed.

(** The pattern rules keep a percentage: on ["Discount 5.00%"] they resolve
    [discount] to ["5.00"], whose only occurrence is followed by the percent
    sign. *)
Lemma pattern_rule_keeps_percentage :
  ~ (forall text f tok,
       resolved f text = Ok (Some tok) -> clean_occurrence text tok).
Proof.
  intros H.
  destruct (H (txt "Discount 5.00%") Discount (txt "5.00")) as (line & i & Hin & Hs & Hd).
  { by vm_compute. }
  assert (line = txt "Discount 5.00%") as ->.
  { vm_compute in Hin. by apply list_elem_of_singleton in Hin. }
  destruct (Nat.lt_ge_cases i 14) as [Hi|Hi].
  - do 14 (destruct i as [|i]; [vm_compute in Hs, Hd; congruence|]). lia.
  - by apply (slice_short _ i (length (txt "5.00")) (txt "5.00")) in Hs.
Qed.

(** The line-starts-with-number test lets a weight through: the slip that
    the amended claim leaves out. *)
Lemma line_start_keeps_weight :
  _line_starts_with_number (txt "5.00 kg") = Some (txt "5.00").
Proof. by vm_compute. Qed.




(** * Further properties of the code *)

(** ** Segmentation into blocks *)

(** Successive matches of [finditer] do not overlap. *)
Lemma finditer_from_disjoint r s :
  forall b pos skip,
    StronglySorted (fun m1 m2 => m_end m1 <= m_start m2) (finditer_from r b pos skip s).
Proof.
  induction s as [|a s IH]; intros b pos skip.
  - destruct skip; simpl; [|constructor].
    destruct (match_here r b pos []); repeat constructor.
  - destruct skip; simpl; [|apply IH].
    destruct (match_here r b pos (a :: s)) as [m|] eqn:E; [|apply IH].
    constructor; [apply IH|].
    apply match_here_match_of in E as [(_ & Hend & _) Hs].
    destruct (finditer_from_sound r s (is_nl a) (S pos) (m_end m - m_start m - 1))
      as [HF _].
    eapply Forall_impl; [exact HF|]. simpl. intros m' [_ Hle]. lia.
Qed.

Lemma finditer_disjoint r s :
  StronglySorted (fun m1 m2 => m_end m1 <= m_start m2) (finditer r s).
Proof. apply finditer_from_disjoint. Qed.

Lemma slice_to_end (s : str) a : slice s a (length s) = drop a s.
Proof. unfold slice. apply take_ge. rewrite length_drop. lia. Qed.

Lemma slice_then_drop (s : str) a b : a <= b -> slice s a b ++ drop b s = drop a s.
Proof.
  intros H. unfold slice. replace b with (a + (b - a)) at 2 by lia.
  rewrite <- drop_drop. apply take_drop.
Qed.

Lemma slice_split (s : str) a b c :
  a <= b -> b <= c -> slice s a c = slice s a b ++ slice s b c.
Proof.
  intros H1 H2. unfold slice.
  replace (c - a) with ((b - a) + (c - b)) by lia.
  rewrite <- take_take_drop. f_equal. rewrite drop_drop. do 2 f_equal. lia.
Qed.

Lemma block_end_next text matches i m' todo :
  drop (S i) matches = m' :: todo -> block_end text matches i = m_start m'.
Proof.
  intros H. unfold block_end.
  assert (Hl : matches !! (i + 1) = Some m').
  { replace (i + 1) with (S i + 0) by lia. rewrite <- lookup_drop, H. done. }
  by rewrite Hl.
Qed.

Lemma block_end_last text matches i :
  drop (S i) matches = [] -> block_end text matches i = length text.
Proof.
  intros H. unfold block_end.
  assert (Hl : matches !! (i + 1) = None).
  { replace (i + 1) with (S i + 0) by lia. rewrite <- lookup_drop, H. done. }
  by rewrite Hl.
Qed.

Lemma drop_S_tail {A} (l : list A) i x todo :
  drop i l = x :: todo -> drop (S i) l = todo.
Proof.
  intros H. replace (S i) with (i + 1) by lia.
  rewrite <- drop_drop, H. done.
Qed.

Lemma block_texts_from_concat text matches todo :
  forall i,
    drop i matches = todo ->
    StronglySorted (fun m1 m2 => m_start m1 < m_start m2) todo ->
    concat (block_texts_from text matches i todo)
    = match todo with
      | [] => []
      | m :: _ => drop (m_start m) text
      end.
Proof.
  induction todo as [|m todo IH]; intros i Hdrop Hsorted; [done|].
  simpl. pose proof (drop_S_tail _ _ _ _ Hdrop) as Htail.
  apply StronglySorted_inv in Hsorted as [Hs Hlt].
  rewrite (IH (S i) Htail Hs).
  destruct todo as [|m' todo].
  - rewrite (block_end_last _ _ _ Htail), app_nil_r. apply slice_to_end.
  - rewrite (block_end_next _ _ _ _ _ Htail). apply slice_then_drop.
    apply Forall_cons in Hlt as [Hlt _]. lia.
Qed.

Lemma blocks_from_block_texts text matches todo :
  forall i recs,
    blocks_from text matches i todo = Ok recs ->
    Forall2 (fun mb r => parse_block mb.1 mb.2 = Ok r)
            (zip todo (block_texts_from text matches i todo)) recs.
Proof.
  induction todo as [|m todo IH]; intros i recs H; simpl in H.
  - inversion H. constructor.
  - assert (Hend :
      (if i + 1 <? length matches
       then nxt ← py_index matches (Z.of_nat (i + 1)); mret (m_start nxt)
       else mret (length text)) = Ok (block_end text matches i)).
    { unfold block_end. destruct (Nat.ltb_spec (i + 1) (length matches)) as [Hlt|Hge].
      - destruct (lookup_lt_is_Some_2 matches (i + 1) Hlt) as [nxt Hn].
        by rewrite (py_index_nat _ _ _ Hn), Hn.
      - by rewrite lookup_ge_None_2. }
    rewrite Hend in H. cbn [mbind result_bind] in H.
    apply bind_ok_inv in H as (r & Hr & H).
    apply bind_ok_inv in H as (rest & Hrest & H). inversion H; subst.
    simpl. constructor; [done | by apply IH].
Qed.

Lemma block_texts_from_length text matches todo :
  forall i, length (block_texts_from text matches i todo) = length todo.
Proof. induction todo as [|m todo IH]; intros i; simpl; [done | by rewrite IH]. Qed.

(** X1.  The blocks of a document follow one another without gap or
    overlap: put end to end they give the document from the first header
    match on; there is one block per header match, and the records of the
    engine are the records of these blocks, each parsed on its own. *)
Theorem blocks_partition text :
  length (block_texts text) = length (finditer HEADER_RE text)
  /\ concat (block_texts text)
     = match finditer HEADER_RE text with
       | [] => []
       | m :: _ => drop (m_start m) text
       end
  /\ exists recs, parse_blocks text = Ok recs
       /\ Forall2 (fun mb r => parse_block mb.1 mb.2 = Ok r)
            (zip (finditer HEADER_RE text) (block_texts text)) recs.
Proof.
  split; [apply block_texts_from_length|]. split.
  - apply block_texts_from_concat; [done | apply finditer_sound].
  - destruct (parse_blocks_spec text) as (recs & Hrecs & _).
    exists recs. split; [done|]. by apply blocks_from_block_texts.
Qed.

Lemma block_texts_from_prefix text matches todo :
  forall i,
    drop i matches = todo ->
    Forall (match_of HEADER_RE 0 text) todo ->
    StronglySorted (fun m1 m2 => m_end m1 <= m_start m2) todo ->
    Forall2 (fun m block => exists rest, block = m_text m ++ rest)
            todo (block_texts_from text matches i todo).
Proof.
  induction todo as [|m todo IH]; intros i Hdrop HF Hsorted; simpl; [constructor|].
  pose proof (drop_S_tail _ _ _ _ Hdrop) as Htail.
  apply StronglySorted_inv in Hsorted as [Hs Hle].
  apply Forall_cons in HF as [Hm HF'].
  constructor; [|by apply IH].
  destruct Hm as (_ & Hend & Hlen & Htext & _).
  rewrite !Nat.sub_0_r in *.
  assert (Hbe : m_end m <= block_end text matches i).
  { destruct todo as [|m' todo].
    - by rewrite (block_end_last _ _ _ Htail).
    - rewrite (block_end_next _ _ _ _ _ Htail).
      by apply Forall_cons in Hle as [Hle _]. }
  exists (slice text (m_end m) (block_end text matches i)).
  rewrite Htext. apply slice_split; lia.
Qed.

(** X2.  Header matches do not overlap, and every block begins with the
    whole text of its header match: no header is cut by the start of the next
    block. *)
Theorem block_starts_with_header text :
  StronglySorted (fun m1 m2 => m_end m1 <= m_start m2) (finditer HEADER_RE text)
  /\ Forall2 (fun m block => exists rest, block = m_text m ++ rest)
       (finditer HEADER_RE text) (block_texts text).
Proof.
  split; [apply finditer_disjoint|].
  apply block_texts_from_prefix; [done | apply finditer_sound | apply finditer_disjoint].
Qed.

(** ** What the groups of a match hold *)

Lemma exec_sub r b w c b' c' n g :
  exec r b w c b' c' -> sub_of n r = Some g ->
  exists v bb cc bb' cc', c' !! n = Some v /\ exec g bb v cc bb' cc'.
Proof.
  induction 1; simpl; try done.
  - destruct (sub_of n r2) as [g2|] eqn:E2.
    + intros [= <-]. by apply IHexec2.
    + destruct (mentions n r2) eqn:Em; [done|]. intros Hs.
      destruct (IHexec1 Hs) as (v & bb & cc & bb' & cc' & Hv & He).
      exists v, bb, cc, bb', cc'. split; [|done].
      by rewrite (exec_frame _ _ _ _ _ _ _ H0 Em).
  - destruct (String.eqb n n0) eqn:E.
    + apply String.eqb_eq in E as ->. intros [= <-].
      exists w, b, c, b', c'. by rewrite lookup_insert_eq.
    + apply String.eqb_neq in E. intros Hs.
      destruct (IHexec Hs) as (v & bb & cc & bb' & cc' & Hv & He).
      exists v, bb, cc, bb', cc'. by rewrite lookup_insert_ne.
Qed.

Lemma header_group_exec text m n g :
  m ∈ finditer HEADER_RE text -> sub_of n HEADER_RE = Some g ->
  exists v bb cc bb' cc', group m n = Some v /\ exec g bb v cc bb' cc'.
Proof.
  intros Hm Hs. destruct (finditer_sound HEADER_RE text) as [HF _].
  rewrite Forall_forall in HF.
  destruct (HF m Hm) as (_ & _ & _ & _ & b & b' & He). by eapply exec_sub.
Qed.

Lemma exec_plus_inv g p b w c b' c' :
  exec (Plus g p) b w c b' c' ->
  exists a w', w = a :: w' /\ p a = true /\ forallb p w' = true.
Proof.
  unfold Plus. intros H.
  apply exec_seq_inv in H as (w1 & w2 & b1 & c1 & -> & H1 & H2).
  apply exec_chr_inv in H1 as (a & -> & Ha & _).
  apply exec_star_inv in H2 as [H2 _]. by exists a, w2.
Qed.

Lemma exec_lit_inv a b w c b' c' : exec (lit a) b w c b' c' -> w = [a].
Proof.
  intros H. apply exec_chr_inv in H as (x & -> & Hx & _).
  apply Ascii.eqb_eq in Hx. by subst.
Qed.

Lemma exec_ds_shape b w c b' c' : exec ds b w c b' c' -> digits_shape w.
Proof.
  intros H. apply exec_plus_inv in H as (a & w' & -> & Ha & Hw).
  split; [done|]. simpl. by rewrite Ha, Hw.
Qed.

Lemma exec_date_shape b w c b' c' : exec date_re b w c b' c' -> date_shape w.
Proof.
  unfold date_re, d1. simpl seqs. intros H.
  repeat match goal with
  | H : exec (Seq _ _) _ _ _ _ _ |- _ =>
      apply exec_seq_inv in H as (? & ? & ? & ? & -> & ? & ?)
  end.
  repeat match goal with
  | H : exec (lit _) _ _ _ _ _ |- _ => apply exec_lit_inv in H as ->
  | H : exec (Chr _) _ _ _ _ _ |- _ => apply exec_chr_inv in H as (? & -> & ? & _)
  end.
  simpl. do 8 eexists. split; [reflexivity|]. simpl.
  repeat match goal with H : is_digit _ = true |- _ => rewrite H; clear H end.
  done.
Qed.

Lemma exec_amount_shape b w c b' c' : exec amount_re b w c b' c' -> amount_shape w.
Proof.
  unfold amount_re. simpl seqs. intros H.
  apply exec_seq_inv in H as (w1 & w2 & ? & ? & -> & H1 & H).
  apply exec_seq_inv in H as (w3 & w4 & ? & ? & -> & H2 & H3).
  apply exec_plus_inv in H1 as (a & w' & -> & Ha & Hw).
  apply exec_lit_inv in H2 as ->.
  apply exec_ds_shape in H3 as [Hne Hd].
  exists (a :: w'), w4. repeat split; try done. simpl. by rewrite Ha, Hw.
Qed.

Lemma exec_lits_inv s : forall b w c b' c', exec (lits s) b w c b' c' -> w = s.
Proof.
  induction s as [|a s IH]; intros b w c b' c' H.
  - by apply exec_eps_inv in H as [-> _].
  - destruct s as [|a' s].
    + by apply exec_lit_inv in H.
    + change (lits (a :: a' :: s)) with (Seq (lit a) (lits (a' :: s))) in H.
      apply exec_seq_inv in H as (w1 & w2 & ? & ? & -> & H1 & H2).
      apply exec_lit_inv in H1 as ->. apply IH in H2 as ->. done.
Qed.

Lemma exec_weight_shape b w c b' c' :
  exec (seqs [ds; Opt (Seq (lit ".") ds); ws0; lits (txt "kg")]) b w c b' c' ->
  weight_shape w.
Proof.
  simpl seqs. intros H.
  apply exec_seq_inv in H as (w1 & w2 & ? & ? & -> & H1 & H).
  apply exec_seq_inv in H as (w3 & w4 & ? & ? & -> & H2 & H).
  apply exec_seq_inv in H as (w5 & w6 & ? & ? & -> & H3 & H4).
  apply exec_plus_inv in H1 as (d & w' & -> & Hd & Hw).
  apply exec_star_inv in H3 as [H3 _].
  apply (exec_lits_inv (txt "kg")) in H4 as ->.
  assert (Hdd : forall l, forallb is_digit l = true -> forallb digit_or_dot l = true).
  { intros l Hl. apply forallb_forall. intros ch Hch.
    rewrite forallb_forall in Hl. unfold digit_or_dot. by rewrite (Hl ch Hch). }
  apply exec_alt_inv in H2 as [H2|H2].
  - apply exec_seq_inv in H2 as (q1 & q2 & ? & ? & -> & Hq1 & Hq2).
    apply exec_lit_inv in Hq1 as ->. apply exec_ds_shape in Hq2 as [_ Hq2].
    exists d, (w' ++ "."%char :: q2), w5. split.
    + simpl. by rewrite <- !app_assoc.
    + split; [done|]. split; [|done].
      rewrite forallb_app. simpl. by rewrite (Hdd _ Hw), (Hdd _ Hq2).
  - apply exec_eps_inv in H2 as [-> _].
    exists d, w', w5. repeat split; try done. by apply Hdd.
Qed.

(** ** [strip] *)

Lemma rev_is_reverse {A} (l : list A) : rev l = reverse l.
Proof. apply rev_alt. Qed.

Lemma lstrip_id s :
  (forall a, head s = Some a -> is_space a = false) -> lstrip s = s.
Proof. destruct s as [|a s]; [done|]. intros H. simpl. by rewrite (H a). Qed.

Lemma head_lstrip s a : head (lstrip s) = Some a -> is_space a = false.
Proof.
  induction s as [|x s IH]; simpl; [done|].
  destruct (is_space x) eqn:E; [done|]. simpl. by intros [= <-].
Qed.

Lemma lstrip_suffix s : exists pre, s = pre ++ lstrip s.
Proof.
  induction s as [|x s [pre IH]]; simpl; [by exists []|].
  destruct (is_space x); [|by exists []].
  exists (x :: pre). simpl. by rewrite <- IH.
Qed.

Lemma strip_id s : trimmed s -> strip s = s.
Proof.
  intros [Hh Hl]. unfold strip. rewrite (lstrip_id s Hh).
  rewrite lstrip_id; [apply rev_involutive|].
  intros a. rewrite rev_is_reverse, head_reverse. apply Hl.
Qed.

Lemma strip_trimmed s : trimmed (strip s).
Proof.
  unfold strip. set (u := lstrip s). set (t := lstrip (rev u)).
  rewrite !rev_is_reverse. split; intros a.
  - rewrite head_reverse. intros Hl.
    destruct (lstrip_suffix (rev u)) as [pre Hpre]. fold t in Hpre.
    assert (Hlast : last (rev u) = Some a).
    { rewrite Hpre. destruct t as [|x t']; [done|].
      rewrite last_app_cons. exact Hl. }
    rewrite rev_is_reverse, last_reverse in Hlast. by apply head_lstrip in Hlast.
  - rewrite last_reverse. apply head_lstrip.
Qed.

Lemma digit_not_space a : is_digit a = true -> is_space a = false.
Proof. destruct a as [[] [] [] [] [] [] [] []]; by vm_compute. Qed.

Lemma weight_shape_trimmed v : weight_shape v -> trimmed v /\ v <> [].
Proof.
  intros (d & num & blanks & -> & Hd & _ & _). split; [|done]. split; intros a.
  - simpl. intros [= <-]. by apply digit_not_space.
  - change (d :: num ++ blanks ++ txt "kg")
      with ((d :: num) ++ blanks ++ [ "k"%char ] ++ [ "g"%char ]).
    rewrite !app_assoc, last_snoc. by intros [= <-].
Qed.

(** ** The stages of [parse_block], read backwards *)

Lemma parse_block_stages m block r :
  parse_block m block = Ok r ->
  exists d0 d1 ch d2 d3,
    header_data m = Ok d0 /\ add_dims block d0 = Ok d1
    /\ charges_of block = Ok ch /\ add_charges ch d1 = Ok d2
    /\ enforce_fuel d2 = Ok d3 /\ r = add_tender block d3.
Proof.
  unfold parse_block. intros H.
  apply bind_ok_inv in H as (d0 & H0 & H).
  apply bind_ok_inv in H as (d1 & H1 & H).
  apply bind_ok_inv in H as (ch & Hc & H).
  apply bind_ok_inv in H as (d2 & H2 & H).
  apply bind_ok_inv in H as (d3 & H3 & H).
  inversion H. by exists d0, d1, ch, d2, d3.
Qed.

Lemma header_data_inv m d0 :
  header_data m = Ok d0 ->
  exists sv wv,
    group m "service" = Some sv /\ group m "weight" = Some wv
    /\ d0 = <["total" := of_group (group m "total")]>
           (<["other_charges" := of_group (group m "other_charges")]>
           (<["freight" := of_group (group m "freight")]>
           (<["reference" := of_group (group m "reference")]>
           (<["weight" := VStr (strip wv)]>
           (<["pieces" := of_group (group m "pieces")]>
           (<["service" := VStr (strip sv)]>
           (<["ship_date" := of_group (group m "ship_date")]>
           (<["shipment" := of_group (group m "shipment")]> (∅ : record))))))))).
Proof.
  unfold header_data.
  destruct (group m "service") as [sv|] eqn:Es; [|by simpl].
  destruct (group m "weight") as [wv|] eqn:Ew; [|by simpl].
  simpl. intros [= <-]. by exists sv, wv.
Qed.

Lemma header_data_other m d0 k :
  header_data m = Ok d0 -> k ∉ header_keys -> d0 !! k = None.
Proof.
  intros H Hk. apply header_data_inv in H as (sv & wv & _ & _ & ->).
  unfold header_keys in Hk. repeat (apply not_elem_of_cons in Hk as [? Hk]).
  by rewrite !lookup_insert_ne.
Qed.

Lemma add_dims_inv block d d' :
  add_dims block d = Ok d' ->
  (re_search DIMS_RE block = None /\ d' = d)
  \/ (exists dm dv bw,
        re_search DIMS_RE block = Some dm
        /\ group dm "dims" = Some dv /\ group dm "billed_weight" = Some bw
        /\ d' = <["billed_weight" := VStr (strip bw)]> (<["dims" := VStr (strip dv)]> d)).
Proof.
  unfold add_dims. destruct (re_search DIMS_RE block) as [dm|]; [|intros [= <-]; by left].
  destruct (group dm "dims") as [dv|] eqn:Ed; [|by simpl].
  destruct (group dm "billed_weight") as [bw|] eqn:Eb; [|by simpl].
  simpl. intros [= <-]. right. by exists dm, dv, bw.
Qed.

Lemma charges_of_keys block ch k :
  charges_of block = Ok ch -> (forall f, k <> key_of f) -> ch !! k = None.
Proof.
  intros H Hk. destruct (charges_of_spec block) as (tr & ds' & fu & _ & _ & _ & Hc).
  rewrite Hc in H. injection H as <-. rewrite !set_if_lookup.
  rewrite !decide_False; [done | apply not_eq_sym, (Hk Transportation)
                          | apply not_eq_sym, (Hk Discount)
                          | apply not_eq_sym, (Hk Fuel)].
Qed.

Lemma expose_inv key charges data data' :
  expose key charges data = Ok data' ->
  data' = match charges !! key with
          | Some v => <[key := VStr v]> data
          | None => data
          end.
Proof.
  unfold expose, py_getitem. destruct (charges !! key) as [v|].
  - rewrite bool_decide_eq_true_2 by by eexists. by intros [= <-].
  - rewrite bool_decide_eq_false_2 by (by intros [? ?]). by intros [= <-].
Qed.

Lemma add_charges_inv ch d d' :
  add_charges ch d = Ok d' ->
  (ch = ∅ /\ d' = d)
  \/ (ch <> ∅ /\ d' !! "charges" = Some (VDict ch)
      /\ (forall f, d' !! key_of f
                    = match ch !! key_of f with
                      | Some v => Some (VStr v)
                      | None => d !! key_of f
                      end)
      /\ forall k, k <> "charges" -> (forall f, k <> key_of f) -> d' !! k = d !! k).
Proof.
  intros H. destruct (add_charges_spec ch d) as (d'' & H' & Hk & Ho & _).
  rewrite H in H'. injection H' as <-.
  unfold add_charges in H. destruct (bool_decide (ch = ∅)) eqn:E.
  - apply bool_decide_eq_true in E. injection H as <-. by left.
  - apply bool_decide_eq_false in E. right. repeat split; try done.
    apply bind_ok_inv in H as (x1 & H1 & H).
    apply bind_ok_inv in H as (x2 & H2 & H).
    apply expose_inv in H1, H2, H. subst.
    destruct (ch !! "fuel_surcharge"), (ch !! "discount"),
      (ch !! "transportation_charge"); by simplify_map_eq.
Qed.

Lemma enforce_fuel_inv d d' :
  enforce_fuel d = Ok d' ->
  (forall k, k <> "fuel_surcharge" -> k <> "charges" -> d' !! k = d !! k)
  /\ match d !! "charges" with
     | Some (VDict c) =>
         exists c', d' !! "charges" = Some (VDict c')
                    /\ forall k, k <> "fuel_surcharge" -> c' !! k = c !! k
     | x => d' !! "charges" = x
     end
  /\ (d !! "other_charges" = None \/ d !! "other_charges" = Some VNone
      \/ d !! "other_charges" = Some (VStr []) -> d' = d)
  /\ (is_Some (d !! "fuel_surcharge") -> is_Some (d' !! "fuel_surcharge")).
Proof.
  intros H. destruct (enforce_fuel_spec d) as (d'' & H' & Hk & _ & _).
  rewrite H in H'. injection H' as <-. split; [done|].
  unfold enforce_fuel, py_getitem in H.
  destruct (d !! "other_charges") as [[|[|a s]|]|] eqn:E;
    try (injection H as <-; split; [by destruct (d !! "charges") as [[]|]; eauto|];
         split; [done|done]).
  - cbn [mbind result_bind] in H. rewrite lookup_insert_ne in H by done.
    split; [|split].
    + destruct (d !! "charges") as [[| |c]|] eqn:Ec.
      * injection H as <-. by rewrite lookup_insert_ne.
      * injection H as <-. by rewrite lookup_insert_ne.
      * rewrite lookup_insert_ne in H by done. rewrite E in H.
        cbn [mbind result_bind] in H. injection H as <-.
        eexists. rewrite lookup_insert_eq. split; [done|].
        intros k Hk'. by rewrite lookup_insert_ne.
      * injection H as <-. by rewrite lookup_insert_ne.
    + intros [?|[?|?]]; done.
    + intros _. destruct (d !! "charges") as [[| |c]|] eqn:Ec.
      * injection H as <-. by rewrite lookup_insert_eq.
      * injection H as <-. by rewrite lookup_insert_eq.
      * rewrite lookup_insert_ne in H by done. rewrite E in H.
        cbn [mbind result_bind] in H. injection H as <-.
        rewrite lookup_insert_ne by done. by rewrite lookup_insert_eq.
      * injection H as <-. by rewrite lookup_insert_eq.
Qed.

(** ** From the blocks to the records of the engine *)

Lemma records_lift text (P : rmatch * str -> record -> Prop) :
  (forall m block r,
     m ∈ finditer HEADER_RE text -> parse_block m block = Ok r -> P (m, block) r) ->
  exists recs, parse_blocks text = Ok recs
    /\ Forall2 P (zip (finditer HEADER_RE text) (block_texts text)) recs.
Proof.
  intros HP. destruct (parse_blocks_spec text) as (recs & Hrecs & _).
  exists recs. split; [done|].
  eapply Forall2_impl_elem; [by apply blocks_from_block_texts|].
  intros [m block] r Hin Hr. apply HP; [|done]. by apply elem_of_zip_l in Hin.
Qed.

Lemma records_forall text (Q : record -> Prop) :
  (forall m block r,
     m ∈ finditer HEADER_RE text -> parse_block m block = Ok r -> Q r) ->
  exists recs, parse_blocks text = Ok recs /\ Forall Q recs.
Proof.
  intros HQ. destruct (records_lift text (fun _ r => Q r)) as (recs & Hrecs & HF).
  { intros m block r. apply HQ. }
  exists recs. split; [done|]. by eapply Forall2_Forall_r; [exact HF | apply Forall_true].
Qed.

Lemma parse_block_header_lookup m block r :
  parse_block m block = Ok r ->
  exists d0, header_data m = Ok d0 /\ forall k, k ∈ header_keys -> r !! k = d0 !! k.
Proof.
  intros H. apply parse_block_stages in H
    as (d0 & d1 & ch & d2 & d3 & H0 & H1 & Hc & H2 & H3 & ->).
  exists d0. split; [done|]. intros k Hk.
  assert (Hne : k <> "dims" /\ k <> "billed_weight" /\ k <> "charges"
                /\ (forall f, k <> key_of f)
                /\ k <> "tendered_date" /\ k <> "subtotal_inr").
  { unfold header_keys in Hk.
    repeat (apply elem_of_cons in Hk as [->|Hk];
            [by repeat split; try done; intros []|]).
    by apply elem_of_nil in Hk. }
  destruct Hne as (N1 & N2 & N3 & N4 & N5 & N6).
  destruct (add_tender_spec block d3) as [Ht _]. rewrite Ht by done.
  apply enforce_fuel_inv in H3 as (H3 & _). rewrite H3; [|apply (N4 Fuel)|done].
  assert (d2 !! k = d1 !! k) as ->.
  { apply add_charges_inv in H2 as [[_ ->]|(_ & _ & _ & H2)]; [done | by apply H2]. }
  apply add_dims_inv in H1 as [[_ ->]|(dm & dv & bw & _ & _ & _ & ->)]; [done|].
  by rewrite !lookup_insert_ne.
Qed.

Lemma parse_block_header_fields text m block r :
  m ∈ finditer HEADER_RE text -> parse_block m block = Ok r ->
  (forall k, k ∈ header_keys -> k <> "service" ->
     exists v, group m k = Some v /\ v <> [] /\ r !! k = Some (VStr v))
  /\ exists sv, group m "service" = Some sv
                /\ r !! "service" = Some (VStr (strip sv)).
Proof.
  intros Hm Hr.
  destruct (parse_block_header_lookup _ _ _ Hr) as (d0 & H0 & Hk).
  apply header_data_inv in H0 as (sv & wv & Hsv & Hwv & ->).
  split.
  - intros k Hin Hns. rewrite (Hk k Hin). unfold header_keys in Hin.
    destruct (header_group_exec text m "weight" _ Hm eq_refl)
      as (wv' & ? & ? & ? & ? & Hwv' & Hw).
    rewrite Hwv in Hwv'. injection Hwv' as <-.
    apply exec_weight_shape, weight_shape_trimmed in Hw as [Hw Hwne].
    repeat (apply elem_of_cons in Hin as [Hin|Hin];
            [first
               [ by destruct Hns
               | subst k;
                 lazymatch goal with |- exists _, group m ?n = _ /\ _ =>
                   destruct (header_group text m n Hm eq_refl) as (v & Hv & Hne) end;
                 exists v; split_and!; [done|done|];
                 repeat (rewrite lookup_insert_ne by done); rewrite lookup_insert_eq;
                 first [ by rewrite Hv
                       | rewrite Hwv in Hv; injection Hv as <-; by rewrite strip_id ] ]|]).
    by apply elem_of_nil in Hin.
  - exists sv. split; [done|]. rewrite Hk by (unfold header_keys; repeat constructor).
    repeat (rewrite lookup_insert_ne by done). by rewrite lookup_insert_eq.
Qed.

(** X3.  Every record carries the nine keys of the header, each with a
    string, never [None]: for [shipment], [ship_date], [pieces], [weight],
    [reference], [freight], [other_charges] and [total] the text of the
    header group itself, never empty; for [service] the stripped text of the
    group. *)
Theorem header_fields_present text :
  exists recs, parse_blocks text = Ok recs
    /\ Forall2 (fun mb r =>
         (forall k, k ∈ header_keys -> k <> "service" ->
            exists v, group mb.1 k = Some v /\ v <> [] /\ r !! k = Some (VStr v))
         /\ exists sv, group mb.1 "service" = Some sv
                       /\ r !! "service" = Some (VStr (strip sv)))
         (zip (finditer HEADER_RE text) (block_texts text)) recs.
Proof.
  apply records_lift. intros m block r Hm Hr. by apply (parse_block_header_fields text m block).
Qed.

Lemma not_record_key k :
 (k ∉ record_keys) ->
  (k ∉ header_keys) /\ k <> "dims" /\ k <> "billed_weight" /\ k <> "charges"
  /\ (forall f, k <> key_of f) /\ k <> "tendered_date" /\ k <> "subtotal_inr".
Proof.
  unfold record_keys. intros H. apply not_elem_of_app in H as [Hh H].
  repeat (apply not_elem_of_cons in H as [? H]).
  split_and!; try done. by intros [].
Qed.

Lemma parse_block_other_keys m block r k :
  parse_block m block = Ok r -> (k ∉ record_keys) -> r !! k = None.
Proof.
  intros H Hk. apply not_record_key in Hk as (Nh & N1 & N2 & N3 & N4 & N5 & N6).
  apply parse_block_stages in H
    as (d0 & d1 & ch & d2 & d3 & H0 & H1 & Hc & H2 & H3 & ->).
  destruct (add_tender_spec block d3) as [Ht _]. rewrite Ht by done.
  apply enforce_fuel_inv in H3 as (H3 & _). rewrite H3; [|apply (N4 Fuel)|done].
  assert (d2 !! k = d1 !! k) as ->.
  { apply add_charges_inv in H2 as [[_ ->]|(_ & _ & _ & H2)]; [done | by apply H2]. }
  assert (d1 !! k = d0 !! k) as ->.
  { apply add_dims_inv in H1 as [[_ ->]|(dm & dv & bw & _ & _ & _ & ->)]; [done|].
    by rewrite !lookup_insert_ne. }
  by eapply header_data_other.
Qed.

(** X4.  A record has no key outside the seventeen names the engine knows:
    the nine of the header and [dims], [billed_weight], [charges],
    [transportation_charge], [discount], [fuel_surcharge], [tendered_date],
    [subtotal_inr]. *)
Theorem record_keys_bounded text :
  exists recs, parse_blocks text = Ok recs
    /\ Forall (fun r => forall k, is_Some (r !! k) -> k ∈ record_keys) recs.
Proof.
  apply records_forall. intros m block r _ Hr k [v Hv].
  destruct (decide (k ∈ record_keys)) as [|Hn]; [done|].
  by rewrite (parse_block_other_keys _ _ _ _ Hr Hn) in Hv.
Qed.

Lemma billed_weight_trimmed b w c b' c' :
  exec (seqs [Plus true digit_or_dot; ws0; lits (txt "kg")]) b w c b' c' ->
  trimmed w.
Proof.
  simpl seqs. intros H.
  apply exec_seq_inv in H as (w1 & w2 & ? & ? & -> & H1 & H).
  apply exec_seq_inv in H as (w3 & w4 & ? & ? & -> & H2 & H3).
  apply exec_plus_inv in H1 as (d & w' & -> & Hd & _).
  apply (exec_lits_inv (txt "kg")) in H3 as ->.
  split; intros a.
  - simpl. intros [= <-]. unfold digit_or_dot in Hd.
    apply orb_true_iff in Hd as [Hd|Hd]; [by apply digit_not_space|].
    apply Ascii.eqb_eq in Hd as ->. done.
  - change ((d :: w') ++ w3 ++ txt "kg")
      with ((d :: w') ++ w3 ++ [ "k"%char ] ++ [ "g"%char ]).
    rewrite !app_assoc, last_snoc. by intros [= <-].
Qed.

Lemma parse_block_dims m block r :
  parse_block m block = Ok r ->
  match re_search DIMS_RE block with
  | Some dm =>
      exists dv bw, group dm "dims" = Some dv /\ group dm "billed_weight" = Some bw
        /\ r !! "dims" = Some (VStr (strip dv))
        /\ forallb any_but_nl dv = true
        /\ r !! "billed_weight" = Some (VStr bw)
  | None => r !! "dims" = None /\ r !! "billed_weight" = None
  end.
Proof.
  intros H. apply parse_block_stages in H
    as (d0 & d1 & ch & d2 & d3 & H0 & H1 & Hc & H2 & H3 & ->).
  assert (Hsame : forall k, k = "dims" \/ k = "billed_weight" ->
                            add_tender block d3 !! k = d1 !! k).
  { intros k Hk. destruct (add_tender_spec block d3) as [Ht _].
    rewrite Ht by (by destruct Hk as [-> | ->]).
    apply enforce_fuel_inv in H3 as (H3 & _).
    rewrite H3 by (by destruct Hk as [-> | ->]).
    apply add_charges_inv in H2 as [[_ ->]|(_ & _ & _ & H2)]; [done|].
    apply H2; [by destruct Hk as [-> | ->]|]. by intros []; destruct Hk as [-> | ->]. }
  rewrite !Hsame by auto.
  apply add_dims_inv in H1 as [[-> ->]|(dm & dv & bw & Hdm & Hdv & Hbw & ->)].
  - split; (eapply header_data_other; [done|not_header_key]).
  - rewrite Hdm. apply re_search_sound in Hdm as (_ & _ & _ & _ & b & b' & He).
    destruct (exec_sub _ _ _ _ _ _ "dims" _ He eq_refl)
      as (dv' & ? & ? & ? & ? & Hdv' & Hed).
    destruct (exec_sub _ _ _ _ _ _ "billed_weight" _ He eq_refl)
      as (bw' & ? & ? & ? & ? & Hbw' & Heb).
    unfold group in Hdv, Hbw. rewrite Hdv in Hdv'. rewrite Hbw in Hbw'.
    injection Hdv' as <-. injection Hbw' as <-.
    apply exec_plus_inv in Hed as (a & w' & -> & Ha & Hw).
    apply billed_weight_trimmed, strip_id in Heb.
    exists (a :: w'), bw. split_and!; [done|done|..].
    + by rewrite lookup_insert_ne, lookup_insert_eq.
    + simpl. by rewrite Ha, Hw.
    + by rewrite lookup_insert_eq, Heb.
Qed.

Lemma parse_block_tender m block r :
  parse_block m block = Ok r ->
  match re_search TENDER_SUBTOTAL_RE block with
  | Some t =>
      exists td st, group t "tendered_date" = Some td /\ group t "subtotal" = Some st
        /\ date_shape td /\ amount_shape st
        /\ r !! "tendered_date" = Some (VStr td)
        /\ r !! "subtotal_inr" = Some (VStr st)
  | None => r !! "tendered_date" = None /\ r !! "subtotal_inr" = None
  end.
Proof.
  intros H. destruct (re_search TENDER_SUBTOTAL_RE block) as [t|] eqn:Et.
  - apply re_search_sound in Et as Hm. destruct Hm as (_ & _ & _ & _ & b & b' & He).
    destruct (exec_sub _ _ _ _ _ _ "tendered_date" date_re He eq_refl)
      as (td & ? & ? & ? & ? & Htd & Hd).
    destruct (exec_sub _ _ _ _ _ _ "subtotal" amount_re He eq_refl)
      as (st & ? & ? & ? & ? & Hst & Hs).
    apply exec_date_shape in Hd. apply exec_amount_shape in Hs.
    exists td, st. split_and!; try done.
    all: apply parse_block_stages in H
      as (d0 & d1 & ch & d2 & d3 & _ & _ & _ & _ & _ & ->);
      unfold add_tender; rewrite Et; unfold group in *.
    + rewrite lookup_insert_ne, lookup_insert_eq by done. by rewrite Htd.
    + rewrite lookup_insert_eq. by rewrite Hst.
  - apply parse_block_stages in H
      as (d0 & d1 & ch & d2 & d3 & H0 & H1 & Hc & H2 & H3 & ->).
    destruct (add_tender_spec block d3) as [_ Ht]. rewrite (Ht Et).
    assert (Hsame : forall k, k = "tendered_date" \/ k = "subtotal_inr" ->
                              d3 !! k = None).
    { intros k Hk. apply enforce_fuel_inv in H3 as (H3 & _).
      rewrite H3 by (by destruct Hk as [-> | ->]).
      assert (d2 !! k = d1 !! k) as ->.
      { apply add_charges_inv in H2 as [[_ ->]|(_ & _ & _ & H2)]; [done|].
        apply H2; [by destruct Hk as [-> | ->]|].
        by intros []; destruct Hk as [-> | ->]. }
      assert (d1 !! k = d0 !! k) as ->.
      { apply add_dims_inv in H1 as [[_ ->]|(dm & dv & bw & _ & _ & _ & ->)]; [done|].
        rewrite !lookup_insert_ne; [done|by destruct Hk as [-> | ->]..]. }
      eapply header_data_other; [done|]. destruct Hk as [-> | ->]; not_header_key. }
    split; apply Hsame; auto.
Qed.

(** X5.  The optional keys come in pairs decided by one search each.  [dims]
    and [billed_weight] are present exactly when [DIMS_RE] is found in the
    block: [dims] is the stripped text of its group, which is on one line,
    and [billed_weight] the text of its group as it stands; [tendered_date] and
    [subtotal_inr] are present exactly when [TENDER_SUBTOTAL_RE] is found,
    with a date [dd/dd/dddd] and an amount with a decimal point.  A record
    never has one key of a pair without the other. *)
Theorem optional_keys_paired text :
  exists recs, parse_blocks text = Ok recs
    /\ Forall2 (fun mb r =>
         match re_search DIMS_RE mb.2 with
         | Some dm =>
             exists dv bw,
               group dm "dims" = Some dv /\ group dm "billed_weight" = Some bw
               /\ r !! "dims" = Some (VStr (strip dv))
               /\ forallb any_but_nl dv = true
               /\ r !! "billed_weight" = Some (VStr bw)
         | None => r !! "dims" = None /\ r !! "billed_weight" = None
         end
         /\ match re_search TENDER_SUBTOTAL_RE mb.2 with
            | Some t =>
                exists td st,
                  group t "tendered_date" = Some td /\ group t "subtotal" = Some st
                  /\ date_shape td /\ amount_shape st
                  /\ r !! "tendered_date" = Some (VStr td)
                  /\ r !! "subtotal_inr" = Some (VStr st)
            | None => r !! "tendered_date" = None /\ r !! "subtotal_inr" = None
            end)
         (zip (finditer HEADER_RE text) (block_texts text)) recs.
Proof.
  apply records_lift. intros m block r _ Hr. simpl. split.
  - by apply (parse_block_dims m).
  - by apply (parse_block_tender m).
Qed.

(** X6.  The nested mapping [charges] and the top-level charge keys agree.
    When a record has [charges], it is a mapping, it holds [fuel_surcharge],
    its keys are among [transportation_charge], [discount] and
    [fuel_surcharge], and each of the three top-level keys has exactly the
    entry of the mapping (absent when the mapping has none).  A record
    without [charges] has neither [transportation_charge] nor [discount]. *)
Theorem charges_mapping_consistent text :
  exists recs, parse_blocks text = Ok recs
    /\ Forall (fun r =>
         match r !! "charges" with
         | Some (VDict d) =>
             is_Some (d !! "fuel_surcharge")
             /\ (forall k, is_Some (d !! k) -> exists f, k = key_of f)
             /\ forall f, r !! key_of f = VStr <$> d !! key_of f
         | Some _ => False
         | None => r !! "transportation_charge" = None /\ r !! "discount" = None
         end) recs.
Proof.
  apply records_forall. intros m block r Hm Hr.
  destruct (header_group text m "service" Hm eq_refl) as (sv & Hsv & _).
  destruct (header_group text m "weight" Hm eq_refl) as (wv & Hwv & _).
  destruct (header_group text m "other_charges" Hm eq_refl) as (oc & Hoc & Hne).
  destruct (parse_block_spec m block sv wv Hsv Hwv)
    as (r' & Hr' & _ & _ & _ & Hfuel & _).
  rewrite Hr in Hr'. injection Hr' as <-.
  destruct (Hfuel oc Hoc Hne) as [Hf Hfd]. clear Hfuel.
  apply parse_block_stages in Hr
    as (d0 & d1 & ch & d2 & d3 & H0 & H1 & Hc & H2 & H3 & Hrr).
  destruct (add_tender_spec block d3) as [Ht _]. rewrite <- Hrr in Ht.
  apply enforce_fuel_inv in H3 as (H3 & H3c & _).
  assert (Hd1 : forall k, k = "charges" \/ (exists f, k = key_of f) -> d1 !! k = None).
  { intros k Hk.
    assert (d1 !! k = d0 !! k) as ->.
    { apply add_dims_inv in H1 as [[_ ->]|(dm & dv & bw & _ & _ & _ & ->)]; [done|].
      rewrite !lookup_insert_ne; [done|by destruct Hk as [->|[[] ->]]..]. }
    eapply header_data_other; [done|]. destruct Hk as [->|[[] ->]]; not_header_key. }
  assert (Hb : forall f, f <> Fuel -> r !! key_of f = d2 !! key_of f).
  { intros f Hfu. rewrite Ht by (by destruct f). by rewrite H3 by (by destruct f). }
  rewrite (Ht "charges") by done.
  apply add_charges_inv in H2 as [[-> ->]|(Hch & H2c & H2k & _)].
  - rewrite (Hd1 "charges") in H3c by auto. rewrite H3c.
    pose proof (Hb Transportation ltac:(done)) as Hbt.
    pose proof (Hb Discount ltac:(done)) as Hbd. simpl in Hbt, Hbd.
    rewrite Hbt, Hbd.
    split; apply Hd1; right; [by exists Transportation | by exists Discount].
  - rewrite H2c in H3c. destruct H3c as (c' & Hc' & Hsame). rewrite Hc'.
    assert (Hrc : r !! "charges" = Some (VDict c')) by (by rewrite Ht).
    specialize (Hfd c' Hrc). split_and!.
    + by rewrite Hfd.
    + intros k Hk.
      destruct (decide (k = "fuel_surcharge")) as [->|Nf]; [by exists Fuel|].
      destruct (decide (k = "transportation_charge")) as [->|Nt];
        [by exists Transportation|].
      destruct (decide (k = "discount")) as [->|Nd]; [by exists Discount|].
      rewrite Hsame in Hk by done.
      rewrite (charges_of_keys block ch k Hc) in Hk; [by destruct Hk|by intros []].
    + intros f.
      assert (f = Fuel \/ f <> Fuel) as [->|Nf] by (destruct f; auto).
      * simpl. by rewrite Hf, Hfd.
      * rewrite (Hb f Nf), H2k, Hsame by (by destruct f).
        destruct (ch !! key_of f); [done|]. simpl. apply Hd1. right. by exists f.
Qed.

Lemma forallb_lstrip p s : forallb p s = true -> forallb p (lstrip s) = true.
Proof.
  destruct (lstrip_suffix s) as [pre Hpre]. rewrite Hpre at 1.
  rewrite forallb_app. by intros [_ ?]%andb_true_iff.
Qed.

Lemma forallb_rev p (s : str) : forallb p s = true -> forallb p (rev s) = true.
Proof.
  rewrite !forallb_forall. intros H a Ha. apply H. by apply in_rev.
Qed.

Lemma forallb_strip p s : forallb p s = true -> forallb p (strip s) = true.
Proof.
  intros H. unfold strip. by apply forallb_rev, forallb_lstrip, forallb_rev, forallb_lstrip.
Qed.

(** X7.  The header fields of every record have the form the header
    expression gives them: [shipment] and [pieces] are digits; [ship_date]
    is [dd/dd/dddd]; [freight], [other_charges] and [total] are digits and
    commas, a decimal point and digits; [weight] is a number, blanks and
    lowercase [kg]; [reference] is non-empty and has no white space;
    [service] has no newline and no blank at either end. *)
Theorem header_field_shapes text :
  exists recs, parse_blocks text = Ok recs
    /\ Forall (fun r =>
         (forall k, k = "shipment" \/ k = "pieces" ->
            exists v, r !! k = Some (VStr v) /\ digits_shape v)
         /\ (exists v, r !! "ship_date" = Some (VStr v) /\ date_shape v)
         /\ (forall k, k = "freight" \/ k = "other_charges" \/ k = "total" ->
               exists v, r !! k = Some (VStr v) /\ amount_shape v)
         /\ (exists v, r !! "weight" = Some (VStr v) /\ weight_shape v)
         /\ (exists v, r !! "reference" = Some (VStr v)
                       /\ v <> [] /\ forallb non_space v = true)
         /\ (exists v, r !! "service" = Some (VStr v)
                       /\ trimmed v /\ forallb any_but_nl v = true)) recs.
Proof.
  apply records_forall. intros m block r Hm Hr.
  destruct (parse_block_header_fields text m block r Hm Hr) as [Hk (sv & Hsv & Hrs)].
  assert (Hfield : forall k g, k ∈ header_keys -> k <> "service" ->
            sub_of k HEADER_RE = Some g ->
            exists v bb cc bb' cc', r !! k = Some (VStr v) /\ exec g bb v cc bb' cc').
  { intros k g Hin Hns Hg.
    destruct (Hk k Hin Hns) as (v & Hv & _ & Hrv).
    destruct (header_group_exec text m k g Hm Hg) as (v' & bb & cc & bb' & cc' & Hv' & He).
    rewrite Hv in Hv'. injection Hv' as <-. by exists v, bb, cc, bb', cc'. }
  split_and!.
  - intros k [-> | ->]; field_shape Hfield ds exec_ds_shape.
  - field_shape Hfield date_re exec_date_shape.
  - intros k [-> | [-> | ->]]; field_shape Hfield amount_re exec_amount_shape.
  - field_shape Hfield (seqs [ds; Opt (Seq (lit ".") ds); ws0; lits (txt "kg")])
      exec_weight_shape.
  - destruct (Hfield "reference" (Plus true non_space))
      as (v & ? & ? & ? & ? & Hv & He);
      [unfold header_keys; repeat constructor|done|reflexivity|].
    apply exec_plus_inv in He as (a & w' & -> & Ha & Hw).
    exists (a :: w'). split_and!; [done|done|]. simpl. by rewrite Ha, Hw.
  - exists (strip sv). split_and!; [done|apply strip_trimmed|].
    destruct (header_group_exec text m "service" _ Hm eq_refl)
      as (v' & ? & ? & ? & ? & Hv' & He).
    rewrite Hsv in Hv'. injection Hv' as <-.
    apply exec_plus_inv in He as (a & w' & -> & Ha & Hw).
    apply forallb_strip. simpl. by rewrite Ha, Hw.
Qed.

(** ** The numeric tokens of a segment *)

(** X8.  [_numbers_in_segment] lists the texts of matches of [NUM_RE] that
    lie in the segment, from left to right and without overlap.  Each token
    is an optional minus sign, digits and commas, a decimal point and at
    least one digit; it has no percent sign and no [kg] in the three
    characters on either side; and [Decimal] accepts it once the commas are
    removed. *)
Theorem numbers_in_segment_tokens seg :
  _numbers_in_segment seg = map m_text (tokens_in seg)
  /\ StronglySorted (fun m1 m2 => m_end m1 <= m_start m2) (tokens_in seg)
  /\ Forall (fun m =>
       m_end m <= length seg
       /\ m_text m = slice seg (m_start m) (m_end m)
       /\ (exists sign body frac,
             m_text m = sign ++ body ++ "."%char :: frac
             /\ (sign = [] \/ sign = txt "-")
             /\ forallb digit_or_comma body = true
             /\ forallb is_digit frac = true /\ frac <> [])
       /\ dirty_at seg (m_start m) (length (m_text m)) = false
       /\ exists d, to_decimal (m_text m) = Ok d) (tokens_in seg).
Proof.
  split; [done|]. split.
  - unfold tokens_in. apply StronglySorted_filter, finditer_disjoint.
  - destruct (tokens_in_sound seg) as [HF _].
    rewrite Forall_forall in HF. apply Forall_forall. intros m Hin.
    destruct (HF m Hin) as [Hm Hex].
    pose proof Hm as (_ & Hend & Hlen & Htext & b & b' & He).
    split_and!.
    + lia.
    + by rewrite !Nat.sub_0_r in Htext.
    + by eapply num_token_shape.
    + by apply token_clean_at in Hin as [_ ?].
    + by eapply to_decimal_ok.
Qed.

(** ** What a header needs *)

Lemma exec_sub_infix r b w c b' c' n g :
  exec r b w c b' c' -> sub_of n r = Some g ->
  exists v pre post, c' !! n = Some v /\ w = pre ++ v ++ post.
Proof.
  induction 1; simpl; try done.
  - destruct (sub_of n r2) as [g2|] eqn:E2.
    + intros [= <-]. destruct (IHexec2 eq_refl) as (v & pre & post & Hv & ->).
      exists v, (w1 ++ pre), post. by rewrite <- app_assoc.
    + destruct (mentions n r2) eqn:Em; [done|]. intros Hs.
      destruct (IHexec1 Hs) as (v & pre & post & Hv & ->).
      exists v, pre, (post ++ w2). split.
      * by rewrite (exec_frame _ _ _ _ _ _ _ H0 Em).
      * by rewrite <- !app_assoc.
  - destruct (String.eqb n n0) eqn:E.
    + apply String.eqb_eq in E as ->. intros _.
      exists w, [], []. rewrite lookup_insert_eq. by rewrite app_nil_r.
    + apply String.eqb_neq in E. intros Hs.
      destruct (IHexec Hs) as (v & pre & post & Hv & ->).
      exists v, pre, post. by rewrite lookup_insert_ne.
Qed.

Lemma slice_infix (s : str) i j : exists pre post, s = pre ++ slice s i j ++ post.
Proof.
  exists (take i s), (drop (j - i) (drop i s)). unfold slice.
  by rewrite (take_drop (j - i) (drop i s)), take_drop.
Qed.

(** The text of a group of a match is part of the searched text. *)
Lemma match_group_infix r base s m n g v :
  match_of r base s m -> sub_of n r = Some g -> group m n = Some v ->
  exists pre post, s = pre ++ v ++ post.
Proof.
  intros (_ & _ & _ & Htext & b & b' & He) Hs Hv.
  destruct (exec_sub_infix _ _ _ _ _ _ n g He Hs) as (v' & pre & post & Hv' & Hw).
  unfold group in Hv. rewrite Hv in Hv'. injection Hv' as <-.
  destruct (slice_infix s (m_start m - base) (m_end m - base)) as (p & q & Hs').
  rewrite <- Htext, Hw in Hs'. exists (p ++ pre), (post ++ q).
  rewrite Hs' at 1. by rewrite <- !app_assoc.
Qed.

(** X9.  The header expression is case sensitive: a document in which the
    two letters [kg] never occur in lower case yields no record at all,
    whatever else it holds. *)
Theorem no_lowercase_kg_no_record text :
  contains (txt "kg") text = false -> parse_blocks text = Ok [].
Proof.
  intros Hkg. destruct (parse_blocks_spec text) as (recs & Hrecs & HF).
  destruct (finditer HEADER_RE text) as [|m ms] eqn:Em.
  - apply Forall2_nil_inv_l in HF as ->. done.
  - exfalso.
    assert (Hm : m ∈ finditer HEADER_RE text) by (rewrite Em; constructor).
    destruct (finditer_sound HEADER_RE text) as [Hsound _].
    rewrite Forall_forall in Hsound. specialize (Hsound m Hm).
    destruct (header_group_exec text m "weight" _ Hm eq_refl)
      as (wv & ? & ? & ? & ? & Hwv & Hw).
    apply exec_weight_shape in Hw as (d & num & blanks & -> & _).
    destruct (match_group_infix _ _ _ _ "weight" _ _ Hsound eq_refl Hwv)
      as (pre & post & Htext).
    assert (Hc : contains (txt "kg") text = true).
    { apply contains_iff. exists (pre ++ d :: num ++ blanks), post.
      rewrite Htext at 1. simpl. rewrite <- !app_assoc. simpl.
      by rewrite <- !app_assoc. }
    by rewrite Hkg in Hc.
Qed.

Lemma no_lowercase_kg_no_record_witness :
  contains (txt "kg") capital_unit_header = false
  /\ parse_blocks capital_unit_header = Ok [].
Proof.
  split; [by vm_compute|]. apply no_lowercase_kg_no_record. by vm_compute.
Defined.

(** ** Labels that do not occur *)

Lemma contains_infix sub (s t : str) pre post :
  t = pre ++ s ++ post -> contains sub s = true -> contains sub t = true.
Proof.
  intros -> (p & q & ->)%contains_iff. apply contains_iff.
  exists (pre ++ p), (q ++ post). by rewrite <- !app_assoc.
Qed.

Lemma contains_absent_infix sub (s t : str) pre post :
  t = pre ++ s ++ post -> contains sub t = false -> contains sub s = false.
Proof.
  intros Ht Hn. destruct (contains sub s) eqn:E; [|done].
  by rewrite (contains_infix _ _ _ _ _ Ht E) in Hn.
Qed.

Lemma splitlines_aux_infix n :
  forall s cur line, length s <= n -> line ∈ splitlines_aux cur s ->
    exists pre post, rev cur ++ s = pre ++ line ++ post.
Proof.
  induction n as [|n IH]; intros s cur line Hn Hin.
  - destruct s; [|simpl in Hn; lia]. simpl in Hin.
    destruct cur as [|x cur]; [by apply elem_of_nil in Hin|].
    apply list_elem_of_singleton in Hin as ->. exists [], []. by rewrite !app_nil_r.
  - destruct s as [|a s]; simpl in Hin.
    { destruct cur as [|x cur]; [by apply elem_of_nil in Hin|].
      apply list_elem_of_singleton in Hin as ->. exists [], [].
      by rewrite !app_nil_r. }
    simpl in Hn.
    assert (Hhere : exists pre post, rev cur ++ a :: s = pre ++ rev cur ++ post)
      by (by exists [], (a :: s)).
    assert (Hrest : forall skipped s', s = skipped ++ s' ->
              line ∈ splitlines_aux [] s' ->
              exists pre post, rev cur ++ a :: s = pre ++ line ++ post).
    { intros skipped s' -> Hl. rewrite length_app in Hn.
      destruct (IH s' [] line ltac:(lia) Hl) as (pre & post & Hs). simpl in Hs.
      exists (rev cur ++ a :: skipped ++ pre), post. rewrite Hs.
      rewrite <- !app_assoc. simpl. by rewrite <- !app_assoc. }
    destruct (code a =? 13).
    + destruct s as [|b s'].
      * apply elem_of_cons in Hin as [->|Hin]; [done|by apply (Hrest [] [])].
      * destruct (is_nl b).
        -- apply elem_of_cons in Hin as [->|Hin]; [done|by apply (Hrest [b] s')].
        -- apply elem_of_cons in Hin as [->|Hin];
             [done|by apply (Hrest [] (b :: s'))].
    + destruct (is_linebreak a).
      * apply elem_of_cons in Hin as [->|Hin]; [done|by apply (Hrest [] s)].
      * destruct (IH s (a :: cur) line ltac:(lia) Hin) as (pre & post & Hs).
        exists pre, post. rewrite <- Hs. simpl. by rewrite <- app_assoc.
Qed.

Lemma splitlines_infix s line :
  line ∈ splitlines s -> exists pre post, s = pre ++ line ++ post.
Proof. intros H. by apply (splitlines_aux_infix (length s) s [] line). Qed.

Lemma first_label_line_absent L lines :
  forall base,
    (forall line, line ∈ lines -> contains L (lower line) = false) ->
    first_label_line L lines base = None.
Proof.
  induction lines as [|line lines IH]; intros base H; simpl; [done|].
  pose proof (H line ltac:(constructor)) as Hl. unfold contains in Hl.
  destruct (find (lower line) L 0); [done|].
  apply IH. intros l Hin. apply H. by constructor.
Qed.

Lemma label_absent text L :
  contains L (lower text) = false ->
  first_label_line L (splitlines text) 0 = None.
Proof.
  intros H. apply first_label_line_absent. intros line Hin.
  apply splitlines_infix in Hin as (pre & post & ->).
  rewrite !lower_app in H. by eapply contains_absent_infix.
Qed.

(** X10.  A finder looks for numbers only around a line that holds its
    label: when the label occurs nowhere in the text, whatever the case of
    the letters, each of the four finders returns [None] without raising,
    however many numbers the text has. *)
Theorem finders_need_the_label text label window :
  contains (lower label) (lower text) = false ->
  _amount_from_label_line text label = Ok None
  /\ _find_amount_for_label text label window = Ok None
  /\ _find_amount_near_label text label window = Ok None
  /\ _find_amount_after_label text label = Ok None.
Proof.
  intros H. apply label_absent in H.
  unfold _amount_from_label_line, _find_amount_for_label, _find_amount_near_label,
    _find_amount_after_label.
  by rewrite H.
Qed.

Lemma finders_need_the_label_witness :
  contains (lower (txt "Discount")) (lower header_only) = false
  /\ _amount_from_label_line header_only (txt "Discount") = Ok None
  /\ _find_amount_for_label header_only (txt "Discount") 3 = Ok None
  /\ _find_amount_near_label header_only (txt "Discount") 3 = Ok None
  /\ _find_amount_after_label header_only (txt "Discount") = Ok None.
Proof.
  split; [by vm_compute|]. apply finders_need_the_label. by vm_compute.
Defined.

Lemma exec_litsi_inv s :
  forall b w c b' c', exec (litsi s) b w c b' c' -> lower w = lower s.
Proof.
  assert (Hone : forall a b w c b' c', exec (liti a) b w c b' c' -> lower w = lower [a]).
  { intros a b w c b' c' H. apply exec_chr_inv in H as (x & -> & Hx & _).
    apply Ascii.eqb_eq in Hx. simpl. by rewrite Hx. }
  induction s as [|a s IH]; intros b w c b' c' H.
  - by apply exec_eps_inv in H as [-> _].
  - destruct s as [|a' s].
    + by apply Hone in H.
    + change (litsi (a :: a' :: s)) with (Seq (liti a) (litsi (a' :: s))) in H.
      apply exec_seq_inv in H as (w1 & w2 & ? & ? & -> & H1 & H2).
      apply Hone in H1. apply IH in H2.
      rewrite lower_app, H1, H2. done.
Qed.

Lemma label_pat_word f pat b w c b' c' :
  pat = match f with
        | Transportation => transport_pat
        | Discount => discount_pat
        | Fuel => fuel_pat
        end ->
  exec pat b w c b' c' -> exists post, lower w = word_of f ++ post.
Proof.
  intros -> H. destruct f.
  - unfold transport_pat in H. simpl seqs in H.
    apply exec_seq_inv in H as (w1 & w2 & ? & ? & -> & H1 & _).
    apply (exec_litsi_inv (txt "Transportation")) in H1. exists (lower w2). by rewrite lower_app, H1.
  - apply exec_litsi_inv in H. exists []. by rewrite H.
  - unfold fuel_pat in H. simpl seqs in H.
    apply exec_seq_inv in H as (w1 & w2 & ? & ? & -> & H1 & _).
    apply (exec_litsi_inv (txt "Fuel")) in H1. exists (lower w2). by rewrite lower_app, H1.
Qed.

Lemma pattern_match_word f text m :
  pattern_match f text = Some m -> contains (word_of f) (lower text) = true.
Proof.
  unfold pattern_match. intros H.
  assert (Hm : exists w, (exists p q, text = p ++ w ++ q)
                         /\ exists pre post, lower w = pre ++ word_of f ++ post).
  { destruct (re_search (after_of f) text) as [ma|] eqn:Ea.
    - injection H as ->. apply re_search_sound in Ea as (_ & _ & _ & Ht & b & b' & He).
      exists (m_text m). split; [rewrite Ht; apply slice_infix|].
      assert (He' : exists pat, pat = match f with
                                      | Transportation => transport_pat
                                      | Discount => discount_pat
                                      | Fuel => fuel_pat
                                      end
                   /\ exec (after_re pat) b (m_text m) ∅ b' (m_groups m))
        by (destruct f; eexists; split; try reflexivity; exact He).
      destruct He' as (pat & Hpat & He'). unfold after_re in He'. simpl seqs in He'.
      apply exec_seq_inv in He' as (w1 & w2 & ? & ? & -> & H1 & _).
      destruct (label_pat_word f pat _ _ _ _ _ Hpat H1) as [post Hw].
      exists [], (post ++ lower w2). rewrite lower_app, Hw. by rewrite <- app_assoc.
    - apply re_search_sound in H as (_ & _ & _ & Ht & b & b' & He).
      exists (m_text m). split; [rewrite Ht; apply slice_infix|].
      assert (He' : exists pat, pat = match f with
                                      | Transportation => transport_pat
                                      | Discount => discount_pat
                                      | Fuel => fuel_pat
                                      end
                   /\ exec (before_re pat) b (m_text m) ∅ b' (m_groups m))
        by (destruct f; eexists; split; try reflexivity; exact He).
      destruct He' as (pat & Hpat & He'). unfold before_re in He'. simpl seqs in He'.
      apply exec_seq_inv in He' as (w1 & w2 & ? & ? & -> & _ & H2).
      apply exec_seq_inv in H2 as (w3 & w4 & ? & ? & -> & _ & H3).
      destruct (label_pat_word f pat _ _ _ _ _ Hpat H3) as [post Hw].
      exists (lower w1 ++ lower w3), post. rewrite !lower_app, Hw.
      by rewrite <- !app_assoc. }
  destruct Hm as (w & (p & q & ->) & pre & post & Hw).
  apply contains_iff. exists (lower p ++ pre), (post ++ lower q).
  rewrite !lower_app, Hw. by rewrite <- !app_assoc.
Qed.

Lemma label_has_word f : exists post, lower (label_of f) = word_of f ++ post.
Proof. destruct f; by eexists. Qed.

Lemma resolved_absent f text :
  contains (word_of f) (lower text) = false -> resolved f text = Ok None.
Proof.
  intros H.
  assert (Hl : contains (lower (label_of f)) (lower text) = false).
  { destruct (contains (lower (label_of f)) (lower text)) eqn:E; [|done].
    apply contains_iff in E as (p & q & E). destruct (label_has_word f) as [post Hp].
    rewrite Hp in E.
    assert (contains (word_of f) (lower text) = true); [|congruence].
    apply contains_iff. exists p, (post ++ q). rewrite E. by rewrite <- app_assoc. }
  apply label_absent in Hl.
  unfold resolved, resolve_field, _amount_from_label_line. rewrite Hl.
  cbn [mbind result_bind mret result_ret]. unfold fall_back. simpl truthy. simpl negb.
  cbv iota.
  destruct (pattern_match f text) as [m|] eqn:Ep.
  - apply pattern_match_word in Ep. congruence.
  - unfold _find_amount_for_label. by rewrite Hl.
Qed.

Lemma slice_charges_infix block :
  exists pre post, block = pre ++ _slice_charges_section block ++ post.
Proof.
  unfold _slice_charges_section.
  destruct (find (lower block) (txt "charges") 0) as [s|];
    [|exists [], []; by rewrite app_nil_r].
  assert (Hdrop : exists pre post, block = pre ++ drop s block ++ post).
  { exists (take s block), []. by rewrite app_nil_r, take_drop. }
  destruct (min_or_none _) as [e|]; [|done].
  destruct (s <? e); [apply slice_infix|done].
Qed.

(** X11.  A charge needs its word.  In a document of characters below
    U+0100, when the charges section of a block (or the whole block) does
    not hold the word [transportation], in whatever case, the record has no
    [transportation_charge], and likewise for [discount]; the numbers of the
    block are never taken for a charge whose label is missing. *)
Theorem charge_needs_its_word text :
  exists recs, parse_blocks text = Ok recs
    /\ Forall2 (fun mb r =>
         forall f, f <> Fuel ->
           (contains (word_of f) (lower (_slice_charges_section mb.2)) = false ->
            r !! key_of f = None)
           /\ (contains (word_of f) (lower mb.2) = false -> r !! key_of f = None))
         (zip (finditer HEADER_RE text) (block_texts text)) recs.
Proof.
  apply records_lift. intros m block r Hm Hr f Hf. simpl.
  destruct (header_group text m "service" Hm eq_refl) as (sv & Hsv & _).
  destruct (header_group text m "weight" Hm eq_refl) as (wv & Hwv & _).
  destruct (parse_block_spec m block sv wv Hsv Hwv)
    as (r' & Hr' & _ & _ & _ & _ & _ & _ & Hres).
  rewrite Hr in Hr'. injection Hr' as <-.
  destruct (Hres f Hf) as (v & Hv & Hrv).
  assert (Hsec : contains (word_of f) (lower (_slice_charges_section block)) = false ->
                 r !! key_of f = None).
  { intros Hc. rewrite (resolved_absent _ _ Hc) in Hv. injection Hv as <-.
    by rewrite Hrv. }
  split; [done|]. intros Hc. apply Hsec.
  destruct (slice_charges_infix block) as (pre & post & Hb).
  rewrite Hb in Hc at 1. rewrite !lower_app in Hc.
  by eapply contains_absent_infix.
Qed.

(** ** The charges section *)

Lemma starts_with_take sub (t : str) n :
  starts_with sub (take n t) = true
  <-> starts_with sub t = true /\ length sub <= length (take n t).
Proof.
  rewrite !starts_with_iff. split.
  - intros [post H]. split.
    + exists (post ++ drop n t). rewrite app_assoc, <- H. by rewrite take_drop.
    + rewrite H, length_app. lia.
  - intros [[post ->] Hlen]. rewrite length_take, length_app in Hlen.
    exists (take (n - length sub) post).
    rewrite take_app. f_equal.
    apply take_ge. lia.
Qed.

Lemma occurs_at_drop sub (low : str) s j :
  s <= length low ->
  occurs_at sub (drop s low) j = occurs_at sub low (s + j).
Proof.
  intros Hs. unfold occurs_at. rewrite length_drop, drop_drop. f_equal.
  destruct (Nat.leb_spec j (length low - s)), (Nat.leb_spec (s + j) (length low));
    (done || lia).
Qed.

Lemma occurs_at_take sub (low : str) n j :
  sub <> [] -> occurs_at sub (take n low) j = true ->
  occurs_at sub low j = true /\ j < n.
Proof.
  intros Hne. unfold occurs_at. intros [Hj H]%andb_true_iff.
  apply Nat.leb_le in Hj. rewrite length_take in Hj.
  rewrite skipn_firstn_comm in H. apply starts_with_take in H as [H Hlen].
  rewrite length_take, length_drop in Hlen.
  assert (0 < length sub) by (destruct sub; [done|simpl; lia]).
  split; [|lia]. apply andb_true_iff. split; [apply Nat.leb_le; lia|done].
Qed.

Lemma end_token_nonempty tok : tok ∈ end_tokens -> tok <> [].
Proof.
  unfold end_tokens. intros H.
  repeat (apply elem_of_cons in H as [->|H]; [done|]). by apply elem_of_nil in H.
Qed.

(** The three ways the section is cut, read off the searches of the code. *)
Lemma slice_charges_cases block :
  let low := lower block in
  ((forall i, occurs_at (txt "charges") low i = false)
   /\ _slice_charges_section block = block)
  \/ exists s,
       first_occurrence (txt "charges") low 0 s
       /\ (((forall j, s + 7 <= j -> marker_at low j = false)
            /\ _slice_charges_section block = drop s block)
           \/ exists e,
                s + 7 <= e /\ marker_at low e = true
                /\ (forall j, s + 7 <= j -> j < e -> marker_at low j = false)
                /\ _slice_charges_section block = slice block s e).
Proof.
  intros low. destruct (find low (txt "charges") 0) as [s|] eqn:Ef.
  - right. exists s. apply find_Some in Ef as Hs. split; [done|].
    set (L := omap (fun token => find low token (s + 7)) end_tokens).
    assert (Hin : forall tok j, tok ∈ end_tokens -> s + 7 <= j ->
                    occurs_at tok low j = true -> exists p, p ∈ L /\ p <= j).
    { intros tok j Htok Hj Hocc.
      destruct (find low tok (s + 7)) as [p|] eqn:Ep;
        [|by rewrite (find_None _ _ _ _ Ep Hj) in Hocc].
      exists p. split; [apply list_elem_of_omap; by exists tok|].
      apply find_Some in Ep as (_ & _ & Hfirst).
      destruct (Nat.le_gt_cases p j) as [|Hlt]; [done|].
      by rewrite (Hfirst j Hj Hlt) in Hocc. }
    destruct L as [|x l] eqn:EL.
    + left.
      assert (Hno : forall j, s + 7 <= j -> marker_at low j = false).
      { intros j Hj. destruct (marker_at low j) eqn:Em; [|done].
        apply marker_at_true in Em as (tok & Htok & Hocc).
        destruct (Hin tok j Htok Hj Hocc) as (p & Hp & _). by apply elem_of_nil in Hp. }
      split; [done|]. by apply slice_charges_no_marker.
    + right. destruct (min_or_none_Some L) as (m & _ & Hm & Hmin);
        [by rewrite EL|].
      rewrite <- EL in Hin.
      pose proof Hm as Hm'. unfold L in Hm'.
      apply list_elem_of_omap in Hm' as (tok' & Htok' & Hf').
      apply find_Some in Hf' as (Hm1 & Hm2 & _).
      assert (Hmark : marker_at low m = true)
        by (apply marker_at_true; by exists tok').
      assert (Hfirst : forall j, s + 7 <= j -> j < m -> marker_at low j = false).
      { intros j Hj Hlt. destruct (marker_at low j) eqn:Em; [|done].
        apply marker_at_true in Em as (tok & Htok & Hocc).
        destruct (Hin tok j Htok Hj Hocc) as (p & Hp & Hpj).
        specialize (Hmin p Hp). lia. }
      exists m. split_and!; try done. by apply slice_charges_marker.
  - left. split.
    + intros i. apply (find_None _ _ _ _ Ef). lia.
    + apply slice_charges_absent. intros i. apply (find_None _ _ _ _ Ef). lia.
Qed.

Lemma slice_charges_fixed (R : str) :
  occurs_at (txt "charges") (lower R) 0 = true ->
  (forall j, 7 <= j -> marker_at (lower R) j = false) ->
  _slice_charges_section R = R.
Proof.
  intros H0 Hno.
  rewrite (slice_charges_no_marker R 0); [done| |done].
  split; [done|]. split; [done|]. intros j _ Hj. lia.
Qed.

(** X12.  For a block of characters below U+0100, the charges section is a
    contiguous part of the block.  When the block holds the word [charges]
    (in any case) the section begins with it, otherwise the section is the
    whole block.  Cutting the section out of a section changes nothing. *)
Theorem slice_charges_section_stable block :
  let section := _slice_charges_section block in
  (exists pre post, block = pre ++ section ++ post)
  /\ (if contains (txt "charges") (lower block)
      then exists rest, lower section = txt "charges" ++ rest
      else section = block)
  /\ _slice_charges_section section = section.
Proof.
  intros section. split; [apply slice_charges_infix|].
  unfold section. clear section.
  destruct (slice_charges_cases block) as [[Hno ->]|(s & Hs & Hcase)].
  - split; [|by apply slice_charges_absent].
    destruct (contains (txt "charges") (lower block)) eqn:Ec; [|done].
    unfold contains in Ec.
    destruct (find (lower block) (txt "charges") 0) as [i|] eqn:Ef; [|done].
    apply find_Some in Ef as (_ & Hi & _). by rewrite Hno in Hi.
  - pose proof Hs as (_ & Hocc & _).
    assert (Hlen : s + 7 <= length (lower block) /\ s <= length (lower block)
                   /\ starts_with (txt "charges") (drop s (lower block)) = true).
    { unfold occurs_at in Hocc. apply andb_true_iff in Hocc as [Hle Hst].
      apply Nat.leb_le in Hle. split_and!; [|done|done].
      apply starts_with_iff in Hst as [post Hst].
      assert (length (drop s (lower block)) = 7 + length post)
        by (by rewrite Hst, length_app).
      rewrite length_drop in *. lia. }
    destruct Hlen as (Hlen7 & Hlen & Hst).
    assert (Hc : contains (txt "charges") (lower block) = true).
    { unfold contains. by rewrite (find_first_occurrence _ _ _ _ Hs). }
    rewrite Hc.
    destruct Hcase as [[Hno ->]|(e & Hle & Hmark & Hfirst & ->)].
    + split.
      * apply starts_with_iff in Hst. by rewrite lower_drop.
      * apply slice_charges_fixed.
        -- rewrite lower_drop, occurs_at_drop by done. by rewrite Nat.add_0_r.
        -- intros j Hj. rewrite lower_drop.
           destruct (marker_at (drop s (lower block)) j) eqn:Em; [|done].
           apply marker_at_true in Em as (tok & Htok & Ho).
           rewrite occurs_at_drop in Ho by done.
           rewrite <- (Hno (s + j) ltac:(lia)). symmetry.
           apply marker_at_true. by exists tok.
    + assert (Hst' : starts_with (txt "charges")
                       (take (e - s) (drop s (lower block))) = true).
      { apply starts_with_take. split; [done|].
        rewrite length_take, length_drop. simpl. lia. }
      unfold slice. rewrite lower_take, lower_drop. split.
      * by apply starts_with_iff in Hst'.
      * apply slice_charges_fixed.
        -- rewrite lower_take, lower_drop. unfold occurs_at.
           rewrite drop_0, Hst'. by rewrite andb_true_r.
        -- intros j Hj. rewrite lower_take, lower_drop.
           destruct (marker_at (take (e - s) (drop s (lower block))) j) eqn:Em;
             [|done].
           apply marker_at_true in Em as (tok & Htok & Ho).
           apply occurs_at_take in Ho as [Ho Hlt]; [|by apply end_token_nonempty].
           rewrite occurs_at_drop in Ho by done.
           rewrite <- (Hfirst (s + j) ltac:(lia) ltac:(lia)). symmetry.
           apply marker_at_true. by exists tok.
Qed.

(** ** The order of strings *)

Lemma code_inj a b : code a = code b -> a = b.
Proof.
  unfold code. intros H.
  by rewrite <- (ascii_nat_embedding a), <- (ascii_nat_embedding b), H.
Qed.

Lemma str_ltb_irrefl s : str_ltb s s = false.
Proof.
  induction s as [|a s IH]; simpl; [done|].
  rewrite IH, Nat.ltb_irrefl. by rewrite andb_false_r.
Qed.

Lemma str_ltb_trans s : forall t u,
  str_ltb s t = true -> str_ltb t u = true -> str_ltb s u = true.
Proof.
  induction s as [|a s IH]; intros [|b t] [|c u]; simpl; try done.
  intros H1 H2.
  apply orb_true_iff in H1 as [H1|[H1 H1']%andb_true_iff];
    apply orb_true_iff in H2 as [H2|[H2 H2']%andb_true_iff];
    apply orb_true_iff;
    try apply Nat.ltb_lt in H1; try apply Nat.ltb_lt in H2;
    try apply Nat.eqb_eq in H1; try apply Nat.eqb_eq in H2.
  - left. apply Nat.ltb_lt. lia.
  - left. apply Nat.ltb_lt. lia.
  - left. apply Nat.ltb_lt. lia.
  - right. apply andb_true_iff. split; [apply Nat.eqb_eq; lia|]. by eapply IH.
Qed.

Lemma str_ltb_asym s : forall t, str_ltb s t = true -> str_ltb t s = false.
Proof.
  induction s as [|a s IH]; intros [|b t]; simpl; try done.
  intros [H|[H H']%andb_true_iff]%orb_true_iff; apply orb_false_iff.
  - apply Nat.ltb_lt in H. split; [apply Nat.ltb_ge; lia|].
    apply andb_false_iff. left. apply Nat.eqb_neq. lia.
  - apply Nat.eqb_eq in H. split; [apply Nat.ltb_ge; lia|].
    apply andb_false_iff. right. by apply IH.
Qed.

Lemma str_ltb_connex s : forall t,
  str_ltb s t = false -> str_ltb t s = false -> s = t.
Proof.
  induction s as [|a s IH]; intros [|b t]; simpl; try done.
  intros [H1 H1']%orb_false_iff [H2 H2']%orb_false_iff.
  apply Nat.ltb_ge in H1, H2. assert (Hc : code a = code b) by lia.
  rewrite Hc, Nat.eqb_refl in H1', H2'. simpl in H1', H2'.
  f_equal; [by apply code_inj | by apply IH].
Qed.

Lemma str_le_cases s t : str_le s t <-> str_lt s t \/ s = t.
Proof.
  unfold str_le, str_lt. split.
  - intros H. destruct (str_ltb s t) eqn:E; [by left|].
    right. by apply str_ltb_connex.
  - intros [H| ->]; [by apply str_ltb_asym | apply str_ltb_irrefl].
Qed.

Lemma str_le_total : Total str_le.
Proof.
  intros s t. unfold str_le. destruct (str_ltb t s) eqn:E; [|by left].
  right. by apply str_ltb_asym.
Qed.

Lemma str_le_trans : Transitive str_le.
Proof.
  intros s t u [H1| ->]%str_le_cases [H2| ->]%str_le_cases; apply str_le_cases.
  - left. by eapply str_ltb_trans.
  - by left.
  - by left.
  - by right.
Qed.

Lemma sorted_distinct_strict (l : list str) :
  StronglySorted str_le l -> NoDup l -> StronglySorted str_lt l.
Proof.
  induction 1 as [|x l Hs IH Hall]; intros Hnd; [constructor|].
  apply NoDup_cons in Hnd as [Hx Hnd]. constructor; [by apply IH|].
  rewrite Forall_forall in Hall. apply Forall_forall. intros y Hy.
  destruct (proj1 (str_le_cases x y) (Hall y Hy)) as [Hlt| ->]; [done|].
  by destruct Hx.
Qed.

(** ** The list of references *)

Lemma reference_entry_Some b x :
  reference_entry b = Some (Some x) <-> b !! "reference" = Some (VStr x) /\ x <> [].
Proof.
  unfold reference_entry. split.
  - destruct (b !! "reference") as [[|[|a s]|d]|]; try done.
    + by intros [= <-].
    + by destruct (bool_decide (d = ∅)).
  - intros [-> Hx]. by destruct x.
Qed.

Lemma sorted_references_spec blocks :
  Forall (fun b => is_Some (reference_entry b)) blocks ->
  exists refs,
    sorted_references blocks = Some refs
    /\ StronglySorted str_lt refs
    /\ forall x, x ∈ refs <-> exists b, b ∈ blocks /\ reference_entry b = Some (Some x).
Proof.
  intros Hall. unfold sorted_references.
  destruct (mapM reference_entry blocks) as [entries|] eqn:Em.
  2:{ apply mapM_is_Some in Hall. rewrite Em in Hall. by destruct Hall. }
  apply mapM_Some in Em. simpl.
  set (S := list_to_set (omap id entries) : gset str).
  exists (merge_sort str_le (elements S)). split; [done|]. split.
  - apply sorted_distinct_strict.
    + apply StronglySorted_merge_sort; [apply str_le_trans | apply str_le_total].
    + rewrite merge_sort_Permutation. apply NoDup_elements.
  - intros x. rewrite merge_sort_Permutation, elem_of_elements.
    unfold S. rewrite elem_of_list_to_set, list_elem_of_omap. split.
    + intros (e & He & Hx). simpl in Hx. subst e.
      apply list_elem_of_lookup in He as [i Hi].
      destruct (Forall2_lookup_r _ _ _ _ _ Em Hi) as (b & Hb & Hbe).
      exists b. split; [by eapply list_elem_of_lookup_2|done].
    + intros (b & Hb & Hbe).
      apply list_elem_of_lookup in Hb as [i Hi].
      destruct (Forall2_lookup_l _ _ _ _ _ Em Hi) as (e & He & Hbe').
      exists e. split; [by eapply list_elem_of_lookup_2|]. simpl. congruence.
Qed.

Lemma parse_blocks_references text :
  exists recs, parse_blocks text = Ok recs
    /\ Forall (fun r => exists v, r !! "reference" = Some (VStr v)
                                  /\ v <> [] /\ forallb non_space v = true) recs.
Proof.
  apply records_forall. intros m block r Hm Hr.
  destruct (parse_block_header_fields text m block r Hm Hr) as [Hk _].
  destruct (Hk "reference") as (v & Hv & Hne & Hrv);
    [unfold header_keys; repeat constructor|done|].
  destruct (header_group_exec text m "reference" _ Hm eq_refl)
    as (v' & ? & ? & ? & ? & Hv' & He).
  rewrite Hv in Hv'. injection Hv' as <-.
  apply exec_plus_inv in He as (a & w' & -> & Ha & Hw).
  exists (a :: w'). split_and!; [done|done|]. simpl. by rewrite Ha, Hw.
Qed.

Lemma references_listed_aux text :
  exists recs refs,
    parse_blocks text = Ok recs
    /\ list_fedex_references text = Ok (Some refs)
    /\ sorted_references recs = Some refs
    /\ StronglySorted str_lt refs
    /\ (forall x, x ∈ refs <-> exists r, r ∈ recs /\ r !! "reference" = Some (VStr x))
    /\ Forall (fun x => x <> [] /\ forallb non_space x = true) refs.
Proof.
  destruct (parse_blocks_references text) as (recs & Hrecs & Href).
  rewrite Forall_forall in Href.
  destruct (sorted_references_spec recs) as (refs & Hrefs & Hsorted & Hin).
  { apply Forall_forall. intros r Hr. destruct (Href r Hr) as (v & Hv & Hne & _).
    exists (Some v). by apply reference_entry_Some. }
  assert (Hin' : forall x, x ∈ refs <->
                   exists r, r ∈ recs /\ r !! "reference" = Some (VStr x)).
  { intros x. rewrite Hin. split; intros (r & Hr & Hx); exists r; (split; [done|]).
    - by apply reference_entry_Some in Hx as [? _].
    - apply reference_entry_Some. split; [done|].
      destruct (Href r Hr) as (v & Hv & Hne & _). congruence. }
  exists recs, refs. split_and!; try done.
  - unfold list_fedex_references. rewrite Hrecs. simpl. by rewrite Hrefs.
  - apply Forall_forall. intros x Hx. apply Hin' in Hx as (r & Hr & Hx).
    destruct (Href r Hr) as (v & Hv & Hne & Hns).
    rewrite Hx in Hv. by injection Hv as <-.
Qed.

(** X13.  The list of references never fails.  It holds exactly the
    references of the records of the document, each one once, in strictly
    increasing order of their code points; none is empty and none has
    white space. *)
Theorem references_listed text :
  exists recs refs,
    parse_blocks text = Ok recs
    /\ list_fedex_references text = Ok (Some refs)
    /\ StronglySorted str_lt refs
    /\ (forall x, x ∈ refs <-> exists r, r ∈ recs /\ r !! "reference" = Some (VStr x))
    /\ Forall (fun x => x <> [] /\ forallb non_space x = true) refs.
Proof.
  destruct (references_listed_aux text) as (recs & refs & H1 & H2 & _ & H3 & H4 & H5).
  by exists recs, refs.
Qed.

Lemma has_reference_true x r :
  has_reference x r = true <-> r !! "reference" = Some (VStr x).
Proof.
  unfold has_reference. destruct (r !! "reference") as [[|s|d]|]; try (split; done).
  rewrite bool_decide_eq_true. split; [by intros -> | by intros [= ->]].
Qed.

Lemma hits_nonempty x (recs : list record) :
  filter (fun b => has_reference x b = true) recs <> []
  <-> exists r, r ∈ recs /\ r !! "reference" = Some (VStr x).
Proof.
  split.
  - destruct (filter _ recs) as [|r l] eqn:E; [done|]. intros _.
    assert (Hr : r ∈ filter (fun b => has_reference x b = true) recs)
      by (rewrite E; constructor).
    apply list_elem_of_filter in Hr as [Hx Hr]. exists r.
    by apply has_reference_true in Hx.
  - intros (r & Hr & Hx) Hnil.
    assert (Hin : r ∈ filter (fun b => has_reference x b = true) recs).
    { apply list_elem_of_filter. split; [by apply has_reference_true|done]. }
    rewrite Hnil in Hin. by apply elem_of_nil in Hin.
Qed.

Lemma lookup_found_iff x text recs :
  parse_blocks text = Ok recs ->
  let hits := filter (fun b => has_reference x b = true) recs in
  (hits <> [] <-> fedex_by_reference x text <> Ok (NotFound x))
  /\ (hits <> [] <-> main_ref x text <> Ok (Many [], 0)).
Proof.
  intros Hrecs hits.
  destruct (lookup_answers x text) as (recs' & Hrecs' & H0 & H1 & H2).
  rewrite Hrecs in Hrecs'. injection Hrecs' as <-. fold hits in H0, H1, H2.
  destruct hits as [|r [|r' l]] eqn:E.
  - destruct (H0 eq_refl) as [-> ->]. split; split; done.
  - destruct (H1 r eq_refl) as [-> ->]. split; split; done.
  - destruct H2 as [-> ->]; [simpl; lia|]. split; split; done.
Qed.

(** X14.  The list and the lookups agree: a string is in the list of
    references exactly when the lookup of the service finds it (does not
    answer that the reference is not found), and exactly when the [--ref]
    option prints something else than the empty list. *)
Theorem listed_iff_found text :
  exists refs,
    list_fedex_references text = Ok (Some refs)
    /\ forall x,
         (x ∈ refs <-> fedex_by_reference x text <> Ok (NotFound x))
         /\ (x ∈ refs <-> main_ref x text <> Ok (Many [], 0)).
Proof.
  destruct (references_listed_aux text) as (recs & refs & Hrecs & Hl & _ & _ & Hin & _).
  exists refs. split; [done|]. intros x.
  destruct (lookup_found_iff x text recs Hrecs) as [Hf Hm].
  rewrite Hin, <- hits_nonempty. by split.
Qed.

(** X15.  No record is ever found under the empty string or under a string
    with white space in it: a reference of a record is a run of characters
    that are not white space.  The service answers that the reference is
    not found and the command line prints the empty list. *)
Theorem blank_reference_not_found x text :
  x = [] \/ existsb is_space x = true ->
  fedex_by_reference x text = Ok (NotFound x)
  /\ main_ref x text = Ok (Many [], 0).
Proof.
  intros Hx.
  destruct (references_listed_aux text) as (recs & refs & Hrecs & _ & _ & _ & Hin & Hall).
  destruct (lookup_answers x text) as (recs' & Hrecs' & H0 & _).
  rewrite Hrecs in Hrecs'. injection Hrecs' as <-.
  apply H0.
  destruct (filter _ recs) as [|r l] eqn:E; [done|]. exfalso.
  assert (Hne : filter (fun b => has_reference x b = true) recs <> [])
    by (by rewrite E).
  apply hits_nonempty, Hin in Hne.
  rewrite Forall_forall in Hall. destruct (Hall x Hne) as [Hne' Hns].
  destruct Hx as [->|Hsp]; [done|].
  apply existsb_exists in Hsp as (a & Ha & Hsp).
  rewrite forallb_forall in Hns. specialize (Hns a Ha).
  unfold non_space in Hns. by rewrite Hsp in Hns.
Qed.

Lemma blank_reference_not_found_witness :
  (txt "REF 123" = [] \/ existsb is_space (txt "REF 123") = true)
  /\ fedex_by_reference (txt "REF 123") sample_invoice = Ok (NotFound (txt "REF 123"))
  /\ main_ref (txt "REF 123") sample_invoice = Ok (Many [], 0).
Proof.
  assert (H : txt "REF 123" = [] \/ existsb is_space (txt "REF 123") = true)
    by (right; reflexivity).
  split; [exact H|]. exact (blank_reference_not_found _ sample_invoice H).
Defined.

(** ** The command line *)





Lemma non_space_not_break a :
  non_space a = true -> (code a =? 13) = false /\ is_linebreak a = false.
Proof.
  unfold non_space, is_space, is_linebreak. intros H. apply negb_true_iff in H.
  revert H.
  repeat match goal with
  | |- context [?x <=? ?y] => destruct (Nat.leb_spec x y) as [?|?]
  | |- context [?x =? ?y] => destruct (Nat.eqb_spec x y) as [?|?]
  end; simpl; intros Hs; try done; lia.
Qed.

Lemma splitlines_aux_line x :
  forall cur rest, forallb non_space x = true ->
    splitlines_aux cur (x ++ nl :: rest) = (rev cur ++ x) :: splitlines_aux [] rest.
Proof.
  induction x as [|a x IH]; intros cur rest Hx.
  - rewrite app_nil_r. reflexivity.
  - simpl in Hx. apply andb_true_iff in Hx as [Ha Hx].
    apply non_space_not_break in Ha as [H13 Hbr]. simpl.
    rewrite H13, Hbr, IH by done. simpl. by rewrite <- app_assoc.
Qed.

Lemma splitlines_aux_last x :
  forall cur, forallb non_space x = true -> cur ++ x <> [] ->
    splitlines_aux cur x = [rev cur ++ x].
Proof.
  induction x as [|a x IH]; intros cur Hx Hne.
  - rewrite app_nil_r in *. simpl. by destruct cur.
  - simpl in Hx. apply andb_true_iff in Hx as [Ha Hx].
    apply non_space_not_break in Ha as [H13 Hbr]. simpl.
    rewrite H13, Hbr, IH by done. simpl. by rewrite <- app_assoc.
Qed.

Lemma splitlines_join (l : list str) :
  Forall (fun x => x <> [] /\ forallb non_space x = true) l ->
  splitlines (join_lines l) = l.
Proof.
  induction 1 as [|x l [Hne Hx] Hl IH]; [done|].
  destruct l as [|y l].
  - simpl. unfold splitlines. by rewrite splitlines_aux_last.
  - change (join_lines (x :: y :: l)) with (x ++ nl :: join_lines (y :: l)).
    unfold splitlines in *. rewrite splitlines_aux_line by done.
    by rewrite IH.
Qed.

(** X17.  The listing can be read back: the references joined by newlines,
    as [--list] prints them, split into lines again give the list of
    references, one reference per line and no empty line. *)
Theorem listing_reads_back text :
  exists refs,
    list_fedex_references text = Ok (Some refs)
    /\ splitlines (join_lines refs) = refs.
Proof.
  destruct (references_listed_aux text) as (recs & refs & _ & Hl & _ & _ & _ & Hall).
  exists refs. split; [done|]. by apply splitlines_join.
Qed.

(** ** The first number after a label *)

Lemma after_label_scan_spec lines idx :
  forall n a,
    exists v,
      after_label_scan lines idx (seq a n) = Ok v
      /\ match v with
         | Some tok =>
             exists j L m,
               a <= j < a + n /\ lines !! (idx + j) = Some L
               /\ re_search NUM_RE L = Some m /\ tok = m_text m
               /\ forall i L', a <= i < j -> lines !! (idx + i) = Some L' ->
                               re_search NUM_RE L' = None
         | None =>
             forall j L, a <= j < a + n -> lines !! (idx + j) = Some L ->
                         re_search NUM_RE L = None
         end.
Proof.
  induction n as [|n IH]; intros a; simpl.
  { exists None. split; [done|]. intros j L Hj. lia. }
  destruct (Nat.leb_spec (length lines) (idx + a)) as [Hout|Hin].
  { exists None. split; [done|]. intros j L Hj HL.
    apply lookup_lt_Some in HL. lia. }
  destruct (lookup_lt_is_Some_2 lines (idx + a) Hin) as [L HL].
  rewrite (py_index_nat lines (idx + a) L HL). cbn [mbind result_bind].
  destruct (re_search NUM_RE L) as [m|] eqn:Em.
  { exists (Some (m_text m)). split; [done|].
    exists a, L, m. split_and!; try done; lia. }
  destruct (IH (S a)) as (v & Hv & Hspec). exists v. split; [done|].
  destruct v as [tok|].
  - destruct Hspec as (j & L1 & m & Hj & HL1 & Hm & Htok & Hfirst).
    exists j, L1, m. split_and!; try done; try lia. intros i L' Hi HL'.
    destruct (decide (i = a)) as [->|Hne]; [congruence|].
    apply (Hfirst i L'); [lia|done].
  - intros j L' Hj HL'.
    destruct (decide (j = a)) as [->|Hne]; [congruence|].
    apply (Hspec j L'); [lia|done].
Qed.

(** X18.  [_find_amount_after_label] never raises.  Without a line that
    holds the label it returns [None].  Otherwise it returns the first
    match of [NUM_RE] in the first line, among the label's line and the
    three lines after it, that has one: a text that [Decimal] accepts
    once the commas are removed; it returns [None] when none of these
    lines has a match. *)
Theorem find_amount_after_label_spec text label :
  exists v,
    _find_amount_after_label text label = Ok v
    /\ match first_label_line (lower label) (splitlines text) 0 with
       | None => v = None
       | Some (idx, line, _) =>
           match v with
           | Some tok =>
               exists j L m,
                 j <= 3 /\ splitlines text !! (idx + j) = Some L
                 /\ re_search NUM_RE L = Some m /\ tok = m_text m
                 /\ (exists d, to_decimal tok = Ok d)
                 /\ forall i L', i < j -> splitlines text !! (idx + i) = Some L' ->
                                 re_search NUM_RE L' = None
           | None =>
               forall j L, j <= 3 -> splitlines text !! (idx + j) = Some L ->
                           re_search NUM_RE L = None
           end
       end.
Proof.
  unfold _find_amount_after_label.
  destruct (first_label_line (lower label) (splitlines text) 0)
    as [[[idx line] pos]|] eqn:El; [|by exists None].
  apply first_label_line_sound in El as (_ & Hline & _).
  rewrite Nat.sub_0_r in Hline.
  assert (Hdec : forall L m, re_search NUM_RE L = Some m ->
                             exists d, to_decimal (m_text m) = Ok d).
  { intros L m Hm. apply re_search_sound in Hm as (_ & _ & _ & _ & b & b' & He).
    by eapply to_decimal_ok. }
  destruct (re_search NUM_RE line) as [m|] eqn:Em.
  - exists (Some (m_text m)). split; [done|].
    exists 0, line, m. rewrite Nat.add_0_r.
    split_and!; try done; try lia. by eapply Hdec.
  - destruct (after_label_scan_spec (splitlines text) idx 3 1) as (v & Hv & Hspec).
    exists v. split; [exact Hv|]. destruct v as [tok|].
    + destruct Hspec as (j & L & m & Hj & HL & Hm & -> & Hfirst).
      exists j, L, m. split_and!; try done; try lia; [by eapply Hdec|].
      intros i L' Hi HL'. destruct (decide (i = 0)) as [->|Hne].
      * rewrite Nat.add_0_r in HL'. congruence.
      * apply (Hfirst i L'); [lia|done].
    + intros j L Hj HL. destruct (decide (j = 0)) as [->|Hne].
      * rewrite Nat.add_0_r in HL. congruence.
      * apply (Hspec j L); [lia|done].
Qed.

(** ** Where a header can stand *)

Lemma exec_bol_first r b w c b' c' : exec (Seq Bol r) b w c b' c' -> b = true.
Proof.
  intros H. apply exec_seq_inv in H as (w1 & w2 & b1 & c1 & _ & H1 & _).
  by inversion H1.
Qed.

Lemma finditer_from_line_start r text :
  forall s b pos skip,
    drop pos text = s -> (b = true -> at_line_start text pos) ->
    Forall (fun m => at_line_start text (m_start m))
           (finditer_from (Seq Bol r) b pos skip s).
Proof.
  induction s as [|a s IH]; intros b pos skip Hs Hb.
  - destruct skip; simpl; [|constructor].
    destruct (match_here (Seq Bol r) b pos []) as [m|] eqn:Em; [|constructor].
    apply match_here_sound in Em as (w & s' & b' & _ & He & Hstart & _).
    apply exec_bol_first in He. constructor; [|constructor].
    rewrite Hstart. by apply Hb.
  - assert (Hnext : forall skip',
              Forall (fun m => at_line_start text (m_start m))
                     (finditer_from (Seq Bol r) (is_nl a) (S pos) skip' s)).
    { intros skip'. apply IH.
      - by apply (drop_S_tail text pos a).
      - intros Hnl. right. simpl. rewrite Nat.sub_0_r.
        assert (Ha : text !! pos = Some a).
        { rewrite <- (Nat.add_0_r pos), <- lookup_drop, Hs. done. }
        rewrite Ha. f_equal. unfold is_nl, chr_eqb in Hnl.
        by apply Ascii.eqb_eq in Hnl. }
    destruct skip; simpl; [|apply Hnext].
    destruct (match_here (Seq Bol r) b pos (a :: s)) as [m|] eqn:Em; [|apply Hnext].
    apply match_here_sound in Em as (w & s' & b' & _ & He & Hstart & _).
    apply exec_bol_first in He. constructor; [|apply Hnext].
    rewrite Hstart. by apply Hb.
Qed.

(** X19.  A header is recognised only at the beginning of a line: every
    match of the header expression, hence every block of [parse_blocks],
    starts at offset 0 of the document or right after a newline
    character. *)
Theorem header_at_line_start text :
  Forall (fun m => at_line_start text (m_start m)) (finditer HEADER_RE text).
Proof. apply (finditer_from_line_start _ text); [apply drop_0 | by left]. Qed.

(** ** The form of the charges *)

Lemma forallb_weaken {A} (p q : A -> bool) (l : list A) :
  (forall a, p a = true -> q a = true) -> forallb p l = true -> forallb q l = true.
Proof.
  intros Hpq. rewrite !forallb_forall. intros H a Ha. by apply Hpq, H.
Qed.

Lemma digit_numeric a : is_digit a = true -> numeric_chr a = true.
Proof. unfold numeric_chr. by intros ->. Qed.

Lemma digit_or_comma_numeric a : digit_or_comma a = true -> numeric_chr a = true.
Proof.
  unfold numeric_chr, digit_or_comma. intros [->| ->]%orb_true_iff; [done|].
  by rewrite orb_true_r.
Qed.

Lemma exec_opt_lit_inv x b w c b' c' :
  exec (Opt (lit x)) b w c b' c' -> w = [] \/ w = [x].
Proof.
  unfold Opt. intros [H|H]%exec_alt_inv.
  - right. by apply exec_lit_inv in H.
  - left. by apply exec_eps_inv in H as [-> _].
Qed.

Lemma exec_num_pattern_numeric b w c b' c' :
  exec NUM_PATTERN b w c b' c' -> numeric_text w.
Proof.
  unfold NUM_PATTERN. simpl seqs. intros H.
  apply exec_seq_inv in H as (w1 & w2 & ? & ? & -> & H1 & H).
  apply exec_seq_inv in H as (w3 & w4 & ? & ? & -> & H2 & H3).
  apply exec_opt_lit_inv in H1.
  apply exec_plus_inv in H2 as (a & w' & -> & Ha & Hw).
  assert (H4 : forallb numeric_chr w4 = true).
  { unfold Opt in H3. apply exec_alt_inv in H3 as [H3|H3].
    - apply exec_seq_inv in H3 as (u1 & u2 & ? & ? & -> & Hu1 & Hu2).
      apply exec_lit_inv in Hu1 as ->. apply exec_ds_shape in Hu2 as [_ Hd].
      simpl. by apply (forallb_weaken _ _ _ digit_numeric).
    - by apply exec_eps_inv in H3 as [-> _]. }
  split; [by destruct H1 as [-> | ->]|].
  rewrite !forallb_app. simpl.
  rewrite (digit_or_comma_numeric _ Ha), H4,
    (forallb_weaken _ _ _ digit_or_comma_numeric Hw).
  by destruct H1 as [-> | ->].
Qed.

Lemma exec_num_numeric b w c b' c' : exec NUM_RE b w c b' c' -> numeric_text w.
Proof.
  intros H. apply num_token_shape in H
    as (sign & body & frac & -> & Hsign & Hbody & Hfrac & Hne).
  split; [by destruct sign, body|].
  rewrite !forallb_app. simpl.
  rewrite (forallb_weaken _ _ _ digit_or_comma_numeric Hbody),
    (forallb_weaken _ _ _ digit_numeric Hfrac).
  by destruct Hsign as [-> | ->].
Qed.

Lemma numbers_numeric seg x : x ∈ _numbers_in_segment seg -> numeric_text x.
Proof.
  unfold _numbers_in_segment. intros Hx.
  apply list_elem_of_fmap in Hx as (m & -> & Hm).
  destruct (tokens_in_sound seg) as [HF _]. rewrite Forall_forall in HF.
  destruct (HF m Hm) as [(_ & _ & _ & _ & b & b' & He) _].
  by eapply exec_num_numeric.
Qed.

Lemma label_line_value_numeric text label tok :
  label_line_value text label = Some tok -> numeric_text tok.
Proof.
  unfold label_line_value.
  destruct (first_label_line (lower label) (splitlines text) 0)
    as [[[idx line] pos]|]; [|done].
  destruct (last (_numbers_in_segment (take pos line))) as [x|] eqn:El.
  - intros [= <-]. by eapply numbers_numeric, last_elem_of.
  - intros H. by eapply numbers_numeric, head_elem_of.
Qed.

Lemma line_starts_with_number_numeric line tok :
  _line_starts_with_number line = Some tok -> numeric_text tok.
Proof.
  unfold _line_starts_with_number, re_match.
  destruct (match_here _ true 0 line) as [m|] eqn:E; [|done].
  apply match_here_sound in E as (w & s' & b' & -> & He & _).
  destruct (contains pct (tail3 (w ++ s') m)); [done|]. intros Hg.
  destruct (exec_sub _ _ _ _ _ _ "1" NUM_RE He eq_refl)
    as (v & ? & ? & ? & ? & Hv & Hex).
  unfold group in Hg. rewrite Hg in Hv. injection Hv as <-.
  by eapply exec_num_numeric.
Qed.

Lemma first_starting_number_numeric lines tok :
  first_starting_number lines = Some tok -> numeric_text tok.
Proof.
  induction lines as [|[L|] lines IH]; simpl; [done| |done].
  destruct (truthy (_line_starts_with_number L)); [|done].
  apply line_starts_with_number_numeric.
Qed.

Lemma for_label_value_numeric text label window tok :
  for_label_value text label window = Some tok -> numeric_text tok.
Proof.
  unfold for_label_value.
  destruct (first_label_line (lower label) (splitlines text) 0)
    as [[[idx line] pos]|]; [|done].
  destruct (last (sorted_by_key (same_line_before line pos))) as [p|] eqn:El.
  - intros [= <-].
    apply last_elem_of in El. rewrite sorted_by_key_perm in El.
    unfold same_line_before in El.
    apply list_elem_of_In, in_map_iff in El as (m & <- & Hm).
    apply list_elem_of_In, list_elem_of_filter in Hm as [_ Hm]. simpl.
    destruct (finditer_sound NUM_RE line) as [HF _]. rewrite Forall_forall in HF.
    destruct (HF m Hm) as (_ & _ & _ & _ & b & b' & He).
    by eapply exec_num_numeric.
  - destruct (first_starting_number (map (prev_of _ idx) _)) eqn:Ep.
    + intros [= <-]. by eapply first_starting_number_numeric.
    + apply first_starting_number_numeric.
Qed.

Lemma pattern_match_numeric f text m v :
  pattern_match f text = Some m -> group m "1" = Some v -> numeric_text v.
Proof.
  unfold pattern_match. intros H Hg.
  assert (He : exists r b b', sub_of "1" r = Some NUM_PATTERN
                              /\ exec r b (m_text m) ∅ b' (m_groups m)).
  { destruct (re_search (after_of f) text) as [ma|] eqn:Ea.
    - injection H as ->. apply re_search_sound in Ea as (_ & _ & _ & _ & b & b' & He).
      exists (after_of f), b, b'. split; [by destruct f|done].
    - apply re_search_sound in H as (_ & _ & _ & _ & b & b' & He).
      exists (before_of f), b, b'. split; [by destruct f|done]. }
  destruct He as (r & b & b' & Hsub & He).
  destruct (exec_sub _ _ _ _ _ _ "1" NUM_PATTERN He Hsub)
    as (v' & ? & ? & ? & ? & Hv & Hex).
  unfold group in Hg. rewrite Hg in Hv. injection Hv as <-.
  by eapply exec_num_pattern_numeric.
Qed.

Lemma resolved_numeric f text v :
  resolved f text = Ok (Some v) -> numeric_text v.
Proof.
  unfold resolved, resolve_field. rewrite amount_from_label_line_ok.
  cbn [mbind result_bind].
  destruct (label_line_value text (label_of f)) as [tok|] eqn:Ea.
  - pose proof (label_line_value_truthy _ _ _ Ea) as Ht.
    apply label_line_value_numeric in Ea.
    unfold fall_back. rewrite Ht. simpl. unfold stored. rewrite Ht.
    by intros [= <-].
  - unfold fall_back. simpl.
    destruct (pattern_match f text) as [m|] eqn:Ep.
    + simpl. unfold stored. destruct (group m "1") as [g|] eqn:Eg; [|done].
      destruct (truthy (Some g)); [|done]. intros [= <-].
      by eapply pattern_match_numeric.
    + rewrite find_amount_for_label_ok. simpl. unfold stored.
      destruct (for_label_value text (label_of f) 3) as [tok|] eqn:Ew; [|done].
      destruct (truthy (Some tok)); [|done]. intros [= <-].
      by eapply for_label_value_numeric.
Qed.

Lemma amount_shape_numeric v : amount_shape v -> numeric_text v.
Proof.
  intros (body & frac & -> & Hne & Hbody & Hfne & Hfrac).
  split; [by destruct body|]. rewrite forallb_app. simpl.
  by rewrite (forallb_weaken _ _ _ digit_or_comma_numeric Hbody),
    (forallb_weaken _ _ _ digit_numeric Hfrac).
Qed.

(** X20.  Whatever step of the resolver found it, a charge of a record is
    a piece of numeric text: the value under [transportation_charge],
    [discount] or [fuel_surcharge], when the key is present, is a string
    that is not empty and holds only digits, commas, points and minus
    signs; the same holds for the entries of the nested mapping
    [charges]. *)
Theorem charge_values_numeric text :
  exists recs, parse_blocks text = Ok recs
    /\ Forall (fun r =>
         (forall f x, r !! key_of f = Some x -> exists v, x = VStr v /\ numeric_text v)
         /\ (forall d f v, r !! "charges" = Some (VDict d) ->
               d !! key_of f = Some v -> numeric_text v)) recs.
Proof.
  apply records_forall. intros m block r Hm Hr.
  destruct (header_group text m "service" Hm eq_refl) as (sv & Hsv & _).
  destruct (header_group text m "weight" Hm eq_refl) as (wv & Hwv & _).
  destruct (header_group_exec text m "other_charges" _ Hm eq_refl)
    as (oc & ? & ? & ? & ? & Hoc & Hex).
  apply exec_amount_shape, amount_shape_numeric in Hex.
  destruct (parse_block_spec m block sv wv Hsv Hwv)
    as (r' & Hr' & _ & _ & _ & Hfuel & _ & _ & Hres).
  rewrite Hr in Hr'. injection Hr' as <-.
  destruct (Hfuel oc Hoc (proj1 Hex)) as [Hf Hfd].
  assert (Htop : forall f val, r !! key_of f = Some val ->
                               exists v, val = VStr v /\ numeric_text v).
  { intros f val Hx.
    assert (f = Fuel \/ f <> Fuel) as [->|Nf] by (destruct f; auto).
    - simpl in Hx. rewrite Hf in Hx. injection Hx as <-. by exists oc.
    - destruct (Hres f Nf) as (v & Hv & Hrv). rewrite Hrv in Hx.
      destruct v as [v|]; [|done]. injection Hx as <-. exists v. split; [done|].
      by eapply resolved_numeric. }
  split; [done|]. intros d f v Hd Hv.
  apply parse_block_stages in Hr
    as (d0 & d1 & ch & d2 & d3 & H0 & H1 & Hc & H2 & H3 & Hrr).
  destruct (add_tender_spec block d3) as [Ht _]. rewrite <- Hrr in Ht.
  apply enforce_fuel_inv in H3 as (H3 & H3c & _).
  assert (f = Fuel \/ f <> Fuel) as [->|Nf] by (destruct f; auto).
  { simpl in Hv. rewrite (Hfd d Hd) in Hv. by injection Hv as <-. }
  rewrite (Ht "charges") in Hd by done.
  apply add_charges_inv in H2 as [[-> ->]|(Hch & H2c & H2k & _)].
  - exfalso.
    assert (Hd1 : d1 !! "charges" = None).
    { assert (d1 !! "charges" = d0 !! "charges") as ->.
      { apply add_dims_inv in H1 as [[_ ->]|(dm & dv & bw & _ & _ & _ & ->)]; [done|].
        by rewrite !lookup_insert_ne. }
      eapply header_data_other; [done|not_header_key]. }
    rewrite Hd1 in H3c. congruence.
  - rewrite H2c in H3c. destruct H3c as (c' & Hc' & Hsame).
    rewrite Hc' in Hd. injection Hd as <-.
    rewrite Hsame in Hv by (by destruct f).
    destruct (Htop f (VStr v)) as (v' & [= <-] & Hnum); [|done].
    rewrite (Ht (key_of f)), (H3 (key_of f)), H2k, Hv by (by destruct f). done.
Qed.

(** ** Ties in the windowed search *)

Lemma Qltb_lt x y : Qltb x y = true -> (x < y)%Q.
Proof.
  unfold Qltb. intros H. apply negb_true_iff in H.
  apply Qnot_le_lt. intros Hle. apply Qle_bool_iff in Hle. congruence.
Qed.

Lemma max_from_first {A} (l : list (A * Q)) :
  forall best,
    exists pre post,
      best :: l = pre ++ max_from best l :: post
      /\ Forall (fun y => (snd y < snd (max_from best l))%Q) pre.
Proof.
  induction l as [|x l IH]; intros best; simpl.
  - exists [], []. split; [done|constructor].
  - destruct (Qltb (snd best) (snd x)) eqn:E.
    + destruct (IH x) as (pre & post & Heq & Hpre).
      exists (best :: pre), post. split; [simpl; by rewrite Heq|].
      constructor; [|done].
      destruct (max_from_spec l x) as [_ Hmax].
      eapply Qlt_le_trans; [by apply Qltb_lt|]. apply Hmax. by left.
    + destruct (IH best) as (pre & post & Heq & Hpre).
      destruct pre as [|p pre].
      * simpl in Heq. injection Heq as Hb Hl.
        exists [], (x :: l). split; [simpl; congruence|constructor].
      * simpl in Heq. injection Heq as <- Hl.
        apply Forall_cons in Hpre as [Hp Hpre].
        exists (best :: x :: pre), post. split; [simpl; by rewrite <- Hl|].
        constructor; [done|]. constructor; [|done].
        eapply Qle_lt_trans; [by apply Qltb_false|done].
Qed.

Lemma py_max_by_first {A} (key : A -> result Q) (l : list A) :
  l <> [] -> (forall x, x ∈ l -> exists q, key x = Ok q) ->
  exists best qb pre post,
    py_max_by key l = Ok best /\ key best = Ok qb
    /\ l = pre ++ best :: post
    /\ Forall (fun c => exists q, key c = Ok q /\ (q < qb)%Q) pre
    /\ Forall (fun c => exists q, key c = Ok q /\ (q <= qb)%Q) post.
Proof.
  intros Hne Hkey. unfold py_max_by.
  destruct (keyed_ok key l Hkey) as (keyed & -> & Hfst & Hk).
  cbn [mbind result_bind].
  destruct keyed as [|p ps]; [by subst l|].
  destruct (max_from_first ps p) as (pre & post & Heq & Hpre).
  destruct (max_from_spec ps p) as [Hin Hmax].
  exists (fst (max_from p ps)), (snd (max_from p ps)), (map fst pre), (map fst post).
  split_and!.
  - done.
  - by apply Hk.
  - rewrite <- Hfst, Heq, map_app. done.
  - apply Forall_forall. intros c Hc.
    apply list_elem_of_fmap in Hc as (y & -> & Hy).
    exists (snd y). split.
    + apply Hk. rewrite Heq. apply elem_of_app. by left.
    + rewrite Forall_forall in Hpre. by apply Hpre.
  - apply Forall_forall. intros c Hc.
    apply list_elem_of_fmap in Hc as (y & -> & Hy).
    assert (Hyin : y ∈ p :: ps).
    { rewrite Heq. apply elem_of_app. right. by right. }
    exists (snd y). split; [by apply Hk | by apply Hmax].
Qed.

Lemma tokens_in_filter L :
  tokens_in L
  = filter (fun m => dirty_at L (m_start m) (length (m_text m)) = false)
           (finditer NUM_RE L).
Proof.
  unfold tokens_in. destruct (finditer_sound NUM_RE L) as [HF _].
  induction HF as [|m l Hm HF IH]; [done|].
  destruct Hm as (_ & Hend & _). rewrite !filter_cons, IH.
  rewrite (excluded_dirty_at L m Hend).
  by destruct (decide (dirty_at L (m_start m) (length (m_text m)) = false)).
Qed.

Lemma concat_numbers_omap (g : nat -> option str) js :
  concat (map numbers_of (map g js)) = concat (map _numbers_in_segment (omap g js)).
Proof.
  induction js as [|j js IH]; [done|]. simpl.
  destruct (g j) as [L|]; simpl; by rewrite IH.
Qed.

(** X21.  Ties of the windowed search go to the first candidate.  On text
    of characters below U+0100 the candidates of [_find_amount_near_label]
    are scanned in this order: the numbers of the label's line, then those
    of the following lines, then those of the preceding lines, each line
    from left to right.  When
    every candidate has at most 28 characters, the value returned is the
    first candidate of largest absolute value: every candidate scanned
    before it is strictly smaller in absolute value, every later one is at
    most as large. *)
Theorem windowed_first_of_the_largest text label window :
  match first_label_line (lower label) (splitlines text) 0 with
  | None => _find_amount_near_label text label window = Ok None
  | Some (idx, line, _) =>
      let lines := splitlines text in
      let clean L :=
        map m_text
          (filter (fun m => dirty_at L (m_start m) (length (m_text m)) = false)
                  (finditer NUM_RE L)) in
      let following := omap (fun j => lines !! (idx + j)) (seq 1 window) in
      let preceding :=
        omap (fun j => if j <=? idx then lines !! (idx - j) else None)
             (seq 1 window) in
      let cands :=
        clean line ++ concat (map clean following) ++ concat (map clean preceding) in
      match cands with
      | [] => _find_amount_near_label text label window = Ok None
      | _ :: _ =>
          Forall (fun c => length c <= prec) cands ->
          exists best db pre post,
            _find_amount_near_label text label window = Ok (Some best)
            /\ to_decimal best = Ok db
            /\ cands = pre ++ best :: post
            /\ Forall (fun c => exists dc, to_decimal c = Ok dc
                         /\ (Qabs (dec_value dc) < Qabs (dec_value db))%Q) pre
            /\ Forall (fun c => exists dc, to_decimal c = Ok dc
                         /\ (Qabs (dec_value dc) <= Qabs (dec_value db))%Q) post
      end
  end.
Proof.
  unfold _find_amount_near_label.
  destruct (first_label_line (lower label) (splitlines text) 0)
    as [[[idx line] pos]|] eqn:Ef; [|done].
  apply first_label_line_sound in Ef as (_ & Hline & _ & _).
  rewrite Nat.sub_0_r in Hline. apply lookup_lt_Some in Hline.
  rewrite (near_candidates_ok _ _ _ _ Hline). cbn [mbind result_bind]. cbv zeta.
  assert (Heq : near_window (splitlines text) idx line window
    = map m_text
        (filter (fun m => dirty_at line (m_start m) (length (m_text m)) = false)
                (finditer NUM_RE line))
      ++ concat (map (fun L => map m_text
                   (filter (fun m => dirty_at L (m_start m) (length (m_text m)) = false)
                           (finditer NUM_RE L)))
                   (omap (fun j => splitlines text !! (idx + j)) (seq 1 window)))
      ++ concat (map (fun L => map m_text
                   (filter (fun m => dirty_at L (m_start m) (length (m_text m)) = false)
                           (finditer NUM_RE L)))
                   (omap (fun j => if j <=? idx then splitlines text !! (idx - j)
                                   else None) (seq 1 window)))).
  { unfold near_window. rewrite !concat_numbers_omap.
    unfold _numbers_in_segment. rewrite tokens_in_filter. f_equal.
    f_equal; f_equal; apply map_ext; intros L; by rewrite tokens_in_filter. }
  rewrite <- Heq. clear Heq.
  set (cands := near_window (splitlines text) idx line window).
  destruct cands as [|c l] eqn:E; [done|]. intros Hall.
  assert (Hkey : forall x, x ∈ cands ->
            exists d, to_decimal x = Ok d /\ abs_key x = Ok (Qabs (dec_value d))).
  { apply (near_window_short_key (splitlines text) idx line window).
    fold cands. by rewrite E. }
  rewrite E in Hkey.
  destruct (py_max_by_first abs_key (c :: l) ltac:(done))
    as (best & kb & pre & post & Hbest & Hkb & Hsplit & Hpre & Hpost).
  { intros x Hx. destruct (Hkey x Hx) as (d & _ & Hd). by eexists. }
  assert (Hin : best ∈ c :: l).
  { rewrite Hsplit. apply elem_of_app. right. by left. }
  destruct (Hkey best Hin) as (db & Hdb & Hkb').
  rewrite Hkb in Hkb'. injection Hkb' as ->.
  exists best, db, pre, post. rewrite Hbest. cbn [mbind result_bind].
  split_and!; [done|done|done| |].
  - apply Forall_forall. intros x Hx.
    assert (Hxin : x ∈ c :: l) by (rewrite Hsplit; apply elem_of_app; by left).
    destruct (Hkey x Hxin) as (dx & Hdx & Hkx).
    rewrite Forall_forall in Hpre. destruct (Hpre x Hx) as (q & Hq & Hlt).
    rewrite Hkx in Hq. injection Hq as <-. by exists dx.
  - apply Forall_forall. intros x Hx.
    assert (Hxin : x ∈ c :: l)
      by (rewrite Hsplit; apply elem_of_app; right; by right).
    destruct (Hkey x Hxin) as (dx & Hdx & Hkx).
    rewrite Forall_forall in Hpost. destruct (Hpost x Hx) as (q & Hq & Hle).
    rewrite Hkx in Hq. injection Hq as <-. by exists dx.
Qed.

(** ** The line-by-line fallback *)

Lemma insert_by_key_last {A} (x : nat * A) (acc : list (nat * A)) :
  Forall (fun y => fst y <= fst x) acc -> insert_by_key x acc = acc ++ [x].
Proof.
  induction 1 as [|y acc Hy Hacc IH]; simpl; [done|].
  destruct (Nat.leb_spec (fst y) (fst x)); [|lia]. by rewrite IH.
Qed.

Lemma sorted_by_key_sorted {A} (l : list (nat * A)) :
  StronglySorted (fun a b => fst a < fst b) l -> sorted_by_key l = l.
Proof.
  unfold sorted_by_key.
  assert (H : forall acc,
            StronglySorted (fun a b => fst a < fst b) l ->
            Forall (fun y => Forall (fun x => fst y <= fst x) l) acc ->
            fold_left (fun acc x => insert_by_key x acc) l acc = acc ++ l).
  { induction l as [|x l IH]; intros acc Hs Hacc; simpl; [by rewrite app_nil_r|].
    apply StronglySorted_inv in Hs as [Hs Hx].
    rewrite insert_by_key_last.
    - rewrite IH; [by rewrite <- app_assoc|done|].
      apply Forall_app. split.
      + eapply Forall_impl; [exact Hacc|]. intros y Hy. simpl in Hy.
        by apply Forall_cons in Hy as [_ ?].
      + constructor; [|constructor]. eapply Forall_impl; [exact Hx|].
        intros z Hz. simpl in *. lia.
    - eapply Forall_impl; [exact Hacc|]. intros y Hy. simpl in Hy.
      by apply Forall_cons in Hy as [? _]. }
  intros Hs. by apply (H []).
Qed.

Lemma first_starting_number_app l1 l2 :
  first_starting_number (l1 ++ l2)
  = match first_starting_number l1 with
    | Some tok => Some tok
    | None => first_starting_number l2
    end.
Proof.
  induction l1 as [|[L|] l1 IH]; simpl; [done| |done].
  destruct (truthy (_line_starts_with_number L)) eqn:E; [|done].
  destruct (_line_starts_with_number L); [done|by simpl in E].
Qed.

Lemma StronglySorted_keyed {A B} (f : A -> nat) (g : A -> B) (l : list A) :
  StronglySorted (fun m1 m2 => f m1 < f m2) l ->
  StronglySorted (fun a b : nat * B => fst a < fst b) (map (fun m => (f m, g m)) l).
Proof.
  induction 1 as [|m l Hl IH Hm]; simpl; constructor; [done|].
  apply Forall_forall. intros p Hp.
  apply list_elem_of_fmap in Hp as (m' & -> & Hm').
  rewrite Forall_forall in Hm. simpl. by apply Hm.
Qed.

Lemma same_line_sorted line label_pos :
  StronglySorted (fun a b : nat * str => fst a < fst b) (same_line_before line label_pos).
Proof.
  unfold same_line_before. apply StronglySorted_keyed.
  destruct (finditer_sound NUM_RE line) as [_ Hs].
  by apply StronglySorted_filter.
Qed.

Lemma filter_ext_Forall {A} (P Q : A -> Prop)
    `{forall x, Decision (P x)} `{forall x, Decision (Q x)} (l : list A) :
  Forall (fun x => P x <-> Q x) l -> filter P l = filter Q l.
Proof.
  induction 1 as [|x l Hx Hl IH]; [done|].
  rewrite !filter_cons, IH.
  destruct (decide (P x)), (decide (Q x)); tauto.
Qed.

(** What [_line_starts_with_number] tests, written out. *)
Lemma line_starts_with_number_iff L tok :
  _line_starts_with_number L = Some tok <->
  exists m, re_match (Seq ws0 (Group "1" NUM_RE)) L = Some m
    /\ group m "1" = Some tok
    /\ contains pct (slice L (m_end m) (m_end m + 3)) = false.
Proof.
  unfold _line_starts_with_number, tail3.
  destruct (re_match (Seq ws0 (Group "1" NUM_RE)) L) as [m|]; [|split; [done|]].
  - destruct (contains pct (slice L (m_end m) (m_end m + 3))) eqn:E.
    + split; [done|]. intros (m' & [= <-] & _ & Hp). congruence.
    + split; [intros H; by exists m|]. by intros (m' & [= <-] & Hg & _).
  - by intros (m & ? & _).
Qed.

Lemma first_starting_number_spec (os : list (option str)) :
  match first_starting_number os with
  | Some tok =>
      exists pre L post,
        omap id os = pre ++ L :: post
        /\ _line_starts_with_number L = Some tok
        /\ Forall (fun L' => _line_starts_with_number L' = None) pre
  | None => Forall (fun L => _line_starts_with_number L = None) (omap id os)
  end.
Proof.
  induction os as [|[L|] os IH].
  - constructor.
  - change (omap id (Some L :: os)) with (L :: omap id os).
    cbn [first_starting_number].
    destruct (_line_starts_with_number L) as [tok|] eqn:E.
    + pose proof (line_starts_with_number_sound _ _ E) as (_ & _ & _ & _ & _ & Hne).
      rewrite (truthy_nonempty tok Hne). exists [], L, (omap id os).
      split_and!; [done|done|constructor].
    + change (truthy None) with false. cbv iota.
      destruct (first_starting_number os) as [tok|].
      * destruct IH as (pre & L' & post & Heq & HL' & Hpre).
        exists (L :: pre), L', post. split_and!; [by rewrite Heq|done|by constructor].
      * by constructor.
  - exact IH.
Qed.

(** X22.  [_find_amount_for_label], on text of characters below U+0100,
    never raises.  Without a line that holds the label it returns [None].
    When the label's line has matches of [NUM_RE] that start before the
    label and have no percent sign and no [kg] in the three characters
    around them, it returns the right-most of them.  Otherwise it goes
    through the preceding lines from the nearest to the farthest and then
    through the following lines in the same way, [window] lines each, and
    returns the number of the first line that passes this test: the line
    begins, after optional white space, with a match of [NUM_RE], and no
    percent sign stands in the three characters after the match.  It
    returns [None] when no line passes. *)
Theorem find_amount_for_label_spec text label window :
  exists v,
    _find_amount_for_label text label window = Ok v
    /\ match first_label_line (lower label) (splitlines text) 0 with
       | None => v = None
       | Some (idx, line, label_pos) =>
           let lines := splitlines text in
           let before :=
             filter (fun m => m_start m < label_pos
                              /\ dirty_at line (m_start m) (length (m_text m)) = false)
                    (finditer NUM_RE line) in
           let passes L tok :=
             exists m, re_match (Seq ws0 (Group "1" NUM_RE)) L = Some m
               /\ group m "1" = Some tok
               /\ contains pct (slice L (m_end m) (m_end m + 3)) = false in
           let neighbours :=
             omap (fun j => if j <=? idx then lines !! (idx - j) else None)
                  (seq 1 window)
             ++ omap (fun j => lines !! (idx + j)) (seq 1 window) in
           match last before with
           | Some m =>
               v = Some (m_text m)
               /\ forall m', m' ∈ before -> m_start m' <= m_start m
           | None =>
               match v with
               | Some tok =>
                   exists pre L post,
                     neighbours = pre ++ L :: post /\ passes L tok
                     /\ Forall (fun L' => forall t, ~ passes L' t) pre
               | None => Forall (fun L => forall t, ~ passes L t) neighbours
               end
           end
       end.
Proof.
  exists (for_label_value text label window).
  split; [apply find_amount_for_label_ok|].
  unfold for_label_value.
  destruct (first_label_line (lower label) (splitlines text) 0)
    as [[[idx line] pos]|]; [|done].
  cbv zeta. rewrite (sorted_by_key_sorted _ (same_line_sorted line pos)).
  unfold same_line_before. rewrite last_map.
  assert (Hf : filter (fun m => (m_start m <? pos) && negb (excluded line m))
                      (finditer NUM_RE line)
               = filter (fun m => m_start m < pos
                           /\ dirty_at line (m_start m) (length (m_text m)) = false)
                        (finditer NUM_RE line)).
  { apply filter_ext_Forall.
    destruct (finditer_sound NUM_RE line) as [HF _].
    eapply Forall_impl; [exact HF|]. intros m (_ & Hend & _). simpl.
    rewrite (excluded_dirty_at line m Hend).
    rewrite Is_true_true, andb_true_iff, negb_true_iff, Nat.ltb_lt. done. }
  rewrite Hf.
  set (before := filter _ (finditer NUM_RE line)).
  destruct (last before) as [m|] eqn:El; simpl.
  - split; [done|].
    destruct (finditer_sound NUM_RE line) as [_ Hs].
    apply (sorted_last_max m_start before m); [|done].
    by apply StronglySorted_filter.
  - rewrite <- first_starting_number_app.
    pose proof (first_starting_number_spec
                  (map (prev_of (splitlines text) idx) (seq 1 window)
                   ++ map (next_of (splitlines text) idx) (seq 1 window))) as Hs.
    rewrite omap_app in Hs.
    assert (Hom : forall (g : nat -> option str) js, omap id (map g js) = omap g js).
    { intros g js. induction js as [|j js IH]; [done|]. csimpl.
      destruct (g j); csimpl; by rewrite IH. }
    rewrite !Hom in Hs. unfold prev_of, next_of in Hs.
    assert (Hnone : forall L, _line_starts_with_number L = None ->
              forall t, ~ exists m, re_match (Seq ws0 (Group "1" NUM_RE)) L = Some m
                /\ group m "1" = Some t
                /\ contains pct (slice L (m_end m) (m_end m + 3)) = false).
    { intros L HL t Ht. apply line_starts_with_number_iff in Ht. congruence. }
    destruct (first_starting_number _) as [tok|].
    + destruct Hs as (pre & L & post & Heq & HL & Hpre).
      exists pre, L, post. split_and!; [done|by apply line_starts_with_number_iff|].
      eapply Forall_impl; [exact Hpre|]. intros L' HL'. by apply Hnone.
    + eapply Forall_impl; [exact Hs|]. intros L' HL'. by apply Hnone.
Qed.

Lemma first_label_line_None label_lower lines :
  forall base, first_label_line label_lower lines base = None ->
  forall line, line ∈ lines -> find (lower line) label_lower 0 = None.
Proof.
  induction lines as [|l lines IH]; intros base H line Hin.
  - by apply elem_of_nil in Hin.
  - simpl in H. destruct (find (lower l) label_lower 0) eqn:E; [done|].
    apply elem_of_cons in Hin as [->|Hin]; [done|]. by eapply IH.
Qed.

(** X23.  On text of characters below U+0100 the same-line label-anchored
    strategy never raises and looks at the first line that contains the
    label in any case, the label standing in it at offset [pos] and not
    before.  Of the matches of [NUM_RE] in the part of the line before the
    label that have, within that part, no percent sign and no [kg] in the
    three characters around them, it returns the one with the largest start
    offset; when there is none, it returns the one with the smallest start
    offset among such matches in the part after the label; with no such
    match, or no line with the label, it returns nothing.  On
    ["100.00 200.00 Transportation Charge"] the value is ["200.00"]. *)
Theorem amount_from_label_line_spec :
  (forall text label,
    exists v, _amount_from_label_line text label = Ok v /\
    match first_label_line (lower label) (splitlines text) 0 with
    | None =>
        v = None
        /\ forall line, line ∈ splitlines text ->
             forall i, occurs_at (lower label) (lower line) i = false
    | Some (idx, line, pos) =>
        let kept seg :=
          filter (fun m => dirty_at seg (m_start m) (length (m_text m)) = false)
                 (finditer NUM_RE seg) in
        let before := kept (take pos line) in
        let after := kept (drop (pos + length label) line) in
        splitlines text !! idx = Some line
        /\ (forall j L, j < idx -> splitlines text !! j = Some L ->
             forall i, occurs_at (lower label) (lower L) i = false)
        /\ first_occurrence (lower label) (lower line) 0 pos
        /\ match last before, head after with
           | Some m, _ =>
               v = Some (m_text m)
               /\ forall m', m' ∈ before -> m_start m' <= m_start m
           | None, Some m =>
               v = Some (m_text m)
               /\ forall m', m' ∈ after -> m_start m <= m_start m'
           | None, None => v = None
           end
    end)
  /\ _amount_from_label_line (txt "100.00 200.00 Transportation Charge")
       (label_of Transportation) = Ok (Some (txt "200.00")).
Proof.
  split; [|by vm_compute].
  intros text label. exists (label_line_value text label).
  split; [apply amount_from_label_line_ok|].
  unfold label_line_value, _numbers_in_segment.
  destruct (first_label_line (lower label) (splitlines text) 0)
    as [[[idx line] pos]|] eqn:Hfl.
  - cbv zeta. rewrite last_map, head_map.
    apply first_label_line_sound in Hfl as (_ & Hidx & Hpos & Hearlier).
    rewrite Nat.sub_0_r in Hidx, Hearlier.
    split_and!; [done| |by apply find_Some|].
    { intros j L Hj HL i. eapply find_None; [by eapply Hearlier|lia]. }
    rewrite <- !tokens_in_filter.
    destruct (tokens_in_sound (take pos line)) as [_ HSb].
    destruct (tokens_in_sound (drop (pos + length label) line)) as [_ HSa].
    destruct (last (tokens_in (take pos line))) as [m|] eqn:El; simpl.
    + split; [done|]. by apply (sorted_last_max m_start _ m HSb).
    + destruct (tokens_in (drop (pos + length label) line)) as [|m l] eqn:E; [done|].
      simpl. split; [done|]. by apply (sorted_head_min m_start _ m HSa).
  - split; [done|]. intros line Hin i.
    eapply find_None; [by eapply first_label_line_None|lia].
Qed.
